(** * Schema and index reconciliation of the financial-records application

    A shallow embedding of [models.py]: the connection retry loop, the
    reconciliation of collections and indexes against the live database,
    the seeding of the reference collections, and the user and usage-log
    accessors.  The database is the only external collaborator; it is
    modelled as an explicit store threaded through a state-and-exception
    monad that also records every call issued, every sleep and every log
    record. *)

From Stdlib Require Import ZArith Ascii String.
From stdpp Require Import base option list gmap strings pretty fin_maps.

Open Scope Z_scope.
Open Scope string_scope.
Open Scope list_scope.

(** ** Python values *)

(** Scalars that occur as sort directions and as index options.  Python's
    [bool] is a subclass of [int] ([True == 1], same hash), so for the
    comparisons done by the program a boolean is the integer 0 or 1. *)
Inductive pyval :=
| VInt (z : Z)
| VStr (s : string).

#[global] Instance pyval_eq_dec : EqDecision pyval.
Proof. solve_decision. Defined.

Definition VTrue : pyval := VInt 1.
Definition VFalse : pyval := VInt 0.

(** [pymongo.ASCENDING] and [pymongo.DESCENDING]. *)
Definition ASCENDING : pyval := VInt 1.
Definition DESCENDING : pyval := VInt (-1).

(** Documents and validators: nested dictionaries in insertion order. *)
#[warnings="-register-all"]
Inductive json :=
| JNull
| JBool (b : bool)
| JInt (z : Z)
| JFloat (mantissa exponent : Z)   (* mantissa * 10 ^ exponent *)
| JStr (s : string)
| JDate (t : Z)
| JOid (n : nat)                   (* an ObjectId assigned by the store *)
| JList (l : list json)
| JObj (fields : list (string * json)).

Fixpoint json_eqb (a b : json) {struct a} : bool :=
  match a, b with
  | JNull, JNull => true
  | JBool x, JBool y => Bool.eqb x y
  | JInt x, JInt y => Z.eqb x y
  | JFloat m1 e1, JFloat m2 e2 => Z.eqb m1 m2 && Z.eqb e1 e2
  | JStr x, JStr y => String.eqb x y
  | JDate x, JDate y => Z.eqb x y
  | JOid x, JOid y => Nat.eqb x y
  | JList l1, JList l2 =>
      (fix go (l1 l2 : list json) {struct l1} : bool :=
         match l1, l2 with
         | [], [] => true
         | x :: xs, y :: ys => json_eqb x y && go xs ys
         | _, _ => false
         end) l1 l2
  | JObj f1, JObj f2 =>
      (fix go (l1 l2 : list (string * json)) {struct l1} : bool :=
         match l1, l2 with
         | [], [] => true
         | (k1, x) :: xs, (k2, y) :: ys =>
             String.eqb k1 k2 && json_eqb x y && go xs ys
         | _, _ => false
         end) f1 f2
  | _, _ => false
  end.

(** [d.get(k)] on a dictionary given by its items. *)
Fixpoint assoc_get {A} (k : string) (l : list (string * A)) : option A :=
  match l with
  | [] => None
  | (k', v) :: rest => if String.eqb k k' then Some v else assoc_get k rest
  end.

Definition jget (k : string) (d : json) : option json :=
  match d with
  | JObj fields => assoc_get k fields
  | _ => None
  end.

(** [d[k] = v]: replaces the value in place, or appends a new item. *)
Fixpoint assoc_set {A} (k : string) (v : A) (l : list (string * A))
  : list (string * A) :=
  match l with
  | [] => [(k, v)]
  | (k', v') :: rest =>
      if String.eqb k k' then (k, v) :: rest else (k', v') :: assoc_set k v rest
  end.

Definition assoc_del {A} (k : string) (l : list (string * A))
  : list (string * A) :=
  filter (fun kv => negb (String.eqb k kv.1)) l.

(** Python truthiness of a value ([x or y], [if x:]). *)
Definition truthy (v : json) : bool :=
  match v with
  | JNull => false
  | JBool b => b
  | JInt z => negb (Z.eqb z 0)
  | JFloat m _ => negb (Z.eqb m 0)
  | JStr s => negb (String.eqb s "")
  | JDate _ | JOid _ => true
  | JList l => match l with [] => false | _ => true end
  | JObj f => match f with [] => false | _ => true end
  end.

Definition py_or (a b : json) : json := if truthy a then a else b.

(** [str.lower()] is Python's, and works on the whole of Unicode: the
    functions that call it take it as their parameter [lower], and nothing
    is assumed about it.  On ASCII text it is the function [ascii_lower],
    which the examples use. *)
Definition lower_ascii (c : ascii) : ascii :=
  let n := nat_of_ascii c in
  if (Nat.leb 65 n && Nat.leb n 90)%bool then ascii_of_nat (n + 32) else c.

Fixpoint ascii_lower (s : string) : string :=
  match s with
  | EmptyString => EmptyString
  | String c rest => String (lower_ascii c) (ascii_lower rest)
  end.

(** [s.split('@')[0]]: the part before the first at-sign. *)
Fixpoint before_at (s : string) : string :=
  match s with
  | EmptyString => EmptyString
  | String c rest =>
      if Ascii.eqb c "@"%char then EmptyString else String c (before_at rest)
  end.

(** ** The declared schema *)

(** An ordered key tuple: [(field, direction)] pairs. *)
Abbreviation key_tuple := (list (string * pyval)).
Abbreviation options_dict := (gmap string pyval).

(** One entry of a collection's ['indexes'] list: the ['key'] item and the
    remaining items of the dictionary. *)
Record index_decl := {
  ix_key : key_tuple;
  ix_rest : options_dict
}.

(** One value of [collection_schemas]; a field is [None] when the dictionary
    has no such item (the code reads both through [.get] with a default). *)
Record collection_config := {
  cfg_validator : option json;
  cfg_indexes : option (list index_decl)
}.

Definition bson (t : string) : json := JObj [("bsonType", JStr t)].
Definition bson_or_null (t : string) : json :=
  JObj [("bsonType", JList [JStr t; JStr "null"])].
Definition bson_min0 (t : string) : json :=
  JObj [("bsonType", JStr t); ("minimum", JInt 0)].
Definition enum (l : list string) : json := JObj [("enum", JList (JStr <$> l))].
Definition nullable_object (props : list (string * json)) : json :=
  JObj [("bsonType", JList [JStr "object"; JStr "null"]);
        ("properties", JObj props)].
Definition json_schema (required : list string) (props : list (string * json))
  : json :=
  JObj [("$jsonSchema",
         JObj [("bsonType", JStr "object");
               ("required", JList (JStr <$> required));
               ("properties", JObj props)])].

Definition users_validator : json :=
  json_schema ["_id"; "email"; "password"; "role"]
    [("_id", bson "string");
     ("email", JObj [("bsonType", JStr "string");
                     ("pattern", JStr "^[a-zA-Z0-9_.+-]+@[a-zA-Z0-9-]+\.[a-zA-Z0-9-.]+$")]);
     ("password", bson "string");
     ("role", enum ["personal"; "trader"; "agent"; "admin"]);
     ("coin_balance", bson_min0 "int");
     ("language", enum ["en"; "ha"]);
     ("created_at", bson "date");
     ("display_name", bson_or_null "string");
     ("is_admin", bson "bool");
     ("setup_complete", bson "bool");
     ("reset_token", bson_or_null "string");
     ("reset_token_expiry", bson_or_null "date");
     ("otp", bson_or_null "string");
     ("otp_expiry", bson_or_null "date");
     ("business_details", nullable_object
        [("name", bson "string"); ("address", bson "string");
         ("industry", bson "string"); ("products_services", bson "string");
         ("phone_number", bson "string")]);
     ("personal_details", nullable_object
        [("first_name", bson "string"); ("last_name", bson "string");
         ("phone_number", bson "string"); ("address", bson "string")]);
     ("agent_details", nullable_object
        [("agent_name", bson "string"); ("agent_id", bson "string");
         ("area", bson "string"); ("role", bson "string");
         ("email", bson "string"); ("phone", bson "string")])].

Definition records_validator : json :=
  json_schema ["user_id"; "type"; "name"; "amount_owed"]
    [("user_id", bson "string");
     ("type", enum ["debtor"; "creditor"]);
     ("name", bson "string");
     ("contact", bson_or_null "string");
     ("amount_owed", bson_min0 "number");
     ("description", bson_or_null "string");
     ("reminder_count", bson_min0 "int");
     ("created_at", bson "date");
     ("updated_at", bson_or_null "date")].

Definition cashflows_validator : json :=
  json_schema ["user_id"; "type"; "party_name"; "amount"]
    [("user_id", bson "string");
     ("type", enum ["receipt"; "payment"]);
     ("party_name", bson "string");
     ("amount", bson_min0 "number");
     ("method", bson_or_null "string");
     ("category", bson_or_null "string");
     ("created_at", bson "date");
     ("updated_at", bson_or_null "date")].

Definition inventory_validator : json :=
  json_schema ["user_id"; "item_name"; "qty"; "unit"; "buying_price"; "selling_price"]
    [("user_id", bson "string");
     ("item_name", bson "string");
     ("qty", bson_min0 "int");
     ("unit", bson "string");
     ("buying_price", bson_min0 "number");
     ("selling_price", bson_min0 "number");
     ("threshold", bson_min0 "int");
     ("created_at", bson "date");
     ("updated_at", bson_or_null "date")].

Definition coin_transactions_validator : json :=
  json_schema ["user_id"; "amount"; "type"; "date"]
    [("user_id", bson "string");
     ("amount", bson "int");
     ("type", enum ["credit"; "spend"; "purchase"; "admin_credit"]);
     ("ref", bson_or_null "string");
     ("date", bson "date");
     ("facilitated_by_agent", bson_or_null "string");
     ("payment_method", bson_or_null "string");
     ("cash_amount", bson_or_null "number");
     ("notes", bson_or_null "string")].

Definition audit_logs_validator : json :=
  json_schema ["admin_id"; "action"; "timestamp"]
    [("admin_id", bson "string");
     ("action", bson "string");
     ("details", bson_or_null "object");
     ("timestamp", bson "date")].

Definition plain_index (k : key_tuple) : index_decl :=
  {| ix_key := k; ix_rest := ∅ |}.

(** [collection_schemas.items()], in the dictionary's insertion order. *)
Definition collection_schemas : list (string * collection_config) :=
  [("users",
    {| cfg_validator := Some users_validator;
       cfg_indexes := Some
         [ {| ix_key := [("email", ASCENDING)]; ix_rest := {[ "unique" := VTrue ]} |};
           {| ix_key := [("reset_token", ASCENDING)]; ix_rest := {[ "sparse" := VTrue ]} |};
           plain_index [("role", ASCENDING)] ] |});
   ("records",
    {| cfg_validator := Some records_validator;
       cfg_indexes := Some
         [ plain_index [("user_id", ASCENDING); ("type", ASCENDING)];
           plain_index [("created_at", DESCENDING)] ] |});
   ("cashflows",
    {| cfg_validator := Some cashflows_validator;
       cfg_indexes := Some
         [ plain_index [("user_id", ASCENDING); ("type", ASCENDING)];
           plain_index [("created_at", DESCENDING)] ] |});
   ("inventory",
    {| cfg_validator := Some inventory_validator;
       cfg_indexes := Some
         [ plain_index [("user_id", ASCENDING)];
           plain_index [("item_name", ASCENDING)] ] |});
   ("coin_transactions",
    {| cfg_validator := Some coin_transactions_validator;
       cfg_indexes := Some
         [ plain_index [("user_id", ASCENDING)];
           plain_index [("date", DESCENDING)] ] |});
   ("audit_logs",
    {| cfg_validator := Some audit_logs_validator;
       cfg_indexes := Some
         [ plain_index [("admin_id", ASCENDING)];
           plain_index [("timestamp", DESCENDING)] ] |})].

(** ** Seed data *)

Definition SAMPLE_COURSES : list json :=
  [ JObj [("id", JStr "budgeting_learning_101");
          ("title_key", JStr "learning_hub_course_budgeting101_title");
          ("title_en", JStr "Budgeting Learning 101");
          ("title_ha", JStr "Tsarin Kudi 101");
          ("description_en", JStr "Learn the basics of budgeting.");
          ("description_ha", JStr "Koyon asalin tsarin kudi.");
          ("is_premium", JBool false)];
    JObj [("id", JStr "financial_quiz");
          ("title_key", JStr "learning_hub_course_financial_quiz_title");
          ("title_en", JStr "Financial Quiz");
          ("title_ha", JStr "Jarabawar Kudi");
          ("description_en", JStr "Test your financial knowledge.");
          ("description_ha", JStr "Gwada ilimin ku na kudi.");
          ("is_premium", JBool false)];
    JObj [("id", JStr "savings_basics");
          ("title_key", JStr "learning_hub_course_savings_basics_title");
          ("title_en", JStr "Savings Basics");
          ("title_ha", JStr "Asalin Tattara Kudi");
          ("description_en", JStr "Understand how to save effectively.");
          ("description_ha", JStr "Fahimci yadda ake tattara kudi yadda ya kamata.");
          ("is_premium", JBool false)] ].

(** [trans(key, default=...)] comes from the [translations] module, which is
    not part of the sources at hand; it is a parameter of everything that
    formats a stored or raised text with it. *)
Abbreviation translator := (string -> string -> string).

Definition sample_rates (trans : translator) : list json :=
  [ JObj [("role", JStr "personal"); ("min_income", JInt 0);
          ("max_income", JInt 100000); ("rate", JFloat 1 (-1));
          ("description", JStr (trans "tax_rate_personal_description"
                                  "10% tax for income up to 100,000"))];
    JObj [("role", JStr "trader"); ("min_income", JInt 0);
          ("max_income", JInt 500000); ("rate", JFloat 15 (-2));
          ("description", JStr (trans "tax_rate_trader_description"
                                  "15% tax for turnover up to 500,000"))] ].

Definition sample_locations : list json :=
  [ JObj [("name", JStr "Gombe State IRS Office");
          ("address", JStr "123 Tax Street, Gombe");
          ("contact", JStr "+234 123 456 7890");
          ("coordinates", JObj [("lat", JFloat 102896 (-4));
                                ("lng", JFloat 111673 (-4))])] ].

(** ** The store behind the driver *)

(** The value of one entry of [index_information()]: its ['key'] item and
    the remaining metadata (['v'], ['unique'], ['sparse'], ...).  The driver
    uses the index name as the dictionary key of the entry. *)
Record index_info := {
  info_key : key_tuple;
  info_rest : options_dict
}.

Record db_state := {
  db_names : list string;                               (* list_collection_names() *)
  db_validators : gmap string json;
  db_indexes : gmap string (list (string * index_info)); (* index_information().items() *)
  db_docs : gmap string (list json);                    (* documents in natural order *)
  db_next_oid : nat
}.

Definition idx_of (db : db_state) (coll : string) : list (string * index_info) :=
  default [] (db_indexes db !! coll).

Definition docs_of (db : db_state) (coll : string) : list json :=
  default [] (db_docs db !! coll).

(** Exceptions that travel through the modelled code; all of them are
    subclasses of Python's [Exception]. *)
Inductive exn :=
| ConnectionFailure
| ServerSelectionTimeoutError
| OperationFailure
| CollectionInvalid
| DuplicateKeyError
| KeyError (k : string)
| AttributeError
| RuntimeError (msg : string)
| ValueError (msg : string).

Inductive result (A : Type) :=
| Ok (a : A)
| Raise (e : exn).
Arguments Ok {A} a.
Arguments Raise {A} e.

(** The index every collection is born with. *)
Definition id_index : string * index_info :=
  ("_id_", {| info_key := [("_id", VInt 1)]; info_rest := {[ "v" := VInt 2 ]} |}).

(** The index list of a collection at its birth: the default index, unless
    the store already holds index entries under that name. *)
Definition born_indexes (coll : string) (db : db_state) : list (string * index_info) :=
  default [id_index] (db_indexes db !! coll).

(** A collection comes into existence with its first write. *)
Definition touch (coll : string) (db : db_state) : db_state :=
  if bool_decide (coll ∈ db_names db) then db
  else {| db_names := db_names db ++ [coll];
          db_validators := db_validators db;
          db_indexes := <[coll := born_indexes coll db]> (db_indexes db);
          db_docs := db_docs db;
          db_next_oid := db_next_oid db |}.

Definition db_create_collection (name : string) (validator : json)
    (db : db_state) : result (unit * db_state) :=
  if bool_decide (name ∈ db_names db) then Raise CollectionInvalid
  else Ok (tt, {| db_names := db_names db ++ [name];
                  db_validators := <[name := validator]> (db_validators db);
                  db_indexes := <[name := born_indexes name db]> (db_indexes db);
                  db_docs := db_docs db;
                  db_next_oid := db_next_oid db |}).

(** The name the driver gives an index that is created without one. *)
Definition direction_text (d : pyval) : string :=
  match d with
  | VInt z => pretty z
  | VStr s => s
  end.

Fixpoint gen_index_name (keys : key_tuple) : string :=
  match keys with
  | [] => ""
  | [(f, d)] => f +:+ "_" +:+ direction_text d
  | (f, d) :: rest => f +:+ "_" +:+ direction_text d +:+ "_" +:+ gen_index_name rest
  end.

(** The store keeps the requested options and adds the index version. *)
Definition stored_rest (options : options_dict) : options_dict :=
  options ∪ {[ "v" := VInt 2 ]}.

Definition same_index (name : string) (keys : key_tuple) (options : options_dict)
    (entry : string * index_info) : bool :=
  bool_decide (entry.1 = name) && bool_decide (info_key entry.2 = keys)
  && bool_decide (delete "v" (info_rest entry.2) = delete "v" options).

Definition name_taken (name : string) (entry : string * index_info) : bool :=
  bool_decide (entry.1 = name).

(** [create_index]: creating an index that is already there, under the same
    name and with the same options, does nothing; a request under the name
    of a live index with another key or other options is rejected;
    otherwise the index is added after the live ones, also when a live
    index under another name has the same key tuple.  No live index is ever
    changed or removed.  A store that turns down a request accepted here
    is an environment that fails the call ([w_faults] below). *)
Definition db_create_index (coll : string) (keys : key_tuple)
    (options : options_dict) (db : db_state) : result (string * db_state) :=
  let db1 := touch coll db in
  let live := idx_of db1 coll in
  let name := gen_index_name keys in
  if existsb (same_index name keys options) live then Ok (name, db1)
  else if existsb (name_taken name) live then Raise OperationFailure
  else Ok (name,
           {| db_names := db_names db1;
              db_validators := db_validators db1;
              db_indexes := <[coll := live ++ [(name, {| info_key := keys;
                                                         info_rest := stored_rest options |})]]>
                              (db_indexes db1);
              db_docs := db_docs db1;
              db_next_oid := db_next_oid db1 |}).

Definition has_id (i : json) (d : json) : bool :=
  match jget "_id" d with
  | Some j => json_eqb i j
  | None => false
  end.

(** A document without ['_id'] gets a fresh ObjectId from the store. *)
Definition with_id (n : nat) (d : json) : json :=
  match d with
  | JObj fields =>
      match assoc_get "_id" fields with
      | Some _ => d
      | None => JObj (("_id", JOid n) :: fields)
      end
  | _ => d
  end.

(** The store admits no array as ['_id']. *)
Definition array_id (d : json) : bool :=
  match jget "_id" d with
  | Some (JList _) => true
  | _ => false
  end.

Definition id_taken (d : json) (stored : list json) : bool :=
  match jget "_id" d with
  | Some i => existsb (has_id i) stored
  | None => false
  end.

(** The keys under which an index on one field files a document: the value
    of the field, every item of an array value, [null] for a missing
    field. *)
Definition index_keys (field : string) (d : json) : list json :=
  match jget field d with
  | Some (JList items) => items
  | Some v => [v]
  | None => [JNull]
  end.

Definition shares_key (field : string) (d stored : json) : bool :=
  existsb (fun k => existsb (json_eqb k) (index_keys field stored))
          (index_keys field d).

(** The field of a unique index as [collection_schemas] declares them: an
    index on one field, ascending or descending, whose metadata is
    [unique] and nothing else (['key'], ['v'] and ['ns'] apart). *)
Definition unique_field (entry : string * index_info) : option string :=
  match info_key entry.2 with
  | [(field, VInt _)] =>
      if bool_decide (filter (fun kv => kv.1 ∉ ["key"; "v"; "ns"]) (info_rest entry.2)
                      = {[ "unique" := VTrue ]})
      then Some field else None
  | _ => None
  end.

(** A document has a duplicate key when, for some such index of the
    collection, it shares a key with a stored document. *)
Definition duplicate_key (live : list (string * index_info))
    (stored : list json) (d : json) : bool :=
  existsb (fun entry =>
             match unique_field entry with
             | Some field => existsb (shares_key field d) stored
             | None => false
             end) live.

(** [insert_one]: rejected when the ['_id'] is an array, when it is taken,
    and when a unique index on one field of the collection has a key of the
    document already; else the document is stored after the ones already
    there.  Rejections for other reasons (a validator of the collection, a
    unique index that is sparse, partial or on several fields) are not
    computed: a store that turns down a document accepted here is an
    environment that fails the call ([w_faults] below). *)
Definition db_insert_one (coll : string) (d : json) (db : db_state)
    : result (unit * db_state) :=
  let db1 := touch coll db in
  let d' := with_id (db_next_oid db1) d in
  if array_id d' then Raise OperationFailure
  else if id_taken d' (docs_of db1 coll)
          || duplicate_key (idx_of db1 coll) (docs_of db1 coll) d'
  then Raise DuplicateKeyError
  else Ok (tt, {| db_names := db_names db1;
                  db_validators := db_validators db1;
                  db_indexes := db_indexes db1;
                  db_docs := <[coll := docs_of db1 coll ++ [d']]> (db_docs db1);
                  db_next_oid := S (db_next_oid db1) |}).

(** [insert_many] as one operation: every document is stored, in order, or
    the call is rejected and none is. *)
Fixpoint db_insert_many (coll : string) (ds : list json) (db : db_state)
    : result (unit * db_state) :=
  match ds with
  | [] => Ok (tt, db)
  | d :: rest =>
      match db_insert_one coll d db with
      | Ok (_, db1) => db_insert_many coll rest db1
      | Raise e => Raise e
      end
  end.

(** [find({}, {'_id': 0})]. *)
Definition without_id (d : json) : json :=
  match d with
  | JObj fields => JObj (assoc_del "_id" fields)
  | _ => d
  end.

(** [find_one({field: value})] for a string value: the first document, in
    natural order, whose field is that string or an array with that string
    among its items.  An ['_id'] is never an array. *)
Definition field_is (field value : string) (d : json) : bool :=
  match jget field d with
  | Some (JStr s) => String.eqb s value
  | Some (JList items) =>
      negb (String.eqb field "_id") && existsb (json_eqb (JStr value)) items
  | _ => false
  end.

Definition db_find_one (coll field value : string) (db : db_state) : option json :=
  find (field_is field value) (docs_of db coll).

(** ** Calls, events and the world *)

(** The driver calls the program issues. *)
Inductive call :=
| AdminPing                                   (* mongo_client.admin.command('ping') *)
| DbPing                                      (* db.command('ping') in get_db *)
| ListCollectionNames
| CreateCollection (name : string) (validator : json)
| IndexInformation (coll : string)
| CreateIndex (coll : string) (keys : key_tuple) (options : options_dict)
| CountDocuments (coll : string)
| InsertOne (coll : string) (d : json)
| InsertMany (coll : string) (ds : list json)
| Find (coll : string)
| FindOne (coll field value : string).

Definition is_write (c : call) : bool :=
  match c with
  | CreateCollection _ _ | CreateIndex _ _ _ | InsertOne _ _ | InsertMany _ _ => true
  | _ => false
  end.

Inductive level := Info | Error.

(** One constructor per [logger] call site, with the values it formats. *)
Inductive logmsg :=
| LConnectionEstablished (attempt : nat)
| LConnectionAttemptFailed (attempt : nat) (e : exn)
| LGetDbConnected
| LGetDbError (e : exn)
| LDatabaseName
| LCollectionCreated (name : string)
| LIndexExists (coll : string) (keys : key_tuple) (options : options_dict)
| LIndexCreated (coll : string) (keys : key_tuple) (options : options_dict)
| LCoursesInitialized
| LTaxRatesInitialized
| LPaymentLocationsInitialized
| LInitializationFailed (e : exn)
| LUserCreated (user_id : string)
| LUserDuplicate (e : exn)
| LUserCreationError (e : exn)
| LUserFetchError (email : json) (e : exn)
| LToolUsageLogged (tool_name action : json)
| LToolUsageError (e : exn).

Inductive event :=
| EvCall (c : call) (failure : option exn)   (* a driver call, and what it raised *)
| EvSleep (seconds : Z)                      (* time.sleep *)
| EvLog (lvl : level) (m : logmsg).

(** The world the program runs in.  [w_faults k c] is the exception, if any,
    with which the environment makes the [k]-th driver call fail when that
    call is [c] (connection loss, denied permission, a rejection by the
    store that the functions above do not compute, ...); a failed call
    leaves the store as it was. *)
Record world := {
  w_db : db_state;
  w_trace : list event;                       (* oldest first *)
  w_calls : nat;                              (* driver calls issued so far *)
  w_faults : nat -> call -> option exn;
  w_now : Z;                                  (* datetime.utcnow() *)
  w_courses : option (list json)              (* app.config['COURSES'] *)
}.

Definition M (A : Type) : Type := world -> result A * world.

#[global] Instance M_ret : MRet M := fun A (a : A) w => (Ok a, w).
#[global] Instance M_bind : MBind M := fun A B (f : A -> M B) (m : M A) w =>
  match m w with
  | (Ok a, w1) => f a w1
  | (Raise e, w1) => (Raise e, w1)
  end.

Definition raise {A} (e : exn) : M A := fun w => (Raise e, w).

(** [try: m except Exception as e: handler e]. *)
Definition try_except {A} (m : M A) (handler : exn -> M A) : M A := fun w =>
  match m w with
  | (Ok a, w1) => (Ok a, w1)
  | (Raise e, w1) => handler e w1
  end.

(** The world after some events were recorded. *)
Definition push (evs : list event) (w : world) : world :=
  {| w_db := w_db w; w_trace := w_trace w ++ evs;
     w_calls := w_calls w; w_faults := w_faults w;
     w_now := w_now w; w_courses := w_courses w |}.

Definition emit (ev : event) : M unit := fun w => (Ok tt, push [ev] w).

Definition log (lvl : level) (m : logmsg) : M unit := emit (EvLog lvl m).
Definition sleep (seconds : Z) : M unit := emit (EvSleep seconds).
Definition utcnow : M Z := fun w => (Ok (w_now w), w).

Definition set_courses (l : list json) : M unit := fun w =>
  (Ok tt, {| w_db := w_db w; w_trace := w_trace w;
             w_calls := w_calls w; w_faults := w_faults w;
             w_now := w_now w; w_courses := Some l |}).

(** A driver call: the environment may make it fail; otherwise the store
    answers or rejects it.  Either way the call is recorded. *)
Definition driver {A} (c : call) (sem : db_state -> result (A * db_state))
  : M A := fun w =>
  let record (failure : option exn) (db : db_state) :=
    {| w_db := db; w_trace := w_trace w ++ [EvCall c failure];
       w_calls := S (w_calls w); w_faults := w_faults w;
       w_now := w_now w; w_courses := w_courses w |} in
  match w_faults w (w_calls w) c with
  | Some e => (Raise e, record (Some e) (w_db w))
  | None =>
      match sem (w_db w) with
      | Ok (a, db1) => (Ok a, record None db1)
      | Raise e => (Raise e, record (Some e) (w_db w))
      end
  end.

Definition reading {A} (f : db_state -> A) (db : db_state) : result (A * db_state) :=
  Ok (f db, db).

Definition admin_ping : M unit := driver AdminPing (reading (fun _ => tt)).
Definition db_ping : M unit := driver DbPing (reading (fun _ => tt)).
Definition list_collection_names : M (list string) :=
  driver ListCollectionNames (reading db_names).
Definition create_collection (name : string) (validator : json) : M unit :=
  driver (CreateCollection name validator) (db_create_collection name validator).
Definition index_information (coll : string) : M (list (string * index_info)) :=
  driver (IndexInformation coll) (reading (fun db => idx_of db coll)).
Definition create_index (coll : string) (keys : key_tuple) (options : options_dict)
  : M string :=
  driver (CreateIndex coll keys options) (db_create_index coll keys options).
Definition count_documents (coll : string) : M nat :=
  driver (CountDocuments coll) (reading (fun db => List.length (docs_of db coll))).
Definition insert_one (coll : string) (d : json) : M unit :=
  driver (InsertOne coll d) (db_insert_one coll d).
Definition insert_many (coll : string) (ds : list json) : M unit :=
  driver (InsertMany coll ds) (db_insert_many coll ds).
Definition find_all_without_id (coll : string) : M (list json) :=
  driver (Find coll) (reading (fun db => without_id <$> docs_of db coll)).
Definition find_one (coll field value : string) : M (option json) :=
  driver (FindOne coll field value) (reading (db_find_one coll field value)).

(** [for x in l: body x]. *)
Fixpoint for_each {A} (l : list A) (body : A -> M unit) : M unit :=
  match l with
  | [] => mret tt
  | x :: rest => body x ;; for_each rest body
  end.

(** ** [get_db] and [initialize_database] *)

(** [except (ConnectionFailure, ServerSelectionTimeoutError)]. *)
Definition is_connection_error (e : exn) : bool :=
  match e with
  | ConnectionFailure | ServerSelectionTimeoutError => true
  | _ => false
  end.

(** [try: m except (classes) as e: handler e]; other exceptions pass. *)
Definition try_except_on {A} (catches : exn -> bool) (m : M A)
    (handler : exn -> M A) : M A :=
  try_except m (fun e => if catches e then handler e else raise e).

Definition max_retries : nat := 3.
Definition retry_delay : Z := 1.

(** The retry loop at the head of [initialize_database]; [attempts] is what
    is left of [range(max_retries)].  The body yields [true] when it leaves
    the loop through [break]. *)
Fixpoint retry_loop (trans : translator) (attempts : list nat) : M unit :=
  match attempts with
  | [] => mret tt
  | attempt :: rest =>
      connected ← try_except_on is_connection_error
        (admin_ping ;;
         log Info (LConnectionEstablished (attempt + 1)) ;;
         mret true)
        (fun e =>
           log Error (LConnectionAttemptFailed (attempt + 1) e) ;;
           (if Nat.eqb attempt (max_retries - 1)
            then raise (RuntimeError (trans "general_database_connection_failed"
                                        "MongoDB connection failed after max retries"))
            else mret tt) ;;
           sleep retry_delay ;;
           mret false) ;
      if connected : bool then mret tt else retry_loop trans rest
  end.

(** [get_db]: the URI is read and split without touching the store; what
    the store sees is the ping.  The handle it returns is the store of the
    world. *)
Definition get_db : M unit :=
  try_except
    (db_ping ;; log Info LGetDbConnected)
    (fun e => log Error (LGetDbError e) ;; raise e).

(** [{k: v for k, v in index.items() if k != 'key'}]. *)
Definition options_of (index : index_decl) : options_dict :=
  filter (fun kv => kv.1 ≠ "key") (ix_rest index).

(** [{k: v for k, v in existing_index_info.items() if k not in ['key', 'v', 'ns']}]. *)
Definition existing_options_of (info : index_info) : options_dict :=
  filter (fun kv => kv.1 ∉ ["key"; "v"; "ns"]) (info_rest info).

(** The test [tuple(existing_index_info['key']) == index_key_tuple] on one
    item of [existing_indexes.items()]; the name of the item plays no part. *)
Definition key_matches (index_key_tuple : key_tuple)
    (item : string * index_info) : bool :=
  bool_decide (info_key item.2 = index_key_tuple).

(** The item at which the inner loop over [existing_indexes.items()] stops:
    the first one, in enumeration order, that passes the test. *)
Fixpoint matched_index (existing : list (string * index_info))
    (index_key_tuple : key_tuple) : option (string * index_info) :=
  match existing with
  | [] => None
  | item :: rest =>
      if key_matches index_key_tuple item then Some item
      else matched_index rest index_key_tuple
  end.

(** The flag [index_exists] as that loop leaves it. *)
Fixpoint index_exists (existing : list (string * index_info))
    (index_key_tuple : key_tuple) (options : options_dict) : bool :=
  match existing with
  | [] => false
  | item :: rest =>
      if key_matches index_key_tuple item
      then bool_decide (existing_options_of item.2 = options)
      else index_exists rest index_key_tuple options
  end.

(** The loop itself, with its log record; it yields the flag. *)
Fixpoint search_existing (collection_name : string)
    (existing : list (string * index_info))
    (keys : key_tuple) (options : options_dict) : M bool :=
  match existing with
  | [] => mret false
  | item :: rest =>
      if key_matches keys item
      then
        if bool_decide (existing_options_of item.2 = options)
        then log Info (LIndexExists collection_name keys options) ;; mret true
        else mret false
      else search_existing collection_name rest keys options
  end.

(** Body of [for index in config.get('indexes', [])]. *)
Definition reconcile_index (collection_name : string)
    (existing_indexes : list (string * index_info)) (index : index_decl) : M unit :=
  let keys := ix_key index in
  let options := options_of index in
  found ← search_existing collection_name existing_indexes keys options ;
  if negb found
  then create_index collection_name keys options ;;
       log Info (LIndexCreated collection_name keys options)
  else mret tt.

(** Body of [for collection_name, config in collection_schemas.items()]. *)
Definition reconcile_collection (collections : list string)
    (entry : string * collection_config) : M unit :=
  let collection_name := entry.1 in
  let config := entry.2 in
  (if bool_decide (collection_name ∉ collections)
   then create_collection collection_name (default (JObj []) (cfg_validator config)) ;;
        log Info (LCollectionCreated collection_name)
   else mret tt) ;;
  existing_indexes ← index_information collection_name ;
  for_each (default [] (cfg_indexes config))
    (reconcile_index collection_name existing_indexes).

Definition seed_courses : M unit :=
  n ← count_documents "courses" ;
  (if Nat.eqb n 0
   then for_each SAMPLE_COURSES (insert_one "courses") ;;
        log Info LCoursesInitialized
   else mret tt) ;;
  courses ← find_all_without_id "courses" ;
  set_courses courses.

Definition seed_tax_rates (trans : translator) : M unit :=
  n ← count_documents "tax_rates" ;
  if Nat.eqb n 0
  then insert_many "tax_rates" (sample_rates trans) ;;
       log Info LTaxRatesInitialized
  else mret tt.

Definition seed_payment_locations : M unit :=
  n ← count_documents "payment_locations" ;
  if Nat.eqb n 0
  then insert_many "payment_locations" sample_locations ;;
       log Info LPaymentLocationsInitialized
  else mret tt.

(** The [try] block of [initialize_database]. *)
Definition reconcile_and_seed (trans : translator) : M unit :=
  get_db ;;
  log Info LDatabaseName ;;
  collections ← list_collection_names ;
  for_each collection_schemas (reconcile_collection collections) ;;
  seed_courses ;;
  seed_tax_rates trans ;;
  seed_payment_locations.

(** [initialize_database(app)]: the retry loop, outside any handler, then
    the [try] block with its [except Exception] that logs and re-raises. *)
Definition initialize_database (trans : translator) : M unit :=
  retry_loop trans (seq 0 max_retries) ;;
  try_except (reconcile_and_seed trans)
    (fun e => log Error (LInitializationFailed e) ;; raise e).

(** ** Users and usage records *)

Record User := {
  id : json;
  email : json;
  username : json;
  role : json;
  display_name : json;
  is_admin : json;
  setup_complete : json;
  coin_balance : json;
  language : json;
  dark_mode : json
}.

(** [d[k]]. *)
Definition subscript (d : json) (k : string) : M json :=
  match jget k d with
  | Some v => mret v
  | None => raise (KeyError k)
  end.

(** [s.lower()] and [s.split('@')[0]] exist on strings only. *)
Definition str_lower (lower : string -> string) (v : json) : M json :=
  match v with
  | JStr s => mret (JStr (lower s))
  | _ => raise AttributeError
  end.

Definition str_before_at (v : json) : M json :=
  match v with
  | JStr s => mret (JStr (before_at s))
  | _ => raise AttributeError
  end.

(** [d.get(k, default)]. *)
Definition get_or (d : json) (k : string) (dflt : json) : json :=
  default dflt (jget k d).

(** [User.__init__]. *)
Definition User_init (id email display_name role username is_admin
    setup_complete coin_balance language dark_mode : json) : M User :=
  username' ← (if truthy username then mret username
               else if truthy display_name then mret display_name
               else str_before_at email) ;
  mret {| id := id; email := email; username := username'; role := role;
          display_name := py_or display_name username';
          is_admin := is_admin; setup_complete := setup_complete;
          coin_balance := coin_balance; language := language;
          dark_mode := dark_mode |}.

Definition create_user (lower : string -> string) (trans : translator)
    (generate_password_hash : string -> string) (user_data : json) : M User :=
  try_except
    (email0 ← subscript user_data "email" ;
     prefix ← str_before_at email0 ;
     user_id ← str_lower lower (get_or user_data "username" prefix) ;
     user_data ← match jget "password" user_data, user_data with
                 | Some (JStr password), JObj fields =>
                     mret (JObj (assoc_set "password_hash"
                                   (JStr (generate_password_hash password)) fields))
                 | Some _, _ => raise AttributeError
                 | None, _ => mret user_data
                 end ;
     email1 ← subscript user_data "email" ;
     email_lower ← str_lower lower email1 ;
     password ← subscript user_data "password_hash" ;
     now ← utcnow ;
     let user_doc :=
       JObj [("_id", user_id);
             ("email", email_lower);
             ("password", password);
             ("role", get_or user_data "role" (JStr "personal"));
             ("display_name", get_or user_data "display_name" user_id);
             ("is_admin", get_or user_data "is_admin" (JBool false));
             ("setup_complete", get_or user_data "setup_complete" (JBool false));
             ("coin_balance", get_or user_data "coin_balance" (JInt 10));
             ("language", get_or user_data "lang" (JStr "en"));
             ("dark_mode", get_or user_data "dark_mode" (JBool false));
             ("created_at", get_or user_data "created_at" (JDate now));
             ("business_details", get_or user_data "business_details" JNull);
             ("personal_details", get_or user_data "personal_details" JNull);
             ("agent_details", get_or user_data "agent_details" JNull)] in
     insert_one "users" user_doc ;;
     log Info (LUserCreated match user_id with JStr s => s | _ => "" end) ;;
     User_init user_id email_lower
       (get_or user_doc "display_name" JNull) (get_or user_doc "role" JNull)
       user_id
       (get_or user_doc "is_admin" JNull) (get_or user_doc "setup_complete" JNull)
       (get_or user_doc "coin_balance" JNull) (get_or user_doc "language" JNull)
       (get_or user_doc "dark_mode" JNull))
    (fun e =>
       match e with
       | DuplicateKeyError =>
           log Error (LUserDuplicate e) ;;
           raise (ValueError (trans "general_user_exists"
                                "User with this email or username already exists"))
       | _ => log Error (LUserCreationError e) ;; raise e
       end).

Definition get_user_by_email (lower : string -> string) (email : json)
    : M (option User) :=
  try_except
    (email_lower ← str_lower lower email ;
     user_doc ← find_one "users" "email"
                  match email_lower with JStr s => s | _ => "" end ;
     match user_doc with
     | Some user_doc =>
         if truthy user_doc then
           id ← subscript user_doc "_id" ;
           email ← subscript user_doc "email" ;
           u ← User_init id email
                 (get_or user_doc "display_name" JNull)
                 (get_or user_doc "role" (JStr "personal"))
                 id
                 (get_or user_doc "is_admin" (JBool false))
                 (get_or user_doc "setup_complete" (JBool false))
                 (get_or user_doc "coin_balance" (JInt 0))
                 (get_or user_doc "language" (JStr "en"))
                 (get_or user_doc "dark_mode" (JBool false)) ;
           mret (Some u)
         else mret None
     | None => mret None
     end)
    (fun e => log Error (LUserFetchError email e) ;; raise e).

Definition log_tool_usage (tool_name user_id session_id action : json) : M unit :=
  try_except
    (now ← utcnow ;
     insert_one "tool_usage"
       (JObj [("tool_name", tool_name); ("user_id", user_id);
              ("session_id", session_id); ("action", action);
              ("timestamp", JDate now)]) ;;
     log Info (LToolUsageLogged tool_name action))
    (fun e => log Error (LToolUsageError e)).

(** ** Observations on runs *)

Definition empty_db : db_state :=
  {| db_names := []; db_validators := ∅; db_indexes := ∅; db_docs := ∅;
     db_next_oid := 0 |}.

Definition no_faults : nat -> call -> option exn := fun _ _ => None.

(** A world at process start. *)
Definition boot (db : db_state) (faults : nat -> call -> option exn) : world :=
  {| w_db := db; w_trace := []; w_calls := 0; w_faults := faults;
     w_now := 0; w_courses := None |}.

(** The driver calls of a trace, in order, with their outcome. *)
Definition calls_of (t : list event) : list (call * option exn) :=
  omap (fun ev => match ev with EvCall c o => Some (c, o) | _ => None end) t.

(** The writes among them. *)
Definition writes_of (t : list event) : list (call * option exn) :=
  filter (fun co => is_write co.1 = true) (calls_of t).

(** The writes a run on an empty database is expected to issue, from the
    declarations. *)
Definition declared_writes (entry : string * collection_config) : list call :=
  CreateCollection entry.1 (default (JObj []) (cfg_validator entry.2))
  :: ((fun index => CreateIndex entry.1 (ix_key index) (options_of index))
        <$> default [] (cfg_indexes entry.2)).

Definition is_create_index (c : call) : bool :=
  match c with CreateIndex _ _ _ => true | _ => false end.

Definition is_insert (c : call) : bool :=
  match c with InsertOne _ _ | InsertMany _ _ => true | _ => false end.

Definition declared_names : list string := collection_schemas.*1.

Definition declared_indexes (entry : string * collection_config) : list index_decl :=
  default [] (cfg_indexes entry.2).

(** * Specification vocabulary *)

(** ** Worlds used in examples *)

(** [trans] when no translation is installed: the default text. *)
Definition default_text : translator := fun _ dflt => dflt.

Definition live_index (name : string) (keys : key_tuple) (rest : options_dict)
  : string * index_info :=
  (name, {| info_key := keys; info_rest := rest |}).

(** A [users] collection whose index on [reset_token] is not sparse. *)
Definition divergent_db : db_state :=
  {| db_names := ["users"];
     db_validators := ∅;
     db_indexes :=
       {[ "users" :=
            [ id_index;
              live_index "reset_token_1" [("reset_token", ASCENDING)]
                (<[ "sparse" := VFalse ]> {[ "v" := VInt 2 ]}) ] ]};
     db_docs := ∅;
     db_next_oid := 0 |}.

(** A [users] collection with two indexes on [email]: a sparse one, listed
    first, and the declared one. *)
Definition twin_db : db_state :=
  {| db_names := ["users"];
     db_validators := ∅;
     db_indexes :=
       {[ "users" :=
            [ id_index;
              live_index "email_sparse" [("email", ASCENDING)]
                (<[ "sparse" := VTrue ]> (<[ "unique" := VTrue ]> {[ "v" := VInt 2 ]}));
              live_index "email_1" [("email", ASCENDING)]
                (<[ "unique" := VTrue ]> {[ "v" := VInt 2 ]}) ] ]};
     db_docs := ∅;
     db_next_oid := 0 |}.

(** A [users] collection with its unique index on [email] in place. *)
Definition matching_db : db_state :=
  {| db_names := ["users"];
     db_validators := ∅;
     db_indexes :=
       {[ "users" :=
            [ id_index;
              live_index "email_1" [("email", ASCENDING)]
                (<[ "unique" := VTrue ]> {[ "v" := VInt 2 ]}) ] ]};
     db_docs := ∅;
     db_next_oid := 0 |}.

(** A [users] collection whose index on [reset_token] is not sparse and
    bears a name of its own. *)
Definition renamed_divergent_db : db_state :=
  {| db_names := ["users"];
     db_validators := ∅;
     db_indexes :=
       {[ "users" :=
            [ id_index;
              live_index "token_idx" [("reset_token", ASCENDING)]
                {[ "v" := VInt 2 ]} ] ]};
     db_docs := ∅;
     db_next_oid := 0 |}.

Definition email_index : index_decl :=
  {| ix_key := [("email", ASCENDING)]; ix_rest := {[ "unique" := VTrue ]} |}.

Definition reset_token_index : index_decl :=
  {| ix_key := [("reset_token", ASCENDING)]; ix_rest := {[ "sparse" := VTrue ]} |}.

(** The environment fails every liveness probe. *)
Definition always_down : nat -> call -> option exn :=
  fun _ c => match c with
             | AdminPing => Some ServerSelectionTimeoutError
             | _ => None
             end.

(** The environment fails the insertion of the second sample course. *)
Definition second_course_fails : nat -> call -> option exn :=
  fun _ c => match c with
             | InsertOne coll d =>
                 if (String.eqb coll "courses" && field_is "id" "financial_quiz" d)%bool
                 then Some OperationFailure else None
             | _ => None
             end.

(** The environment fails the bulk insertion of the tax rates. *)
Definition tax_rates_fail : nat -> call -> option exn :=
  fun _ c => match c with
             | InsertMany coll _ =>
                 if String.eqb coll "tax_rates" then Some OperationFailure else None
             | _ => None
             end.

(** The environment fails the creation of the [records] collection. *)
Definition records_denied : nat -> call -> option exn :=
  fun _ c => match c with
             | CreateCollection name _ =>
                 if String.eqb name "records" then Some OperationFailure else None
             | _ => None
             end.

(** A store without index on [users.email] that already holds a user with
    the address [ada@example.com]. *)
Definition crowded_db : db_state :=
  {| db_names := ["users"];
     db_validators := ∅;
     db_indexes := {[ "users" := [id_index] ]};
     db_docs :=
       {[ "users" :=
            [ JObj [("_id", JStr "grace"); ("email", JStr "ada@example.com");
                    ("password", JStr "x"); ("role", JStr "personal")] ] ]};
     db_next_oid := 0 |}.

(** A store whose [users] collection has its unique index on [email] and
    holds one user. *)
Definition registered_db : db_state :=
  {| db_names := ["users"];
     db_validators := ∅;
     db_indexes :=
       {[ "users" :=
            [ id_index;
              live_index "email_1" [("email", ASCENDING)]
                (<[ "unique" := VTrue ]> {[ "v" := VInt 2 ]}) ] ]};
     db_docs :=
       {[ "users" :=
            [ JObj [("_id", JStr "grace"); ("email", JStr "grace@example.com");
                    ("password", JStr "x"); ("role", JStr "personal")] ] ]};
     db_next_oid := 0 |}.

Definition ada : json :=
  JObj [("email", JStr "Ada@Example.com"); ("password_hash", JStr "h")].

(** A user whose address has a letter that [str.upper] turns into two: the
    upper-cased address is [STRASSE@EXAMPLE.COM], and [str.lower] does not
    lead back from there.  On both addresses [str.lower] is [ascii_lower]. *)
Definition sharp_s : json :=
  JObj [("email", JStr "straße@example.com"); ("password_hash", JStr "h")].

(** A liveness probe that always fails with a connection error. *)
Definition transient_probe (w : world) : Prop :=
  forall k, exists e, w_faults w k AdminPing = Some e /\ is_connection_error e = true.

Definition ada_user : User :=
  {| id := JStr "ada"; email := JStr "ada@example.com"; username := JStr "ada";
     role := JStr "personal"; display_name := JStr "ada";
     is_admin := JBool false; setup_complete := JBool false;
     coin_balance := JInt 10; language := JStr "en"; dark_mode := JBool false |}.

(** ** What a computation adds to the trace *)

(** [traces m P]: from every world, [m] extends the trace by some events [d],
    and [P] relates the result to [d]. *)
Definition traces {A} (m : M A) (P : result A -> list event -> Prop) : Prop :=
  forall w, exists d, w_trace (m w).2 = w_trace w ++ d /\ P (m w).1 d.

(** [only Q]: every event added satisfies [Q], whatever the result. *)
Definition only {A} (Q : event -> Prop) : result A -> list event -> Prop :=
  fun _ d => Forall Q d.

Definition failed_write (ev : event) : Prop :=
  match ev with
  | EvCall c (Some _) => is_write c = true
  | _ => False
  end.

Definition no_failed_write (d : list event) : Prop :=
  Forall (fun ev => ~ failed_write ev) d.

(** Either no write has failed, or the computation raised what the one
    failed write raised and did nothing after it. *)
Definition abort_shape {A} (r : result A) (d : list event) : Prop :=
  no_failed_write d
  \/ exists d0 c e, r = Raise e /\ is_write c = true
                   /\ d = d0 ++ [EvCall c (Some e)] /\ no_failed_write d0.

Definition keeps_db {A} (m : M A) : Prop := forall w, w_db (m w).2 = w_db w.

(** [sat m R]: from every world, [m] extends the trace by some events [d],
    and [R] relates the store before, the result, [d] and the store after. *)
Definition sat {A} (m : M A)
    (R : db_state -> result A -> list event -> db_state -> Prop) : Prop :=
  forall w, exists d,
    w_trace (m w).2 = w_trace w ++ d /\ R (w_db w) (m w).1 d (w_db (m w).2).

(** ** Stores *)

(** Options that do not use the names the comparison discards. *)
Definition clean_options (options : options_dict) : Prop :=
  options !! "key" = None /\ options !! "v" = None /\ options !! "ns" = None.

(** The store only grows: names are added, index entries and documents are
    appended, and nothing that was there is changed. *)
Definition db_le (db db' : db_state) : Prop :=
  db_names db ⊆ db_names db'
  /\ (forall coll, idx_of db coll `prefix_of` idx_of db' coll)
  /\ (forall coll, docs_of db coll `prefix_of` docs_of db' coll).

(** ... and the counter of object ids never goes back. *)
Definition grows (db db' : db_state) : Prop :=
  db_le db db' /\ (db_next_oid db <= db_next_oid db')%nat.

(** A declared index is aligned with a list of live indexes when the first
    live index with its key tuple, if there is one, has the declared
    options: the search finds the index, or no live index has its key. *)
Definition aligned (existing : list (string * index_info)) (index : index_decl)
  : bool :=
  match matched_index existing (ix_key index) with
  | Some item => bool_decide (existing_options_of item.2 = options_of index)
  | None => true
  end.

(** No declared index is divergent in the store: none has, as the first live
    index with its key tuple, one with other options. *)
Definition no_divergent_index (db : db_state) : Prop :=
  Forall (fun entry =>
            Forall (fun index => aligned (idx_of db entry.1) index = true)
                   (declared_indexes entry))
         collection_schemas.

(** A declared collection is reconciled in a store: it exists, and the
    search finds every declared index with the declared options. *)
Definition reconciled (db : db_state) (entry : string * collection_config) : Prop :=
  entry.1 ∈ db_names db
  /\ Forall (fun index =>
              index_exists (idx_of db entry.1) (ix_key index) (options_of index) = true)
           (declared_indexes entry).

(** The state a successful run leaves: every declared collection is
    reconciled and the three reference collections hold documents. *)
Definition settled (db : db_state) : Prop :=
  Forall (reconciled db) collection_schemas
  /\ docs_of db "courses" <> []
  /\ docs_of db "tax_rates" <> []
  /\ docs_of db "payment_locations" <> [].

(** What the reconciliation needs of one entry of [collection_schemas]: its
    index options use none of the names the comparison discards, no two of
    its indexes have the same key tuple, and none is on ['_id'] alone. *)
Definition well_declared (entry : string * collection_config) : Prop :=
  Forall (fun index => clean_options (options_of index)) (declared_indexes entry)
  /\ NoDup (ix_key <$> declared_indexes entry)
  /\ Forall (fun index => ix_key index <> info_key id_index.2) (declared_indexes entry).

Definition no_write_call (ev : event) : Prop :=
  match ev with
  | EvCall c _ => is_write c = false
  | _ => True
  end.

(** [post m R]: from every world, [R] relates the store before, the result
    and the store after. *)
Definition post {A} (m : M A) (R : db_state -> result A -> db_state -> Prop) : Prop :=
  forall w, R (w_db w) (m w).1 (w_db (m w).2).

(** The usual case: both parts grow the store, the first establishes [P1]
    when it returns, and the second [P2] from there. *)
Definition grows_and {A} (P : db_state -> A -> db_state -> Prop)
  : db_state -> result A -> db_state -> Prop :=
  fun db r db' => grows db db' /\ forall a, r = Ok a -> P db a db'.

Definition seeded (coll : string) : db_state -> unit -> db_state -> Prop :=
  fun _ _ db' => docs_of db' coll <> [].

(** [quiet P V]: from a store with [P], the computation leaves the store as
    it is, issues no write, and what it returns satisfies [V]. *)
Definition quiet {A} (P : db_state -> Prop) (V : db_state -> A -> Prop)
  : db_state -> result A -> list event -> db_state -> Prop :=
  fun db r d db' =>
    P db -> db' = db /\ Forall no_write_call d /\ forall a, r = Ok a -> V db a.

Definition anything {A} : db_state -> A -> Prop := fun _ _ => True.

(** The collection has a unique index on the field, of the kind the store
    enforces on [insert_one]. *)
Definition unique_on (db : db_state) (coll field : string) : bool :=
  existsb (fun entry => bool_decide (unique_field entry = Some field))
          (idx_of db coll).

(** ** The shape of a reconciliation trace *)

(** Reconciliation events of one collection, after its index list was read:
    [create_index] calls on that collection and log records. *)
Definition index_event (c : string) (ev : event) : Prop :=
  match ev with
  | EvCall (CreateIndex c' _ _) _ => c' = c
  | EvLog _ _ => True
  | _ => False
  end.

(** What the reconciliation of one declared collection adds to the trace,
    given the collection names that were read at the start. *)
Inductive collection_block (collections : list string) (c : string)
  : list event -> Prop :=
| block_present o rest :
    c ∈ collections -> Forall (index_event c) rest ->
    collection_block collections c (EvCall (IndexInformation c) o :: rest)
| block_create_failed v e :
    c ∉ collections ->
    collection_block collections c [EvCall (CreateCollection c v) (Some e)]
| block_created v o rest :
    c ∉ collections -> Forall (index_event c) rest ->
    collection_block collections c
      (EvCall (CreateCollection c v) None :: EvLog Info (LCollectionCreated c)
       :: EvCall (IndexInformation c) o :: rest).

(** Calls that belong to the reconciliation of the declared collections. *)
Definition schema_call (ev : event) : bool :=
  match ev with
  | EvCall (CreateCollection _ _) _ | EvCall (IndexInformation _) _
  | EvCall (CreateIndex _ _ _) _ => true
  | _ => false
  end.

Definition no_schema_call (ev : event) : Prop := schema_call ev = false.

(** The blocks of the collections that were reached, in declaration order. *)
Definition blocks_in_order (collections names : list string) {A}
    (r : result A) (d : list event) : Prop :=
  exists blocks,
    d = concat blocks
    /\ Forall2 (collection_block collections) (take (length blocks) names) blocks
    /\ (forall a, r = Ok a -> length blocks = length names).

(** The trace of a run around its blocks. *)
Definition ordered_blocks (collections : list string) {A}
    (r : result A) (d : list event) : Prop :=
  exists before blocks after,
    d = before ++ concat blocks ++ after
    /\ Forall no_schema_call before
    /\ Forall no_schema_call after
    /\ Forall2 (collection_block collections)
         (take (length blocks) declared_names) blocks
    /\ (forall a, r = Ok a -> length blocks = length declared_names).

Definition creates_collection (c : string) (ev : event) : Prop :=
  exists v o, ev = EvCall (CreateCollection c v) o.

Definition creates_index (c : string) (ev : event) : Prop :=
  exists keys options o, ev = EvCall (CreateIndex c keys options) o.

(** No [create_collection] on [c] comes after a [create_index] on [c]. *)
Definition create_precedes_index (c : string) (d : list event) : Prop :=
  forall l1 x l2, d = l1 ++ x :: l2 -> creates_index c x ->
                  Forall (fun ev => ~ creates_collection c ev) l2.

(** * Users by id *)

(** [get_user(db, user_id)], for the string that [User.get_id] hands out.
    Its error record uses the message key of [get_user_by_email], with the
    id in the place of the address. *)
Definition get_user (user_id : string) : M (option User) :=
  try_except
    (user_doc ← find_one "users" "_id" user_id ;
     match user_doc with
     | Some user_doc =>
         if truthy user_doc then
           id ← subscript user_doc "_id" ;
           email ← subscript user_doc "email" ;
           u ← User_init id email
                 (get_or user_doc "display_name" JNull)
                 (get_or user_doc "role" (JStr "personal"))
                 id
                 (get_or user_doc "is_admin" (JBool false))
                 (get_or user_doc "setup_complete" (JBool false))
                 (get_or user_doc "coin_balance" (JInt 0))
                 (get_or user_doc "language" (JStr "en"))
                 (get_or user_doc "dark_mode" (JBool false)) ;
           mret (Some u)
         else mret None
     | None => mret None
     end)
    (fun e => log Error (LUserFetchError (JStr user_id) e) ;; raise e).

(** * Further vocabulary *)

(** ** The liveness probe *)

(** The outcomes of the liveness probes of a trace, and its sleeps. *)
Definition ping_outcomes (d : list event) : list (option exn) :=
  omap (fun ev => match ev with EvCall AdminPing o => Some o | _ => None end) d.

Definition sleeps_of (d : list event) : list Z :=
  omap (fun ev => match ev with EvSleep s => Some s | _ => None end) d.

Definition probe_event (ev : event) : Prop :=
  match ev with
  | EvCall AdminPing _ | EvSleep _ => True
  | _ => False
  end.

(** The world after a driver call that left the store as it was. *)
Definition after_call (c : call) (o : option exn) (w : world) : world :=
  {| w_db := w_db w; w_trace := w_trace w ++ [EvCall c o];
     w_calls := S (w_calls w); w_faults := w_faults w;
     w_now := w_now w; w_courses := w_courses w |}.

(** The environment rejects every liveness probe. *)
Definition probe_denied : nat -> call -> option exn :=
  fun _ c => match c with
             | AdminPing => Some OperationFailure
             | _ => None
             end.

(** ** Documents and indexes *)

(** An insertion, attempted or done, into a collection. *)
Definition inserts_into (coll : string) (ev : event) : Prop :=
  match ev with
  | EvCall (InsertOne c _) _ | EvCall (InsertMany c _) _ => c = coll
  | _ => False
  end.

(** A live index with the key tuple and the options of a declared one,
    wherever it stands among the live indexes. *)
Definition index_present (db : db_state) (coll : string) (index : index_decl)
  : Prop :=
  exists item, item ∈ idx_of db coll
               /\ info_key item.2 = ix_key index
               /\ existing_options_of item.2 = options_of index.

(** A declared collection has converged: it exists, and every declared
    index is live with its declared options. *)
Definition index_converged (db : db_state) (entry : string * collection_config)
  : Prop :=
  entry.1 ∈ db_names db
  /\ Forall (index_present db entry.1) (declared_indexes entry).

(** From a non-empty collection on: its documents stay as they are and no
    insertion into it is attempted. *)
Definition guarded (coll : string) {A}
  : db_state -> result A -> list event -> db_state -> Prop :=
  fun db _ d db' =>
    docs_of db coll <> [] ->
    docs_of db' coll = docs_of db coll
    /\ Forall (fun ev => ~ inserts_into coll ev) d.

(** A document that comes without ['_id']. *)
Definition no_id (d : json) : Prop := jget "_id" d = None.

(** What a seeding step does to the documents: other collections are left
    alone, a non-empty collection too, and an empty one holds the seed
    documents once the step has returned. *)
Definition seeds_with (coll : string) (seed : list json)
  : db_state -> result unit -> db_state -> Prop :=
  fun db r db' =>
    (forall c, c <> coll -> docs_of db' c = docs_of db c)
    /\ (docs_of db coll <> [] -> docs_of db' coll = docs_of db coll)
    /\ (docs_of db coll = [] -> r = Ok tt ->
        without_id <$> docs_of db' coll = seed).

(** The documents of every collection are as before. *)
Definition keeps_docs {A} : db_state -> result A -> db_state -> Prop :=
  fun db _ db' => forall c, docs_of db' c = docs_of db c.

(** A store whose tax rates were entered by hand. *)
Definition custom_rates_db : db_state :=
  {| db_names := ["tax_rates"];
     db_validators := ∅;
     db_indexes := {[ "tax_rates" := [id_index] ]};
     db_docs :=
       {[ "tax_rates" :=
            [ JObj [("_id", JOid 0); ("role", JStr "agent"); ("min_income", JInt 0);
                    ("max_income", JInt 1000); ("rate", JFloat 5 (-2));
                    ("description", JStr "flat")] ] ]};
     db_next_oid := 1 |}.

(** A computation that leaves [app.config['COURSES']] as it is. *)
Definition keeps_config {A} (m : M A) : Prop :=
  forall w, w_courses (m w).2 = w_courses w.

(** ** Users *)

(** The ['_id'] values of the stored users, in order. *)
Definition user_ids (db : db_state) : list json :=
  omap (jget "_id") (docs_of db "users").

(** The user name [create_user] reads from the data: ['username'], or the
    part of the address before the at-sign. *)
Definition name_in (user_data : json) : option string :=
  match jget "email" user_data with
  | Some (JStr e) =>
      match get_or user_data "username" (JStr (before_at e)) with
      | JStr n => Some n
      | _ => None
      end
  | _ => None
  end.

(** Data for a second user with the address of [ada], in another casing
    and under another user name. *)
Definition other_ada : json :=
  JObj [("email", JStr "ADA@example.com"); ("username", JStr "Countess");
        ("password_hash", JStr "h2")].

(** The data carries what [create_user] stores as the password: a
    ['password'] string, to be hashed, or else a ['password_hash']. *)
Definition password_given (user_data : json) : Prop :=
  (exists p, jget "password" user_data = Some (JStr p))
  \/ (jget "password" user_data = None
      /\ exists h, jget "password_hash" user_data = Some h).

(** Registration data for a user name that differs from a stored id only
    in case, and data without any password. *)
Definition shouting_grace : json :=
  JObj [("email", JStr "Grace@Example.com"); ("username", JStr "GRACE");
        ("password", JStr "secret")].

Definition no_password : json := JObj [("email", JStr "bob@example.com")].

(** ** Failures *)

(** A failure that a run can get over: a liveness probe lost to a
    connection error. *)
Definition retried_probe (ev : event) : Prop :=
  match ev with
  | EvCall c (Some e) => c = AdminPing /\ is_connection_error e = true
  | _ => True
  end.

(** When the computation has returned, every failure in what it added to
    the trace is such a probe. *)
Definition swallows_nothing {A} (r : result A) (d : list event) : Prop :=
  (exists a, r = Ok a) -> Forall retried_probe d.

(** ** Writes *)

(** The writes [initialize_database] may issue: the creation of a declared
    collection or index, as declared, and the insertion of seed
    documents. *)
Definition expected_write (trans : translator) (c : call) : Prop :=
  (exists entry, entry ∈ collection_schemas /\ c ∈ declared_writes entry)
  \/ (exists course, course ∈ SAMPLE_COURSES /\ c = InsertOne "courses" course)
  \/ c = InsertMany "tax_rates" (sample_rates trans)
  \/ c = InsertMany "payment_locations" sample_locations.

Definition expected_event (trans : translator) (ev : event) : Prop :=
  match ev with
  | EvCall c _ => is_write c = true -> expected_write trans c
  | _ => True
  end.

(** * Records, reference data and the unsubscribe route *)

(** ** A wider world *)

(** The functions that create and read records, and the route that calls
    [log_tool_usage], log at sites of their own, query with a sort, update
    in place, flash messages and can fail on a call that does not fit the
    signature of the callee.  They run in a world that wraps the one above:
    a computation of the reconciliation code is lifted into it unchanged,
    and its events take their place in one common trace. *)
Inductive xexn :=
| Lower (e : exn)                  (* an exception of the code above *)
| TypeError.                       (* a call that does not fit the signature *)

Inductive xresult (A : Type) :=
| XOk (a : A)
| XRaise (e : xexn).
Arguments XOk {A} a.
Arguments XRaise {A} e.

Inductive xcall :=
| FindSorted (coll : string) (filter : json) (sort : option (string * pyval))
                                   (* list(find(filter).sort(key, direction)) *)
| UpdateMany (coll : string) (filter set : list (string * json)).
                                   (* update_many(filter, {'$set': set}) *)

(** The records of the [logger] calls of these functions, by the message
    key and the default text they pass to [trans] and the value they
    format after it; and the record of [current_app.logger.error] in
    [unsubscribe]. *)
Inductive xlog :=
| LRecordCreated (key dflt : string) (value : json)
| LFailure (key dflt : string) (e : xexn)
| LUnsubscribeFailed (e : xexn).

Inductive xevent :=
| XBase (ev : event)
| XCall (c : xcall) (failure : option exn)
| XLog (lvl : level) (m : xlog)
| XFlash (key : string) (lang : json) (category : string).
                                   (* flash(trans(key, lang=lang), category) *)

(** [x_find] is the answer of the store to a sorted query, as a function of
    the store: which documents a filter selects and how the store orders
    equal keys is the store's business. *)
Record xworld := {
  x_world : world;
  x_trace : list xevent;           (* oldest first *)
  x_faults : nat -> xcall -> option exn;
  x_find : string -> json -> option (string * pyval) -> db_state -> list json
}.

Definition X (A : Type) : Type := xworld -> xresult A * xworld.

#[global] Instance X_ret : MRet X := fun A (a : A) xw => (XOk a, xw).
#[global] Instance X_bind : MBind X := fun A B (f : A -> X B) (m : X A) xw =>
  match m xw with
  | (XOk a, xw1) => f a xw1
  | (XRaise e, xw1) => (XRaise e, xw1)
  end.

Definition xraise {A} (e : xexn) : X A := fun xw => (XRaise e, xw).

(** [try: m except Exception as e: handler e]. *)
Definition xtry {A} (m : X A) (handler : xexn -> X A) : X A := fun xw =>
  match m xw with
  | (XOk a, xw1) => (XOk a, xw1)
  | (XRaise e, xw1) => handler e xw1
  end.

Definition xpush (evs : list xevent) (xw : xworld) : xworld :=
  {| x_world := x_world xw; x_trace := x_trace xw ++ evs;
     x_faults := x_faults xw; x_find := x_find xw |}.

Definition xemit (ev : xevent) : X unit := fun xw => (XOk tt, xpush [ev] xw).
Definition xlog_at (lvl : level) (m : xlog) : X unit := xemit (XLog lvl m).
Definition flash (key : string) (lang : json) (category : string) : X unit :=
  xemit (XFlash key lang category).

(** A computation of the code above, run in the wider world: the events it
    records are appended to the common trace. *)
Definition lift {A} (m : M A) : X A := fun xw =>
  let rw := m (x_world xw) in
  (match rw.1 with
   | Ok a => XOk a
   | Raise e => XRaise (Lower e)
   end,
   {| x_world := rw.2;
      x_trace := x_trace xw
                 ++ (XBase <$> drop (length (w_trace (x_world xw))) (w_trace rw.2));
      x_faults := x_faults xw; x_find := x_find xw |}).

(** The inner world after one more driver call. *)
Definition counted (db : db_state) (w : world) : world :=
  {| w_db := db; w_trace := w_trace w; w_calls := S (w_calls w);
     w_faults := w_faults w; w_now := w_now w; w_courses := w_courses w |}.

Definition xdriver {A} (c : xcall) (sem : db_state -> result (A * db_state))
  : X A := fun xw =>
  let w := x_world xw in
  let record (failure : option exn) (db : db_state) :=
    {| x_world := counted db w; x_trace := x_trace xw ++ [XCall c failure];
       x_faults := x_faults xw; x_find := x_find xw |} in
  match x_faults xw (w_calls w) c with
  | Some e => (XRaise (Lower e), record (Some e) (w_db w))
  | None =>
      match sem (w_db w) with
      | Ok (a, db1) => (XOk a, record None db1)
      | Raise e => (XRaise (Lower e), record (Some e) (w_db w))
      end
  end.

Definition find_sorted (coll : string) (filter : json)
    (sort : option (string * pyval)) : X (list json) := fun xw =>
  xdriver (FindSorted coll filter sort) (reading (x_find xw coll filter sort)) xw.

(** [update_many(filter, {'$set': set})] for a filter that asks for equal
    field values: every document that has all of them gets the new fields;
    a collection that does not exist stays absent. *)
Definition selected (filter : list (string * json)) (d : json) : bool :=
  forallb (fun kv => match jget kv.1 d with
                     | Some v => json_eqb v kv.2
                     | None => false
                     end) filter.

Definition with_fields (set : list (string * json)) (d : json) : json :=
  match d with
  | JObj fields => JObj (foldl (fun acc kv => assoc_set kv.1 kv.2 acc) fields set)
  | _ => d
  end.

Definition db_update_many (coll : string) (filter set : list (string * json))
    (db : db_state) : result (unit * db_state) :=
  Ok (tt,
      match db_docs db !! coll with
      | Some docs =>
          {| db_names := db_names db;
             db_validators := db_validators db;
             db_indexes := db_indexes db;
             db_docs := <[coll := (fun d => if selected filter d
                                            then with_fields set d else d) <$> docs]>
                          (db_docs db);
             db_next_oid := db_next_oid db |}
      | None => db
      end).

Definition update_many (coll : string) (filter set : list (string * json)) : X unit :=
  xdriver (UpdateMany coll filter set) (db_update_many coll filter set).

(** [insert_one] with its [result.inserted_id]: the ['_id'] of the document
    as stored. *)
Definition db_insert_one_id (coll : string) (d : json) (db : db_state)
    : result (json * db_state) :=
  match db_insert_one coll d db with
  | Ok (_, db1) => Ok (default JNull (jget "_id" (with_id (db_next_oid db) d)), db1)
  | Raise e => Raise e
  end.

Definition insert_one_id (coll : string) (d : json) : M json :=
  driver (InsertOne coll d) (db_insert_one_id coll d).

(** ** Creating records *)

(** [all(field in data for field in required_fields)] on a dictionary given
    by its items. *)
Definition has_fields (required_fields : list string) (data : list (string * json))
  : bool :=
  forallb (fun field => match assoc_get field data with
                        | Some _ => true
                        | None => false
                        end) required_fields.

(** [data.setdefault(k, v)]. *)
Definition setdefault (k : string) (v : json) (data : list (string * json))
  : list (string * json) :=
  match assoc_get k data with
  | Some _ => data
  | None => data ++ [(k, v)]
  end.

Section Records.
Context (trans : translator).
(** Python's [str] on an ['_id']; the text of an ObjectId is the store's. *)
Context (py_str : json -> string).

Definition create_feedback (feedback_data : list (string * json)) : X unit :=
  xtry
    (let required_fields := ["user_id"; "tool_name"; "rating"; "timestamp"] in
     (if negb (has_fields required_fields feedback_data)
      then xraise (Lower (ValueError (trans "general_missing_feedback_fields"
                                        "Missing required feedback fields")))
      else mret tt) ;;
     lift (insert_one "feedback" (JObj feedback_data)) ;;
     xlog_at Info (LRecordCreated "general_feedback_created"
                     "Created feedback record for tool"
                     (default JNull (assoc_get "tool_name" feedback_data))))
    (fun e =>
       xlog_at Error (LFailure "general_feedback_creation_error"
                        "Error creating feedback" e) ;;
       xraise e).

Definition create_news_article (article_data : list (string * json)) : X string :=
  xtry
    (let required_fields := ["title"; "content"; "source_type"; "published_at"] in
     (if negb (has_fields required_fields article_data)
      then xraise (Lower (ValueError (trans "general_missing_news_fields"
                                        "Missing required news article fields")))
      else mret tt) ;;
     let article_data := setdefault "is_verified" (JBool false) article_data in
     let article_data := setdefault "is_active" (JBool true) article_data in
     inserted_id ← lift (insert_one_id "news_articles" (JObj article_data)) ;
     xlog_at Info (LRecordCreated "general_news_article_created"
                     "Created news article with ID" inserted_id) ;;
     mret (py_str inserted_id))
    (fun e =>
       xlog_at Error (LFailure "general_news_article_creation_error"
                        "Error creating news article" e) ;;
       xraise e).

Definition create_tax_rate (tax_rate_data : list (string * json)) : X string :=
  xtry
    (let required_fields := ["role"; "min_income"; "max_income"; "rate"; "description"] in
     (if negb (has_fields required_fields tax_rate_data)
      then xraise (Lower (ValueError (trans "general_missing_tax_rate_fields"
                                        "Missing required tax rate fields")))
      else mret tt) ;;
     inserted_id ← lift (insert_one_id "tax_rates" (JObj tax_rate_data)) ;
     xlog_at Info (LRecordCreated "general_tax_rate_created"
                     "Created tax rate with ID" inserted_id) ;;
     mret (py_str inserted_id))
    (fun e =>
       xlog_at Error (LFailure "general_tax_rate_creation_error"
                        "Error creating tax rate" e) ;;
       xraise e).

Definition create_payment_location (location_data : list (string * json)) : X string :=
  xtry
    (let required_fields := ["name"; "address"; "contact"] in
     (if negb (has_fields required_fields location_data)
      then xraise (Lower (ValueError (trans "general_missing_location_fields"
                                        "Missing required payment location fields")))
      else mret tt) ;;
     inserted_id ← lift (insert_one_id "payment_locations" (JObj location_data)) ;
     xlog_at Info (LRecordCreated "general_payment_location_created"
                     "Created payment location with ID" inserted_id) ;;
     mret (py_str inserted_id))
    (fun e =>
       xlog_at Error (LFailure "general_payment_location_creation_error"
                        "Error creating payment location" e) ;;
       xraise e).

Definition create_tax_reminder (reminder_data : list (string * json)) : X string :=
  xtry
    (let required_fields :=
       ["user_id"; "tax_type"; "due_date"; "amount"; "status"; "created_at"] in
     (if negb (has_fields required_fields reminder_data)
      then xraise (Lower (ValueError (trans "general_missing_reminder_fields"
                                        "Missing required tax reminder fields")))
      else mret tt) ;;
     inserted_id ← lift (insert_one_id "tax_reminders" (JObj reminder_data)) ;
     xlog_at Info (LRecordCreated "general_tax_reminder_created"
                     "Created tax reminder with ID" inserted_id) ;;
     mret (py_str inserted_id))
    (fun e =>
       xlog_at Error (LFailure "general_tax_reminder_creation_error"
                        "Error creating tax reminder" e) ;;
       xraise e).
End Records.

(** ** Reading records *)

Definition get_news_articles (filter_kwargs : json) : X (list json) :=
  xtry
    (find_sorted "news_articles" filter_kwargs (Some ("published_at", DESCENDING)))
    (fun e =>
       xlog_at Error (LFailure "general_news_articles_fetch_error"
                        "Error getting news articles" e) ;;
       xraise e).

Definition get_tax_rates (filter_kwargs : json) : X (list json) :=
  xtry
    (find_sorted "tax_rates" filter_kwargs (Some ("min_income", ASCENDING)))
    (fun e =>
       xlog_at Error (LFailure "general_tax_rates_fetch_error"
                        "Error getting tax rates" e) ;;
       xraise e).

Definition get_payment_locations (filter_kwargs : json) : X (list json) :=
  xtry
    (find_sorted "payment_locations" filter_kwargs (Some ("name", ASCENDING)))
    (fun e =>
       xlog_at Error (LFailure "general_payment_locations_fetch_error"
                        "Error getting payment locations" e) ;;
       xraise e).

Definition get_tax_reminders (filter_kwargs : json) : X (list json) :=
  xtry
    (find_sorted "tax_reminders" filter_kwargs (Some ("due_date", ASCENDING)))
    (fun e =>
       xlog_at Error (LFailure "general_tax_reminders_fetch_error"
                        "Error getting tax reminders" e) ;;
       xraise e).

(** ** Calling [log_tool_usage] by keyword, and the unsubscribe route *)

(** The parameters of a [def], each with its default value if it has one,
    and the binding of a call that passes keyword arguments only: every
    keyword must name a parameter, and every parameter without default must
    be given.  [None] stands for the [TypeError] of a call that does not
    fit. *)
Fixpoint bind_parameters (parameters : list (string * option json))
    (kwargs : list (string * json)) : option (list json) :=
  match parameters with
  | [] => Some []
  | (name, dflt) :: rest =>
      match (match assoc_get name kwargs with Some v => Some v | None => dflt end),
            bind_parameters rest kwargs with
      | Some v, Some vs => Some (v :: vs)
      | _, _ => None
      end
  end.

Definition bind_keywords (parameters : list (string * option json))
    (kwargs : list (string * json)) : option (list json) :=
  if forallb (fun kv => bool_decide (kv.1 ∈ parameters.*1)) kwargs
  then bind_parameters parameters kwargs
  else None.

(** [def log_tool_usage(db, tool_name, user_id=None, session_id=None, action=None)]. *)
Definition log_tool_usage_parameters : list (string * option json) :=
  [("db", None); ("tool_name", None); ("user_id", Some JNull);
   ("session_id", Some JNull); ("action", Some JNull)].

Definition call_log_tool_usage (kwargs : list (string * json)) : X unit :=
  match bind_keywords log_tool_usage_parameters kwargs with
  | Some [_; tool_name; user_id; session_id; action] =>
      lift (log_tool_usage tool_name user_id session_id action)
  | _ => xraise TypeError
  end.

(** What a route sees of the request: the session and the logged-in user,
    if there is one. *)
Record request := {
  session : list (string * json);
  current_user : option User
}.

Inductive response := Redirect (endpoint : string).

(** The handle [mongo.db] as an argument value. *)
Definition db_handle : json := JStr "mongo.db".

(** [unsubscribe(email)]; [uuid4] is the identifier drawn for this call. *)
Definition unsubscribe (req : request) (uuid4 : string) (email : string)
  : X response :=
  let lang := default (JStr "en") (assoc_get "lang" (session req)) in
  xtry
    (call_log_tool_usage
       [("mongo", db_handle);
        ("tool_name", JStr "emergency_fund");
        ("user_id", match current_user req with Some u => id u | None => JNull end);
        ("session_id", default (JStr uuid4) (assoc_get "sid" (session req)));
        ("action", JStr "unsubscribe")] ;;
     let filter_kwargs :=
       ("email", JStr email)
       :: match current_user req with Some u => [("user_id", id u)] | None => [] end in
     update_many "emergency_funds" filter_kwargs [("email_opt_in", JBool false)] ;;
     flash "emergency_fund_unsubscribed_success" lang "success")
    (fun e =>
       xlog_at Error (LUnsubscribeFailed e) ;;
       flash "emergency_fund_unsubscribe_error" lang "danger") ;;
  mret (Redirect "index").

(** ** Observations in the wider world *)

Definition xboot (db : db_state) : xworld :=
  {| x_world := boot db no_faults; x_trace := [];
     x_faults := fun _ _ => None;
     x_find := fun coll filter _ db =>
                 match filter with
                 | JObj [] => docs_of db coll
                 | _ => []
                 end |}.

(** What a creator has done to a collection when it is finished: it has
    returned and the document is the last of the collection, all else as
    before; or it has raised and the store is as it was. *)
Definition stored_or_failed {A} (coll : string) (data : list (string * json))
    (xw : xworld) (run : xresult A * xworld) : Prop :=
  let db := w_db (x_world xw) in
  let db' := w_db (x_world run.2) in
  match run.1 with
  | XOk _ =>
      docs_of db' coll = docs_of db coll ++ [with_id (db_next_oid db) (JObj data)]
      /\ forall c, c <> coll -> docs_of db' c = docs_of db c
  | XRaise _ => db' = db
  end.

(** The answer of the store to the query for everything in a collection:
    its documents, in the order the sort puts them. *)
Definition answers_all (xw : xworld) (coll : string) (sort : option (string * pyval))
  : Prop :=
  forall db, x_find xw coll (JObj []) sort db ≡ₚ docs_of db coll.

(** A document among [l] that carries the id and every field of [data]. *)
Definition found_among (py_str : json -> string) (l : list json)
    (inserted_id : string) (data : list (string * json)) : Prop :=
  exists d, d ∈ l
            /\ py_str (default JNull (jget "_id" d)) = inserted_id
            /\ forall k v, assoc_get k data = Some v -> jget k d = Some v.

(** The outcome of a creator that refuses its data: the [ValueError] with
    the translated text, after one error record, the store not called. *)
Definition rejected {A} (trans : translator) (xw : xworld)
    (key dflt log_key log_dflt : string) : xresult A * xworld :=
  let e := Lower (ValueError (trans key dflt)) in
  (XRaise e, xpush [XLog Error (LFailure log_key log_dflt e)] xw).

(** What a creator's record looks like to the accessor of its collection,
    asked for everything right after the creator has returned. *)
Definition found_again (py_str : json -> string) (coll : string)
    (sort : option (string * pyval)) (get : json -> X (list json))
    (data : list (string * json)) (created : xresult string * xworld) : Prop :=
  forall inserted_id,
    created.1 = XOk inserted_id ->
    answers_all created.2 coll sort ->
    (forall c, x_faults created.2 (w_calls (x_world created.2)) c = None) ->
    exists l xw2,
      get (JObj []) created.2 = (XOk l, xw2)
      /\ found_among py_str l inserted_id data
      /\ w_db (x_world xw2) = w_db (x_world created.2).

(** A rendering of ids for the examples. *)
Definition plain_str (j : json) : string :=
  match j with
  | JStr s => s
  | JOid n => "oid-" +:+ pretty (Z.of_nat n)
  | _ => ""
  end.

Definition flat_rate : list (string * json) :=
  [("role", JStr "agent"); ("min_income", JInt 0); ("max_income", JInt 1000);
   ("rate", JFloat 5 (-2)); ("description", JStr "flat")].

Definition verified_article : list (string * json) :=
  [("title", JStr "Rates"); ("content", JStr "New rates"); ("source_type", JStr "manual");
   ("published_at", JDate 0); ("is_verified", JBool true)].

(** * Properties *)

(** ** Running the monad *)

Lemma run_bind {A B} (m : M A) (f : A -> M B) w :
  (m ≫= f) w = match m w with
                | (Ok a, w1) => f a w1
                | (Raise e, w1) => (Raise e, w1)
                end.
Proof. reflexivity. Qed.

Lemma run_driver_fault {A} c (sem : db_state -> result (A * db_state)) w e :
  w_faults w (w_calls w) c = Some e ->
  driver c sem w =
    (Raise e, {| w_db := w_db w; w_trace := w_trace w ++ [EvCall c (Some e)];
                 w_calls := S (w_calls w); w_faults := w_faults w;
                 w_now := w_now w; w_courses := w_courses w |}).
Proof. intros H. unfold driver. rewrite H. reflexivity. Qed.

(** ** What a computation adds to the trace *)

Lemma traces_weaken {A} (m : M A) (P Q : result A -> list event -> Prop) :
  traces m P -> (forall r d, P r d -> Q r d) -> traces m Q.
Proof. intros H HPQ w. destruct (H w) as (d & E & HP). eauto. Qed.

Lemma traces_ret {A} (a : A) (P : result A -> list event -> Prop) :
  P (Ok a) [] -> traces (mret a) P.
Proof. intros H w. exists []. cbn. by rewrite app_nil_r. Qed.

Lemma traces_raise {A} e (P : result A -> list event -> Prop) :
  P (Raise e) [] -> traces (raise e) P.
Proof. intros H w. exists []. cbn. by rewrite app_nil_r. Qed.

Lemma traces_emit ev (P : result unit -> list event -> Prop) :
  P (Ok tt) [ev] -> traces (emit ev) P.
Proof. intros H w. exists [ev]. done. Qed.

Lemma traces_utcnow (P : result Z -> list event -> Prop) :
  (forall t, P (Ok t) []) -> traces utcnow P.
Proof. intros H w. exists []. cbn. by rewrite app_nil_r. Qed.

Lemma traces_set_courses l (P : result unit -> list event -> Prop) :
  P (Ok tt) [] -> traces (set_courses l) P.
Proof. intros H w. exists []. cbn. by rewrite app_nil_r. Qed.

Lemma traces_driver {A} c (sem : db_state -> result (A * db_state))
    (P : result A -> list event -> Prop) :
  (forall a, P (Ok a) [EvCall c None]) ->
  (forall e, P (Raise e) [EvCall c (Some e)]) ->
  traces (driver c sem) P.
Proof.
  intros HOk HRaise w. unfold driver.
  destruct (w_faults w (w_calls w) c) as [e|]; [exists [EvCall c (Some e)]; cbn; eauto|].
  destruct (sem (w_db w)) as [[a db1]|e]; cbn; eauto.
Qed.

Lemma traces_bind {A B} (m : M A) (f : A -> M B) P1 P2
    (Q : result B -> list event -> Prop) :
  traces m P1 ->
  (forall a, traces (f a) (P2 a)) ->
  (forall e d, P1 (Raise e) d -> Q (Raise e) d) ->
  (forall a d1 r d2, P1 (Ok a) d1 -> P2 a r d2 -> Q r (d1 ++ d2)) ->
  traces (m ≫= f) Q.
Proof.
  intros Hm Hf HR HO w. rewrite run_bind.
  destruct (Hm w) as (d1 & E1 & H1).
  destruct (m w) as [[a|e] w1]; cbn in *.
  - destruct (Hf a w1) as (d2 & E2 & H2).
    exists (d1 ++ d2). rewrite E2, E1, app_assoc. eauto.
  - exists d1. eauto.
Qed.

Lemma traces_try {A} (m : M A) (h : exn -> M A) P1 P2
    (Q : result A -> list event -> Prop) :
  traces m P1 ->
  (forall e, traces (h e) (P2 e)) ->
  (forall a d, P1 (Ok a) d -> Q (Ok a) d) ->
  (forall e d1 r d2, P1 (Raise e) d1 -> P2 e r d2 -> Q r (d1 ++ d2)) ->
  traces (try_except m h) Q.
Proof.
  intros Hm Hh HO HR w. unfold try_except.
  destruct (Hm w) as (d1 & E1 & H1).
  destruct (m w) as [[a|e] w1]; cbn in *.
  - exists d1. eauto.
  - destruct (Hh e w1) as (d2 & E2 & H2).
    exists (d1 ++ d2). rewrite E2, E1, app_assoc. eauto.
Qed.

Section Only.
Context (Q : event -> Prop).

Lemma only_ret {A} (a : A) : traces (mret a) (only Q).
Proof. apply traces_ret. constructor. Qed.

Lemma only_raise {A} e : traces (raise e : M A) (only Q).
Proof. apply traces_raise. constructor. Qed.

Lemma only_emit ev : Q ev -> traces (emit ev) (only Q).
Proof. intros H. apply traces_emit. by repeat constructor. Qed.

Lemma only_log lvl msg : Q (EvLog lvl msg) -> traces (log lvl msg) (only Q).
Proof. apply only_emit. Qed.

Lemma only_sleep s : Q (EvSleep s) -> traces (sleep s) (only Q).
Proof. apply only_emit. Qed.

Lemma only_utcnow : traces utcnow (only Q).
Proof. apply traces_utcnow. constructor. Qed.

Lemma only_set_courses l : traces (set_courses l) (only Q).
Proof. apply traces_set_courses. constructor. Qed.

Lemma only_driver {A} c (sem : db_state -> result (A * db_state)) :
  (forall o, Q (EvCall c o)) -> traces (driver c sem) (only Q).
Proof. intros H. apply traces_driver; intros; by repeat constructor. Qed.

Lemma only_bind {A B} (m : M A) (f : A -> M B) :
  traces m (only Q) -> (forall a, traces (f a) (only Q)) ->
  traces (m ≫= f) (only Q).
Proof.
  intros Hm Hf. apply (traces_bind m f (only Q) (fun _ => only Q)); auto.
  intros. by apply Forall_app.
Qed.

Lemma only_try {A} (m : M A) (h : exn -> M A) :
  traces m (only Q) -> (forall e, traces (h e) (only Q)) ->
  traces (try_except m h) (only Q).
Proof.
  intros Hm Hh. apply (traces_try m h (only Q) (fun _ => only Q)); auto.
  intros. by apply Forall_app.
Qed.

Lemma only_for_each {A} (l : list A) (body : A -> M unit) :
  (forall x, traces (body x) (only Q)) -> traces (for_each l body) (only Q).
Proof.
  intros Hb. induction l as [|x l IH]; cbn.
  - apply only_ret.
  - apply only_bind; auto.
Qed.
End Only.

(** Applies the rules above along the structure of a computation; what is
    left are the conditions on single events. *)
Ltac only_step :=
  lazymatch goal with
  | |- traces (mret _) (only _) => apply only_ret
  | |- traces (raise _) (only _) => apply only_raise
  | |- traces (log _ _) (only _) => apply only_log
  | |- traces (sleep _) (only _) => apply only_sleep
  | |- traces utcnow (only _) => apply only_utcnow
  | |- traces (set_courses _) (only _) => apply only_set_courses
  | |- traces (driver _ _) (only _) => apply only_driver; intros [?|]
  | |- traces (for_each _ _) (only _) => apply only_for_each; intros ?
  | |- traces (try_except _ _) (only _) => apply only_try; [|intros ?]
  | |- traces (_ ≫= _) (only _) => apply only_bind; [|intros ?]
  | |- traces (if ?b then _ else _) (only _) => destruct b
  | |- traces (match ?x with _ => _ end) (only _) => destruct x
  end.

(** ** No action after a failed write *)

Lemma abort_ret {A} (a : A) : traces (mret a) abort_shape.
Proof. apply traces_ret. left. constructor. Qed.

Lemma abort_emit_log lvl msg : traces (log lvl msg) abort_shape.
Proof. apply traces_emit. left. repeat constructor. intros []. Qed.

Lemma abort_driver {A} c (sem : db_state -> result (A * db_state)) :
  traces (driver c sem) abort_shape.
Proof.
  apply traces_driver.
  - intros a. left. repeat constructor. intros [].
  - intros e. destruct (is_write c) eqn:W.
    + right. exists [], c, e. repeat split; auto. constructor.
    + left. repeat constructor. cbn. congruence.
Qed.

Lemma abort_bind {A B} (m : M A) (f : A -> M B) :
  traces m abort_shape -> (forall a, traces (f a) abort_shape) ->
  traces (m ≫= f) abort_shape.
Proof.
  intros Hm Hf.
  apply (traces_bind m f abort_shape (fun _ => abort_shape)); [exact Hm|exact Hf| |].
  { intros e d [H|(d0 & c & e' & E & W & -> & H0)]; [by left|].
    right. exists d0, c, e'. injection E as ->. auto. }
  intros a d1 r d2 [H1|(? & ? & ? & [=] & _)] [H2|(d0 & c & e & -> & W & -> & H0)].
  - left. by apply Forall_app.
  - right. exists (d1 ++ d0), c, e. rewrite app_assoc. repeat split; auto.
    by apply Forall_app.
Qed.

Lemma abort_for_each {A} (l : list A) (body : A -> M unit) :
  (forall x, traces (body x) abort_shape) ->
  traces (for_each l body) abort_shape.
Proof.
  intros Hb. induction l as [|x l IH]; cbn.
  - apply abort_ret.
  - apply abort_bind; auto.
Qed.

Ltac abort_step :=
  first
    [ apply abort_ret
    | apply abort_emit_log
    | apply abort_driver
    | apply abort_for_each; intros
    | apply abort_bind; [|intros] ].

Lemma abort_reconcile_index c existing index :
  traces (reconcile_index c existing index) abort_shape.
Proof.
  unfold reconcile_index. apply abort_bind.
  - induction existing as [|item rest IH]; cbn.
    + apply abort_ret.
    + destruct (key_matches _ _); [|exact IH].
      destruct (bool_decide _); repeat abort_step.
  - intros []; cbn; unfold create_index; repeat abort_step.
Qed.

Lemma abort_reconcile_collection collections entry :
  traces (reconcile_collection collections entry) abort_shape.
Proof.
  unfold reconcile_collection, create_collection, index_information.
  apply abort_bind.
  - destruct (bool_decide _); repeat abort_step.
  - intros _. apply abort_bind; [abort_step|].
    intros existing. apply abort_for_each. intros index.
    apply abort_reconcile_index.
Qed.

Lemma no_failed_write_get_db : traces get_db (only (fun ev => ~ failed_write ev)).
Proof. unfold get_db, db_ping. repeat only_step; cbn; auto. Qed.

Lemma abort_reconcile_and_seed trans :
  traces (reconcile_and_seed trans) abort_shape.
Proof.
  unfold reconcile_and_seed, seed_courses, seed_tax_rates, seed_payment_locations,
    list_collection_names, count_documents, insert_many, find_all_without_id.
  apply abort_bind.
  { eapply traces_weaken; [apply no_failed_write_get_db|]. intros. by left. }
  intros _. apply abort_bind; [abort_step|]. intros _.
  apply abort_bind; [abort_step|]. intros collections.
  apply abort_bind.
  { apply abort_for_each. intros. apply abort_reconcile_collection. }
  intros _. apply abort_bind.
  { apply abort_bind; [abort_step|]. intros n. apply abort_bind.
    - destruct (Nat.eqb n 0); [|abort_step].
      apply abort_bind; [|intros; abort_step].
      apply abort_for_each. intros. apply abort_driver.
    - intros _. apply abort_bind; [abort_step|]. intros.
      apply traces_set_courses. left. constructor. }
  intros _. apply abort_bind.
  { apply abort_bind; [abort_step|]. intros n.
    destruct (Nat.eqb n 0); repeat abort_step. }
  intros _. apply abort_bind; [abort_step|]. intros n.
  destruct (Nat.eqb n 0); repeat abort_step.
Qed.

Lemma no_failed_write_app d1 d2 :
  no_failed_write d1 -> no_failed_write d2 -> no_failed_write (d1 ++ d2).
Proof. intros. by apply Forall_app. Qed.

Lemma no_failed_write_retry_loop trans attempts :
  traces (retry_loop trans attempts) (only (fun ev => ~ failed_write ev)).
Proof.
  induction attempts as [|attempt rest IH]; cbn [retry_loop];
    unfold try_except_on, admin_ping; repeat only_step; cbn; auto.
Qed.

Lemma failed_write_unique (a b pre post : list event) (x y : event) :
  no_failed_write a -> no_failed_write b -> failed_write y ->
  a ++ x :: b = pre ++ y :: post ->
  pre = a /\ y = x /\ post = b.
Proof.
  intros Ha Hb Hy. revert pre. induction Ha as [|z a Hz Ha IH]; intros pre E.
  - destruct pre as [|p pre]; cbn in E.
    + by injection E as -> ->.
    + injection E as -> E. exfalso.
      assert (In y b) as Hin by (rewrite E; apply in_elt).
      apply list_elem_of_In in Hin.
      unfold no_failed_write in Hb. rewrite Forall_forall in Hb.
      by apply (Hb y).
  - destruct pre as [|p pre]; cbn in E.
    + injection E as -> E. contradiction.
    + injection E as -> E. destruct (IH pre E) as (-> & -> & ->). done.
Qed.

(** The whole of [initialize_database]: what it adds to the trace holds at
    most one failed write, and then it ends with that write, the error
    record and the re-raised exception. *)
Lemma initialize_database_shape trans w :
  let rw := initialize_database trans w in
  exists d, w_trace rw.2 = w_trace w ++ d
    /\ (no_failed_write d
        \/ exists d0 c e, rw.1 = Raise e /\ is_write c = true /\ no_failed_write d0
             /\ d = d0 ++ [EvCall c (Some e); EvLog Error (LInitializationFailed e)]).
Proof.
  pose (P := fun (r : result unit) (d : list event) =>
    no_failed_write d
    \/ exists d0 c e, r = Raise e /\ is_write c = true /\ no_failed_write d0
         /\ d = d0 ++ [EvCall c (Some e); EvLog Error (LInitializationFailed e)]).
  assert (traces (initialize_database trans) P) as H; [|exact (H w)].
  unfold initialize_database.
  apply (traces_bind _ _ (only (fun ev => ~ failed_write ev)) (fun _ => P)).
  - apply no_failed_write_retry_loop.
  - intros _.
    apply (traces_try _ _ abort_shape
             (fun e r d => r = Raise e /\ d = [EvLog Error (LInitializationFailed e)])).
    + apply abort_reconcile_and_seed.
    + intros e. unfold log, emit, raise, mbind, M_bind. intros w0. cbn.
      exists [EvLog Error (LInitializationFailed e)]. done.
    + intros a d [H|(d0 & c & e & [=] & _)]. by left.
    + intros e d1 r d2 [H|(d0 & c & e' & [= ->] & W & -> & H0)] [-> ->].
      * left. apply no_failed_write_app; [done|]. repeat constructor. intros [].
      * right. exists d0, c, e'. rewrite <- app_assoc. done.
  - intros e d H. by left.
  - intros [] d1 r d2 H1 [H2|(d0 & c & e & -> & W & H0 & ->)].
    + left. by apply no_failed_write_app.
    + right. exists (d1 ++ d0), c, e. rewrite app_assoc.
      repeat split; auto. by apply no_failed_write_app.
Qed.

(** C8.  If a create-collection, create-index or seed-insert call fails
    during [initialize_database], the exception of that call is recorded in
    an error log and raised again, and nothing is done after the failed
    call: the error record is the last event of the run.  This holds for
    the seed insertions as for the schema calls. *)
Theorem failed_write_aborts trans w pre c e post :
  let rw := initialize_database trans w in
  is_write c = true ->
  w_trace rw.2 = w_trace w ++ pre ++ EvCall c (Some e) :: post ->
  rw.1 = Raise e /\ post = [EvLog Error (LInitializationFailed e)].
Proof.
  intros rw W E.
  destruct (initialize_database_shape trans w) as (d & Ed & H).
  fold rw in Ed, H. rewrite Ed in E. apply app_inv_head in E. subst d.
  destruct H as [H|(d0 & c' & e' & Hr & W' & H0 & E)].
  - exfalso. unfold no_failed_write in H. rewrite Forall_app, Forall_cons in H.
    destruct H as (_ & H & _). by apply H.
  - change (d0 ++ [EvCall c' (Some e'); EvLog Error (LInitializationFailed e')])
      with (d0 ++ EvCall c' (Some e') :: [EvLog Error (LInitializationFailed e')]) in E.
    symmetry in E. apply failed_write_unique in E as (-> & [= -> ->] & ->); auto.
    repeat constructor. intros [].
Qed.

(** ** Computations that leave the store as it is *)

Lemma keeps_ret {A} (a : A) : keeps_db (mret a).
Proof. done. Qed.

Lemma keeps_raise {A} e : keeps_db (raise e : M A).
Proof. done. Qed.

Lemma keeps_log lvl msg : keeps_db (log lvl msg).
Proof. done. Qed.

Lemma keeps_sleep s : keeps_db (sleep s).
Proof. done. Qed.

Lemma keeps_reading {A} c (f : db_state -> A) : keeps_db (driver c (reading f)).
Proof. intros w. unfold driver. by destruct (w_faults w (w_calls w) c). Qed.

Lemma keeps_bind {A B} (m : M A) (f : A -> M B) :
  keeps_db m -> (forall a, keeps_db (f a)) -> keeps_db (m ≫= f).
Proof.
  intros Hm Hf w. rewrite run_bind. specialize (Hm w).
  destruct (m w) as [[a|e] w1]; cbn in *; [|done]. by rewrite Hf.
Qed.

Lemma keeps_try {A} (m : M A) (h : exn -> M A) :
  keeps_db m -> (forall e, keeps_db (h e)) -> keeps_db (try_except m h).
Proof.
  intros Hm Hh w. unfold try_except. specialize (Hm w).
  destruct (m w) as [[a|e] w1]; cbn in *; [done|]. by rewrite Hh.
Qed.

Ltac keeps_step :=
  lazymatch goal with
  | |- keeps_db (mret _) => apply keeps_ret
  | |- keeps_db (raise _) => apply keeps_raise
  | |- keeps_db (log _ _) => apply keeps_log
  | |- keeps_db (sleep _) => apply keeps_sleep
  | |- keeps_db (driver _ (reading _)) => apply keeps_reading
  | |- keeps_db (try_except _ _) => apply keeps_try; [|intros ?]
  | |- keeps_db (_ ≫= _) => apply keeps_bind; [|intros ?]
  | |- keeps_db (if ?b then _ else _) => destruct b
  | |- keeps_db (match ?x with _ => _ end) => destruct x
  end.

Lemma keeps_retry_loop trans attempts : keeps_db (retry_loop trans attempts).
Proof.
  induction attempts as [|attempt rest IH]; cbn [retry_loop];
    unfold try_except_on, admin_ping; repeat keeps_step; auto.
Qed.

Lemma keeps_get_db : keeps_db get_db.
Proof. unfold get_db, db_ping. repeat keeps_step. Qed.

(** ** Trace and store together *)

Lemma sat_weaken {A} (m : M A) (R R' : db_state -> result A -> list event -> db_state -> Prop) :
  sat m R -> (forall db r d db', R db r d db' -> R' db r d db') -> sat m R'.
Proof. intros H HR w. destruct (H w) as (d & E & Hd). eauto. Qed.

Lemma sat_of_traces {A} (m : M A) (P : result A -> list event -> Prop) :
  traces m P -> keeps_db m -> sat m (fun db r d db' => P r d /\ db' = db).
Proof. intros HP HK w. destruct (HP w) as (d & E & Hd). exists d. auto. Qed.

Lemma traces_of_sat {A} (m : M A) (P : result A -> list event -> Prop) :
  sat m (fun _ r d _ => P r d) -> traces m P.
Proof. intros H w. exact (H w). Qed.

Lemma sat_ret {A} (a : A) (R : db_state -> result A -> list event -> db_state -> Prop) :
  (forall db, R db (Ok a) [] db) -> sat (mret a) R.
Proof. intros H w. exists []. cbn. rewrite app_nil_r. auto. Qed.

Lemma sat_raise {A} e (R : db_state -> result A -> list event -> db_state -> Prop) :
  (forall db, R db (Raise e) [] db) -> sat (raise e) R.
Proof. intros H w. exists []. cbn. rewrite app_nil_r. auto. Qed.

Lemma sat_emit ev (R : db_state -> result unit -> list event -> db_state -> Prop) :
  (forall db, R db (Ok tt) [ev] db) -> sat (emit ev) R.
Proof. intros H w. exists [ev]. cbn. auto. Qed.

Lemma sat_driver {A} c (sem : db_state -> result (A * db_state))
    (R : db_state -> result A -> list event -> db_state -> Prop) :
  (forall db a db1, sem db = Ok (a, db1) -> R db (Ok a) [EvCall c None] db1) ->
  (forall db e, R db (Raise e) [EvCall c (Some e)] db) ->
  sat (driver c sem) R.
Proof.
  intros HOk HRaise w. unfold driver.
  destruct (w_faults w (w_calls w) c) as [e|]; [exists [EvCall c (Some e)]; cbn; eauto|].
  destruct (sem (w_db w)) as [[a db1]|e] eqn:E; cbn; eauto.
Qed.

Lemma sat_bind {A B} (m : M A) (f : A -> M B) R1 R2
    (Q : db_state -> result B -> list event -> db_state -> Prop) :
  sat m R1 ->
  (forall a, sat (f a) (R2 a)) ->
  (forall db e d db', R1 db (Raise e) d db' -> Q db (Raise e) d db') ->
  (forall db a d1 db1 r d2 db2,
     R1 db (Ok a) d1 db1 -> R2 a db1 r d2 db2 -> Q db r (d1 ++ d2) db2) ->
  sat (m ≫= f) Q.
Proof.
  intros Hm Hf HR HO w. rewrite run_bind.
  destruct (Hm w) as (d1 & E1 & H1).
  destruct (m w) as [[a|e] w1]; cbn in *.
  - destruct (Hf a w1) as (d2 & E2 & H2).
    exists (d1 ++ d2). rewrite E2, E1, app_assoc. eauto.
  - exists d1. eauto.
Qed.

Lemma sat_try {A} (m : M A) (h : exn -> M A) R1 R2
    (Q : db_state -> result A -> list event -> db_state -> Prop) :
  sat m R1 ->
  (forall e, sat (h e) (R2 e)) ->
  (forall db a d db', R1 db (Ok a) d db' -> Q db (Ok a) d db') ->
  (forall db e d1 db1 r d2 db2,
     R1 db (Raise e) d1 db1 -> R2 e db1 r d2 db2 -> Q db r (d1 ++ d2) db2) ->
  sat (try_except m h) Q.
Proof.
  intros Hm Hh HO HR w. unfold try_except.
  destruct (Hm w) as (d1 & E1 & H1).
  destruct (m w) as [[a|e] w1]; cbn in *.
  - exists d1. eauto.
  - destruct (Hh e w1) as (d2 & E2 & H2).
    exists (d1 ++ d2). rewrite E2, E1, app_assoc. eauto.
Qed.

(** ** Declaration order *)

Lemma index_events_search c existing keys options :
  traces (search_existing c existing keys options) (only (index_event c)).
Proof.
  induction existing as [|item rest IH]; cbn [search_existing];
    repeat only_step; cbn; auto.
Qed.

Lemma index_events_reconcile_index c existing index :
  traces (reconcile_index c existing index) (only (index_event c)).
Proof.
  unfold reconcile_index, create_index. only_step.
  - apply index_events_search.
  - repeat only_step; cbn; auto.
Qed.

Lemma index_events_for_each c existing indexes :
  traces (for_each indexes (reconcile_index c existing)) (only (index_event c)).
Proof. only_step. apply index_events_reconcile_index. Qed.

Lemma block_reconcile_collection collections entry :
  traces (reconcile_collection collections entry)
         (fun _ d => collection_block collections entry.1 d).
Proof.
  destruct entry as [c config]. unfold reconcile_collection. cbn [fst snd].
  pose (rest_of := fun (_ : result unit) d =>
          exists o rest, d = EvCall (IndexInformation c) o :: rest
                         /\ Forall (index_event c) rest).
  assert (traces (index_information c ≫= fun existing_indexes =>
                    for_each (default [] (cfg_indexes config))
                      (reconcile_index c existing_indexes)) rest_of) as Hrest.
  { apply (traces_bind _ _
             (fun _ d => exists o, d = [EvCall (IndexInformation c) o])
             (fun _ => only (index_event c))).
    - apply traces_driver; eauto.
    - intros existing. apply index_events_for_each.
    - intros e d [o ->]. exists o, []. done.
    - intros a d1 r d2 [o ->] H. exists o, d2. done. }
  case_bool_decide as Hin.
  - (* the collection is not listed: it is created first *)
    apply (traces_bind _ _
             (fun r d => exists v,
                match r with
                | Raise e => d = [EvCall (CreateCollection c v) (Some e)]
                | Ok _ => d = [EvCall (CreateCollection c v) None;
                               EvLog Info (LCollectionCreated c)]
                end)
             (fun _ => rest_of)).
    + apply (traces_bind _ _
               (fun r d => exists v, d = [EvCall (CreateCollection c v)
                                            match r with Ok _ => None | Raise e => Some e end])
               (fun _ r d => r = Ok tt /\ d = [EvLog Info (LCollectionCreated c)])).
      * apply traces_driver; eauto.
      * intros _. by apply traces_emit.
      * intros e d [v ->]. eauto.
      * intros a d1 r d2 [v ->] [-> ->]. eauto.
    + intros _. exact Hrest.
    + intros e d [v ->]. by constructor.
    + intros a d1 r d2 [v ->] (o & rest & -> & Hf).
      cbn. by apply block_created.
  - apply (traces_bind _ _ (fun r d => r = Ok tt /\ d = []) (fun _ => rest_of)).
    + by apply traces_ret.
    + intros _. exact Hrest.
    + intros e d [[=] _].
    + intros a d1 r d2 [_ ->] (o & rest & -> & Hf). cbn. by apply block_present.
Qed.

Lemma blocks_for_each collections entries :
  traces (for_each entries (reconcile_collection collections))
         (blocks_in_order collections entries.*1).
Proof.
  induction entries as [|entry rest IH]; cbn [for_each].
  - apply traces_ret. exists []. repeat split; auto.
  - apply (traces_bind _ _
             (fun _ d => collection_block collections entry.1 d)
             (fun _ => blocks_in_order collections rest.*1)).
    + apply block_reconcile_collection.
    + intros _. exact IH.
    + intros e d H. exists [d]. cbn. rewrite app_nil_r.
      repeat split; [|done]. by repeat constructor.
    + intros a d1 r d2 H (blocks & -> & HF & Hlen).
      exists (d1 :: blocks). cbn. repeat split.
      * by constructor.
      * intros a' E. by rewrite (Hlen a' E).
Qed.

Lemma ordered_blocks_prepend collections {A} (r : result A) d0 d :
  Forall no_schema_call d0 -> ordered_blocks collections r d ->
  ordered_blocks collections r (d0 ++ d).
Proof.
  intros H0 (before & blocks & after & -> & Hb & Ha & HF & Hl).
  exists (d0 ++ before), blocks, after. rewrite <- app_assoc.
  repeat split; auto. by apply Forall_app.
Qed.

Lemma ordered_blocks_stopped collections {A} e d :
  Forall no_schema_call d -> ordered_blocks collections (Raise e : result A) d.
Proof.
  intros H. exists d, [], []. cbn. rewrite app_nil_r.
  split_and!; try done; constructor.
Qed.

Lemma seeds_no_schema_call trans :
  traces (seed_courses ≫= fun _ => seed_tax_rates trans ≫= fun _ =>
          seed_payment_locations) (only no_schema_call).
Proof.
  unfold seed_courses, seed_tax_rates, seed_payment_locations, count_documents,
    insert_one, insert_many, find_all_without_id.
  repeat only_step; done.
Qed.

Lemma ordered_reconcile_and_seed trans :
  sat (reconcile_and_seed trans) (fun db r d _ => ordered_blocks (db_names db) r d).
Proof.
  unfold reconcile_and_seed.
  pose (quiet := fun (A : Type) (db : db_state) (_ : result A) d (db' : db_state) =>
                   Forall no_schema_call d /\ db' = db).
  apply (sat_bind _ _ (quiet unit)
           (fun _ db r d _ => ordered_blocks (db_names db) r d)).
  { apply (sat_of_traces _ (only no_schema_call)); [|apply keeps_get_db].
    unfold get_db, db_ping. repeat only_step; done. }
  2: { intros db e d db' [H _]. by apply ordered_blocks_stopped. }
  2: { intros db a d1 db1 r d2 db2 [H ->] H2. by apply ordered_blocks_prepend. }
  intros _.
  apply (sat_bind _ _ (quiet unit)
           (fun _ db r d _ => ordered_blocks (db_names db) r d)).
  { apply (sat_of_traces _ (only no_schema_call)); [|apply keeps_log]. only_step. done. }
  2: { intros db e d db' [H _]. by apply ordered_blocks_stopped. }
  2: { intros db a d1 db1 r d2 db2 [H ->] H2. by apply ordered_blocks_prepend. }
  intros _.
  apply (sat_bind _ _
           (fun db r d db' => Forall no_schema_call d /\ db' = db
                              /\ forall a, r = Ok a -> a = db_names db)
           (fun collections _ r d _ => ordered_blocks collections r d)).
  { unfold list_collection_names. apply sat_driver.
    - intros db a db1 [= <- <-]. repeat split; [by repeat constructor|].
      by intros ? [= <-].
    - intros db e. repeat split; [by repeat constructor|done]. }
  2: { intros db e d db' (H & _ & _). by apply ordered_blocks_stopped. }
  2: { intros db a d1 db1 r d2 db2 (H & -> & Ha) H2.
       rewrite <- (Ha a eq_refl). by apply ordered_blocks_prepend. }
  intros collections.
  apply (sat_weaken _ (fun _ r d _ => ordered_blocks collections r d)); [|auto].
  change (traces (for_each collection_schemas (reconcile_collection collections)
                  ≫= fun _ => seed_courses ≫= fun _ => seed_tax_rates trans ≫= fun _ =>
                     seed_payment_locations)
                 (ordered_blocks collections)).
  apply (traces_bind _ _ (blocks_in_order collections declared_names)
           (fun _ => only no_schema_call)).
  - apply blocks_for_each.
  - intros _. apply seeds_no_schema_call.
  - intros e d (blocks & -> & HF & Hl). exists [], blocks, [].
    cbn. rewrite app_nil_r. split_and!; auto.
  - intros a d1 r d2 (blocks & -> & HF & Hl) H2. exists [], blocks, d2.
    cbn. split_and!; auto. intros _ _. by apply (Hl a).
Qed.

Lemma ordered_initialize_database trans :
  sat (initialize_database trans)
      (fun db r d _ => ordered_blocks (db_names db) r d).
Proof.
  unfold initialize_database.
  apply (sat_bind _ _
           (fun db _ d db' => Forall no_schema_call d /\ db' = db)
           (fun _ db r d _ => ordered_blocks (db_names db) r d)).
  - apply (sat_of_traces _ (only no_schema_call)); [|apply keeps_retry_loop].
    generalize (seq 0 max_retries). intros attempts.
    induction attempts as [|attempt rest IH]; cbn [retry_loop];
      unfold try_except_on, admin_ping; repeat only_step; done.
  - intros _.
    apply (sat_try _ _
             (fun db r d _ => ordered_blocks (db_names db) r d)
             (fun e _ r d _ => r = Raise e /\ d = [EvLog Error (LInitializationFailed e)])).
    + apply ordered_reconcile_and_seed.
    + intros e w0. exists [EvLog Error (LInitializationFailed e)]. done.
    + auto.
    + intros db e d1 db1 r d2 db2
        (before & blocks & after & -> & Hb & Ha & HF & Hl) [-> ->].
      exists before, blocks, (after ++ [EvLog Error (LInitializationFailed e)]).
      rewrite <- !app_assoc. split_and!; auto; try done.
      apply Forall_app. split; [done|]. by repeat constructor.
  - intros db e d db' [H _]. by apply ordered_blocks_stopped.
  - intros db a d1 db1 r d2 db2 [H ->] H2. by apply ordered_blocks_prepend.
Qed.

Lemma split_in_app {A} (a b l1 l2 : list A) (x : A) :
  a ++ b = l1 ++ x :: l2 ->
  (exists a2, a = l1 ++ x :: a2 /\ l2 = a2 ++ b)
  \/ (exists b1, l1 = a ++ b1 /\ b = b1 ++ x :: l2).
Proof.
  revert l1. induction a as [|y a IH]; intros l1 E; cbn in E.
  - right. exists l1. done.
  - destruct l1 as [|z l1]; cbn in E.
    + injection E as -> <-. left. exists a. done.
    + injection E as -> E. destruct (IH l1 E) as [(a2 & -> & ->)|(b1 & -> & ->)].
      * left. exists a2. done.
      * right. exists b1. done.
Qed.

Lemma create_precedes_index_app c a b :
  create_precedes_index c a -> create_precedes_index c b ->
  (Exists (creates_index c) a -> Forall (fun ev => ~ creates_collection c ev) b) ->
  create_precedes_index c (a ++ b).
Proof.
  intros Ha Hb Hab l1 x l2 E Hx.
  apply split_in_app in E as [(a2 & -> & ->)|(b1 & -> & ->)].
  - apply Forall_app. split; [by eapply Ha|].
    apply Hab, Exists_app. right. by constructor.
  - by eapply Hb.
Qed.

Lemma create_precedes_index_quiet c d :
  Forall (fun ev => ~ creates_index c ev) d -> create_precedes_index c d.
Proof.
  intros H l1 x l2 -> Hx. apply Forall_app in H as [_ H].
  apply Forall_cons in H as [H _]. done.
Qed.

Lemma no_schema_call_no_index c ev : no_schema_call ev -> ~ creates_index c ev.
Proof. intros H (k & o & x & ->). done. Qed.

Lemma no_schema_call_no_collection c ev : no_schema_call ev -> ~ creates_collection c ev.
Proof. intros H (v & o & ->). done. Qed.

Lemma index_event_no_collection c c' ev : index_event c ev -> ~ creates_collection c' ev.
Proof. intros H (v & o & ->). done. Qed.

Lemma index_event_index c c' ev : index_event c ev -> creates_index c' ev -> c' = c.
Proof. intros H (k & o & x & ->). done. Qed.

Lemma block_collections collections n b c :
  collection_block collections n b ->
  (Exists (creates_index c) b -> c = n)
  /\ (Exists (creates_collection c) b -> c = n).
Proof.
  intros Hb. split; intros Hex; apply Exists_exists in Hex as (ev & Hin & Hev).
  - destruct Hb as [o rest Hn Hrest|v e Hn|v o rest Hn Hrest].
    + apply elem_of_cons in Hin as [->|Hin]; [by destruct Hev as (? & ? & ? & [=])|].
      rewrite Forall_forall in Hrest. by eapply index_event_index; [apply Hrest|].
    + apply list_elem_of_singleton in Hin as ->. by destruct Hev as (? & ? & ? & [=]).
    + repeat (apply elem_of_cons in Hin as [->|Hin];
                [by destruct Hev as (? & ? & ? & [=])|]).
      rewrite Forall_forall in Hrest. by eapply index_event_index; [apply Hrest|].
  - destruct Hev as (v0 & o0 & ->).
    destruct Hb as [o rest Hn Hrest|v e Hn|v o rest Hn Hrest].
    + apply elem_of_cons in Hin as [[=]|Hin].
      rewrite Forall_forall in Hrest. by apply Hrest in Hin.
    + by apply list_elem_of_singleton in Hin as [= -> _ _].
    + apply elem_of_cons in Hin as [[= -> _ _]|Hin]; [done|].
      apply elem_of_cons in Hin as [[=]|Hin].
      apply elem_of_cons in Hin as [[=]|Hin].
      rewrite Forall_forall in Hrest. by apply Hrest in Hin.
Qed.

Lemma block_create_precedes collections n b c :
  collection_block collections n b -> create_precedes_index c b.
Proof.
  intros Hb.
  assert (forall head rest,
            Forall (fun ev => ~ creates_index c ev) head ->
            Forall (index_event n) rest ->
            create_precedes_index c (head ++ rest)) as Hshape.
  { intros head rest Hh Hr. apply create_precedes_index_app.
    - by apply create_precedes_index_quiet.
    - intros l1 x l2 -> _. apply Forall_app in Hr as [_ Hr].
      apply Forall_cons in Hr as [_ Hr].
      eapply Forall_impl; [exact Hr|]. intros ev. apply index_event_no_collection.
    - intros _. eapply Forall_impl; [exact Hr|]. intros ev.
      apply index_event_no_collection. }
  destruct Hb as [o rest Hn Hrest|v e Hn|v o rest Hn Hrest].
  - apply (Hshape [_] rest); [|done]. repeat constructor. by intros (? & ? & ? & [=]).
  - apply create_precedes_index_quiet. repeat constructor. by intros (? & ? & ? & [=]).
  - apply (Hshape [_; _; _] rest); [|done].
    repeat constructor; by intros (? & ? & ? & [=]).
Qed.

Lemma blocks_create_precedes collections names blocks c :
  NoDup names ->
  Forall2 (collection_block collections) (take (length blocks) names) blocks ->
  create_precedes_index c (concat blocks)
  /\ (Exists (creates_collection c) (concat blocks) -> c ∈ names).
Proof.
  intros Hnd. revert names Hnd.
  induction blocks as [|b blocks IH]; intros names Hnd HF; cbn.
  - split; [by apply create_precedes_index_quiet|]. intros H. by inversion H.
  - destruct names as [|n names]; cbn in HF; [by inversion HF|].
    apply Forall2_cons in HF as [Hb HF]. apply NoDup_cons in Hnd as [Hn Hnd].
    destruct (IH names Hnd HF) as [IH1 IH2].
    destruct (block_collections _ _ _ c Hb) as [Hci Hcc]. split.
    + apply create_precedes_index_app; [by eapply block_create_precedes|done|].
      intros Hex. apply Hci in Hex as ->.
      apply Forall_forall. intros ev Hin Hev. apply Hn, IH2.
      apply Exists_exists. eauto.
    + intros [H|H]%Exists_app.
      * apply Hcc in H as ->. apply elem_of_cons. by left.
      * apply elem_of_cons. right. by apply IH2.
Qed.

Lemma declared_names_NoDup : NoDup declared_names.
Proof. apply (bool_decide_unpack (NoDup declared_names)). by vm_compute. Qed.

Lemma ordered_blocks_create_precedes collections {A} (r : result A) d c :
  ordered_blocks collections r d -> create_precedes_index c d.
Proof.
  intros (before & blocks & after & -> & Hb & Ha & HF & _).
  destruct (blocks_create_precedes _ _ _ c declared_names_NoDup HF) as [H1 _].
  apply create_precedes_index_app.
  - apply create_precedes_index_quiet.
    eapply Forall_impl; [exact Hb|]. intros ev. apply no_schema_call_no_index.
  - apply create_precedes_index_app; [done| |].
    + apply create_precedes_index_quiet.
      eapply Forall_impl; [exact Ha|]. intros ev. apply no_schema_call_no_index.
    + intros _. eapply Forall_impl; [exact Ha|]. intros ev.
      apply no_schema_call_no_collection.
  - intros Hex. exfalso. apply Exists_exists in Hex as (ev & Hin & Hev).
    rewrite Forall_forall in Hb. by eapply no_schema_call_no_index; [apply Hb|].
Qed.

(** ** The index search *)

Lemma index_exists_matched existing keys options :
  index_exists existing keys options =
    match matched_index existing keys with
    | Some item => bool_decide (existing_options_of item.2 = options)
    | None => false
    end.
Proof.
  induction existing as [|item rest IH]; cbn; [done|].
  by destruct (key_matches keys item).
Qed.

Lemma matched_index_Some existing keys item :
  matched_index existing keys = Some item ->
  exists before after,
    existing = before ++ item :: after
    /\ info_key item.2 = keys
    /\ Forall (fun other => info_key other.2 <> keys) before.
Proof.
  induction existing as [|first rest IH]; cbn; [done|].
  unfold key_matches. case_bool_decide as Hk.
  - intros [= ->]. exists [], rest. split_and!; auto.
  - intros H. destruct (IH H) as (before & after & -> & Hkey & Hb).
    exists (first :: before), after. split_and!; auto.
Qed.

Lemma matched_index_None existing keys :
  matched_index existing keys = None <->
  Forall (fun other => info_key other.2 <> keys) existing.
Proof.
  induction existing as [|first rest IH]; cbn.
  - split; [constructor|done].
  - unfold key_matches. case_bool_decide as Hk.
    + split; [done|]. intros H. by inversion H.
    + rewrite IH. split; [by constructor|]. intros H. by inversion H.
Qed.

Lemma matched_index_app existing more keys :
  matched_index (existing ++ more) keys =
    match matched_index existing keys with
    | Some item => Some item
    | None => matched_index more keys
    end.
Proof.
  induction existing as [|first rest IH]; cbn; [done|].
  by destruct (key_matches keys first).
Qed.

Lemma index_exists_prefix existing existing' keys options :
  existing `prefix_of` existing' ->
  index_exists existing keys options = true ->
  index_exists existing' keys options = true.
Proof.
  intros [more ->]. rewrite !index_exists_matched, matched_index_app.
  by destruct (matched_index existing keys).
Qed.

Lemma matched_index_unique existing keys item :
  NoDup ((fun item => info_key item.2) <$> existing) ->
  item ∈ existing -> info_key item.2 = keys ->
  matched_index existing keys = Some item.
Proof.
  induction existing as [|first rest IH]; cbn; intros Hnd Hin Hk.
  - by apply elem_of_nil in Hin.
  - apply NoDup_cons in Hnd as [Hfirst Hnd]. unfold key_matches.
    apply elem_of_cons in Hin as [->|Hin].
    + by rewrite bool_decide_eq_true_2.
    + rewrite bool_decide_eq_false_2; [by apply IH|].
      intros E. apply Hfirst. rewrite E, <- Hk.
      apply list_elem_of_fmap. by exists item.
Qed.

(** The monadic loop computes the flag and logs when it is set. *)
Lemma search_existing_run c existing keys options w :
  search_existing c existing keys options w =
    (Ok (index_exists existing keys options),
     if index_exists existing keys options
     then push [EvLog Info (LIndexExists c keys options)] w
     else w).
Proof.
  induction existing as [|item rest IH]; cbn; [done|].
  destruct (key_matches keys item); [|exact IH].
  by destruct (bool_decide _).
Qed.

(** ** The options the store keeps *)

Lemma existing_options_lookup info k :
  existing_options_of info !! k =
    if bool_decide (k ∈ ["key"; "v"; "ns"]) then None else info_rest info !! k.
Proof.
  unfold existing_options_of. case_bool_decide as Hk.
  - apply map_lookup_filter_None. right. intros v _. cbn. auto.
  - destruct (info_rest info !! k) as [v|] eqn:E.
    + apply map_lookup_filter_Some. auto.
    + apply map_lookup_filter_None. auto.
Qed.

Lemma existing_options_same_rest info options :
  clean_options options ->
  delete "v" (info_rest info) = delete "v" options ->
  existing_options_of info = options.
Proof.
  intros (Hkey & Hv & Hns) E. apply map_eq. intros k.
  rewrite existing_options_lookup. case_bool_decide as Hk.
  - set_unfold. destruct Hk as [->|[->|[->|[]]]]; done.
  - assert (k <> "v") as Hkv by set_solver.
    rewrite <- (lookup_delete_ne (info_rest info) "v" k) by done.
    rewrite E. by rewrite lookup_delete_ne.
Qed.

Lemma existing_options_stored keys options :
  clean_options options ->
  existing_options_of {| info_key := keys; info_rest := stored_rest options |}
  = options.
Proof.
  intros Hc. apply existing_options_same_rest; [done|]. cbn.
  unfold stored_rest. destruct Hc as (_ & Hv & _). apply map_eq. intros k.
  destruct (decide (k = "v")) as [->|Hk].
  - by rewrite !lookup_delete_eq.
  - rewrite !lookup_delete_ne by done.
    rewrite lookup_union_l; [done|]. by rewrite lookup_singleton_ne.
Qed.

(** ** The store only grows *)

Lemma db_le_refl db : db_le db db.
Proof. unfold db_le. split_and!; [set_solver|intros; reflexivity|intros; reflexivity]. Qed.

Lemma db_le_trans db1 db2 db3 : db_le db1 db2 -> db_le db2 db3 -> db_le db1 db3.
Proof.
  intros (N1 & I1 & D1) (N2 & I2 & D2). unfold db_le. split_and!.
  - set_solver.
  - intros c. etrans; [apply I1|apply I2].
  - intros c. etrans; [apply D1|apply D2].
Qed.

Lemma grows_refl db : grows db db.
Proof. split; [apply db_le_refl|done]. Qed.

Lemma grows_trans db1 db2 db3 : grows db1 db2 -> grows db2 db3 -> grows db1 db3.
Proof. intros [L1 K1] [L2 K2]. split; [by eapply db_le_trans|lia]. Qed.

Lemma idx_of_insert coll l db_idx names vals docs oid coll' :
  idx_of {| db_names := names; db_validators := vals;
            db_indexes := <[coll := l]> db_idx; db_docs := docs;
            db_next_oid := oid |} coll'
  = if decide (coll = coll') then l else default [] (db_idx !! coll').
Proof.
  unfold idx_of. cbn. rewrite lookup_insert. by case_decide.
Qed.

Lemma born_indexes_prefix coll db : idx_of db coll `prefix_of` born_indexes coll db.
Proof.
  unfold idx_of, born_indexes. destruct (db_indexes db !! coll); cbn; [done|].
  apply prefix_nil.
Qed.

Lemma grows_touch coll db : grows db (touch coll db).
Proof.
  unfold touch. case_bool_decide; [apply grows_refl|].
  split; [unfold db_le; split_and!|]; cbn.
  - set_solver.
  - intros c. rewrite idx_of_insert. case_decide as E; [|done].
    subst. apply born_indexes_prefix.
  - done.
  - done.
Qed.

Lemma touch_present coll db : coll ∈ db_names db -> touch coll db = db.
Proof. intros H. unfold touch. by rewrite bool_decide_eq_true_2. Qed.

Lemma idx_of_touch_ne coll coll' db :
  coll' <> coll -> idx_of (touch coll db) coll' = idx_of db coll'.
Proof.
  intros Hne. unfold touch. case_bool_decide; [done|].
  rewrite idx_of_insert. by rewrite decide_False.
Qed.

Lemma touch_names coll db : coll ∈ db_names (touch coll db).
Proof. unfold touch. case_bool_decide; [done|]. cbn. set_solver. Qed.

Lemma grows_create_collection name validator db db1 :
  db_create_collection name validator db = Ok (tt, db1) ->
  grows db db1 /\ name ∈ db_names db1.
Proof.
  unfold db_create_collection. case_bool_decide; [done|]. intros [= <-].
  split; [split; [unfold db_le; split_and!|]|]; cbn.
  - set_solver.
  - intros c. rewrite idx_of_insert. case_decide as E; [|done].
    subst. apply born_indexes_prefix.
  - done.
  - done.
  - set_solver.
Qed.

Lemma existsb_false_Forall {A} (f : A -> bool) l :
  existsb f l = false -> Forall (fun x => f x = false) l.
Proof.
  induction l as [|x l IH]; cbn; [constructor|].
  intros [? ?]%orb_false_iff. constructor; auto.
Qed.

(** What an accepted [create_index] does: nothing, or it appends the
    requested index to the list of its collection. *)
Lemma create_index_Ok coll keys options db name db1 :
  db_create_index coll keys options db = Ok (name, db1) ->
  (db1 = touch coll db
   /\ existsb (same_index name keys options) (idx_of (touch coll db) coll) = true)
  \/ (idx_of db1 coll = idx_of (touch coll db) coll
                          ++ [(name, {| info_key := keys;
                                        info_rest := stored_rest options |})]
      /\ (forall c, c <> coll -> idx_of db1 c = idx_of (touch coll db) c)
      /\ db_names db1 = db_names (touch coll db)
      /\ db_docs db1 = db_docs (touch coll db)
      /\ db_next_oid db1 = db_next_oid (touch coll db)).
Proof.
  unfold db_create_index. set (db0 := touch coll db).
  destruct (existsb (same_index _ keys options) (idx_of db0 coll)) eqn:Esame.
  { intros [= <- <-]. by left. }
  destruct (existsb (name_taken _) (idx_of db0 coll)); [done|].
  intros [= <- <-]. right. split_and!; try done.
  - by rewrite idx_of_insert, decide_True.
  - intros c Hc. by rewrite idx_of_insert, decide_False.
Qed.

Lemma create_index_result coll keys options db name db1 :
  db_create_index coll keys options db = Ok (name, db1) ->
  grows db db1
  /\ (forall c, c <> coll -> idx_of db1 c = idx_of db c)
  /\ (coll ∈ db_names db ->
      forall keys', keys' <> keys ->
        matched_index (idx_of db1 coll) keys' = matched_index (idx_of db coll) keys')
  /\ (coll ∈ db_names db -> clean_options options ->
      matched_index (idx_of db coll) keys = None ->
      index_exists (idx_of db1 coll) keys options = true).
Proof.
  intros E. pose proof (grows_touch coll db) as Ht.
  apply create_index_Ok in E as [[-> Esame]|(Hi & Ho & Hn & Hd & Hoid)].
  - split_and!; [done| | |].
    + intros c Hc. by apply idx_of_touch_ne.
    + intros Hin keys' _. by rewrite touch_present.
    + intros Hin Hc Hnone. rewrite touch_present in * by done.
      apply existsb_exists in Esame as (item & Hin' & Hs).
      unfold same_index in Hs.
      apply andb_prop in Hs as [Hs _]. apply andb_prop in Hs as [_ Hkey].
      apply bool_decide_eq_true in Hkey.
      apply matched_index_None in Hnone. rewrite Forall_forall in Hnone.
      destruct (Hnone item); [by apply list_elem_of_In|done].
  - split_and!.
    + eapply grows_trans; [exact Ht|]. split; [unfold db_le; split_and!|].
      * by rewrite Hn.
      * intros c. destruct (decide (c = coll)) as [->|Hc].
        -- rewrite Hi. by apply prefix_app_r.
        -- by rewrite Ho.
      * intros c. unfold docs_of. by rewrite Hd.
      * by rewrite Hoid.
    + intros c Hc. rewrite Ho by done. by apply idx_of_touch_ne.
    + intros Hin keys' Hk. rewrite Hi, touch_present by done.
      rewrite matched_index_app. destruct (matched_index (idx_of db coll) keys'); [done|].
      cbn. unfold key_matches. cbn. by rewrite bool_decide_eq_false_2.
    + intros Hin Hc Hnone. rewrite Hi, touch_present by done.
      rewrite index_exists_matched, matched_index_app, Hnone. cbn.
      unfold key_matches. cbn. rewrite bool_decide_eq_true_2 by done. cbn.
      apply bool_decide_eq_true. by apply existing_options_stored.
Qed.

Lemma docs_of_insert coll l db_ds names vals idxs oid coll' :
  docs_of {| db_names := names; db_validators := vals;
             db_indexes := idxs; db_docs := <[coll := l]> db_ds;
             db_next_oid := oid |} coll'
  = if decide (coll = coll') then l else default [] (db_ds !! coll').
Proof.
  unfold docs_of. cbn. rewrite lookup_insert. by case_decide.
Qed.

(** What an accepted [insert_one] does: the document, with its ['_id'], is
    appended to the collection; its ['_id'] was free and no unique index had
    one of its keys. *)
Lemma insert_one_Ok coll d db db1 :
  db_insert_one coll d db = Ok (tt, db1) ->
  db1 = {| db_names := db_names (touch coll db);
           db_validators := db_validators (touch coll db);
           db_indexes := db_indexes (touch coll db);
           db_docs := <[coll := docs_of (touch coll db) coll
                                ++ [with_id (db_next_oid (touch coll db)) d]]>
                        (db_docs (touch coll db));
           db_next_oid := S (db_next_oid (touch coll db)) |}
  /\ array_id (with_id (db_next_oid (touch coll db)) d) = false
  /\ id_taken (with_id (db_next_oid (touch coll db)) d)
       (docs_of (touch coll db) coll) = false
  /\ duplicate_key (idx_of (touch coll db) coll) (docs_of (touch coll db) coll)
       (with_id (db_next_oid (touch coll db)) d) = false.
Proof.
  unfold db_insert_one. cbn zeta.
  destruct (array_id _); [done|].
  destruct (id_taken _ _) eqn:Eid; [done|].
  destruct (duplicate_key _ _ _) eqn:Edup; [done|].
  cbn. by intros [= <-].
Qed.

Lemma insert_one_result coll d db db1 :
  db_insert_one coll d db = Ok (tt, db1) ->
  grows db db1 /\ docs_of db1 coll <> [].
Proof.
  intros E. apply insert_one_Ok in E as (-> & _).
  pose proof (grows_touch coll db) as Ht. set (db0 := touch coll db) in *.
  split.
  - eapply grows_trans; [exact Ht|]. split; [unfold db_le; split_and!|]; cbn; [done|done| |lia].
    intros c. rewrite docs_of_insert. case_decide as E; [|done].
    subst. by apply prefix_app_r.
  - rewrite docs_of_insert, decide_True by done.
    by destruct (docs_of db0 coll).
Qed.

Lemma insert_many_result coll ds db db1 :
  db_insert_many coll ds db = Ok (tt, db1) ->
  grows db db1 /\ (ds <> [] -> docs_of db1 coll <> []).
Proof.
  revert db. induction ds as [|d ds IH]; cbn; intros db.
  - intros [= <-]. split; [apply grows_refl|done].
  - destruct (db_insert_one coll d db) as [[[] db0]|e] eqn:E; [|done].
    intros H. apply insert_one_result in E as [G Hne].
    apply IH in H as [G' _]. split; [by eapply grows_trans|].
    intros _. destruct G' as [(_ & _ & Hd) _]. specialize (Hd coll).
    destruct Hd as [more ->]. by destruct (docs_of db0 coll).
Qed.

(** ** What a computation does to the store *)

Lemma post_weaken {A} (m : M A) (R R' : db_state -> result A -> db_state -> Prop) :
  post m R -> (forall db r db', R db r db' -> R' db r db') -> post m R'.
Proof. intros H HR w. auto. Qed.

Lemma post_keeps {A} (m : M A) (R : db_state -> result A -> db_state -> Prop) :
  keeps_db m -> (forall db r, R db r db) -> post m R.
Proof. intros H HR w. rewrite H. auto. Qed.

Lemma post_driver {A} c (sem : db_state -> result (A * db_state))
    (R : db_state -> result A -> db_state -> Prop) :
  (forall db a db1, sem db = Ok (a, db1) -> R db (Ok a) db1) ->
  (forall db e, R db (Raise e) db) ->
  post (driver c sem) R.
Proof.
  intros HOk HRaise w. unfold driver.
  destruct (w_faults w (w_calls w) c) as [e|]; cbn; [auto|].
  destruct (sem (w_db w)) as [[a db1]|e] eqn:E; cbn; auto.
Qed.

Lemma post_bind {A B} (m : M A) (f : A -> M B) R1 R2
    (Q : db_state -> result B -> db_state -> Prop) :
  post m R1 ->
  (forall a, post (f a) (R2 a)) ->
  (forall db e db', R1 db (Raise e) db' -> Q db (Raise e) db') ->
  (forall db a db1 r db2, R1 db (Ok a) db1 -> R2 a db1 r db2 -> Q db r db2) ->
  post (m ≫= f) Q.
Proof.
  intros Hm Hf HR HO w. rewrite run_bind. specialize (Hm w).
  destruct (m w) as [[a|e] w1]; cbn in *; [|auto].
  specialize (Hf a w1). eauto.
Qed.

Lemma grows_and_bind {A B} (m : M A) (f : A -> M B) P1 P2
    (Q : db_state -> B -> db_state -> Prop) :
  post m (grows_and P1) ->
  (forall a, post (f a) (grows_and (P2 a))) ->
  (forall db a db1 b db2,
     P1 db a db1 -> P2 a db1 b db2 -> grows db db1 -> grows db1 db2 -> Q db b db2) ->
  post (m ≫= f) (grows_and Q).
Proof.
  intros Hm Hf HQ.
  apply (post_bind m f (grows_and P1) (fun a => grows_and (P2 a))); auto.
  - intros db e db' [G _]. split; [done|]. intros a [=].
  - intros db a db1 r db2 [G1 H1] [G2 H2]. split; [by eapply grows_trans|].
    intros b ->. eauto.
Qed.

Lemma grows_and_keeps {A} (m : M A) (P : db_state -> A -> db_state -> Prop) :
  keeps_db m -> (forall w a, (m w).1 = Ok a -> P (w_db w) a (w_db w)) ->
  post m (grows_and P).
Proof.
  intros HK HP w. rewrite HK. split; [apply grows_refl|]. intros a E. by apply HP.
Qed.

(** ** A successful run settles the store *)

Lemma reconciled_index_stable db db' c keys options :
  db_le db db' ->
  index_exists (idx_of db c) keys options = true ->
  index_exists (idx_of db' c) keys options = true.
Proof. intros (_ & H & _). apply index_exists_prefix, H. Qed.

Lemma aligned_not_found existing index :
  aligned existing index = true ->
  index_exists existing (ix_key index) (options_of index) = false ->
  matched_index existing (ix_key index) = None.
Proof.
  unfold aligned. rewrite index_exists_matched.
  destruct (matched_index _ _); [|done]. by intros ->.
Qed.

Lemma aligned_found existing index :
  index_exists existing (ix_key index) (options_of index) = true ->
  aligned existing index = true.
Proof.
  unfold aligned. rewrite index_exists_matched.
  by destruct (matched_index _ _).
Qed.

Lemma aligned_born c db index :
  ix_key index <> info_key id_index.2 ->
  aligned (idx_of db c) index = true -> aligned (born_indexes c db) index = true.
Proof.
  intros Hk. unfold idx_of, born_indexes, aligned.
  destruct (db_indexes db !! c); cbn; [done|]. intros _.
  unfold key_matches. rewrite bool_decide_eq_false_2; [done|].
  intros E. by apply Hk.
Qed.

Lemma create_collection_indexes name validator db db1 :
  db_create_collection name validator db = Ok (tt, db1) ->
  idx_of db1 name = born_indexes name db
  /\ forall c, c <> name -> idx_of db1 c = idx_of db c.
Proof.
  unfold db_create_collection. case_bool_decide; [done|]. intros [= <-]. split.
  - by rewrite idx_of_insert, decide_True.
  - intros c Hc. by rewrite idx_of_insert, decide_False.
Qed.

(** One declared index: an accepted request adds an index with the declared
    key to the collection and touches nothing else; when no live index had
    that key, the search finds the new one. *)
Lemma reconcile_index_result c existing index :
  clean_options (options_of index) ->
  post (reconcile_index c existing index)
    (grows_and (fun db _ db' =>
       c ∈ db_names db ->
       (forall c', c' <> c -> idx_of db' c' = idx_of db c')
       /\ (forall keys, keys <> ix_key index ->
             matched_index (idx_of db' c) keys = matched_index (idx_of db c) keys)
       /\ (existing `prefix_of` idx_of db c ->
           matched_index (idx_of db c) (ix_key index)
           = matched_index existing (ix_key index) ->
           aligned existing index = true ->
           index_exists (idx_of db' c) (ix_key index) (options_of index) = true))).
Proof.
  intros Hc w. unfold reconcile_index. rewrite run_bind, search_existing_run.
  destruct (index_exists existing _ _) eqn:Eflag; cbn.
  - split; [apply grows_refl|]. intros ? _ Hin. split_and!; [done|done|].
    intros Hp _ _. by apply (index_exists_prefix existing).
  - unfold create_index, driver. rewrite run_bind.
    destruct (w_faults w (w_calls w) _) as [e|]; cbn.
    { split; [apply grows_refl|]. intros a [=]. }
    destruct (db_create_index _ _ _ _) as [[name db1]|e] eqn:E; cbn.
    + apply create_index_result in E as (G & Hf & Hm & Hi). split; [done|].
      intros ? _ Hin. split_and!; [done|by apply Hm|].
      intros Hp Hsame Ha. apply Hi; [done|done|].
      rewrite Hsame. by apply aligned_not_found.
    + split; [apply grows_refl|]. intros a [=].
Qed.

Lemma reconcile_indexes_result c existing indexes :
  Forall (fun index => clean_options (options_of index)) indexes ->
  post (for_each indexes (reconcile_index c existing))
    (grows_and (fun db _ db' =>
       c ∈ db_names db -> NoDup (ix_key <$> indexes) ->
       (forall c', c' <> c -> idx_of db' c' = idx_of db c')
       /\ (forall keys, keys ∉ ix_key <$> indexes ->
             matched_index (idx_of db' c) keys = matched_index (idx_of db c) keys)
       /\ (existing `prefix_of` idx_of db c ->
           Forall (fun index =>
                     matched_index (idx_of db c) (ix_key index)
                     = matched_index existing (ix_key index)
                     /\ aligned existing index = true) indexes ->
           Forall (fun index =>
                     index_exists (idx_of db' c) (ix_key index) (options_of index) = true)
                  indexes))).
Proof.
  induction 1 as [|index rest Hc Hrest IH]; cbn [for_each].
  - apply grows_and_keeps; [apply keeps_ret|]. intros w a _ Hin Hnd.
    split_and!; [done|done|constructor].
  - eapply grows_and_bind; [by apply reconcile_index_result|intros ?; exact IH|].
    cbn. intros db ? db1 ? db2 H1 H2 G1 G2 Hin Hnd.
    apply NoDup_cons in Hnd as [Hfresh Hnd].
    assert (c ∈ db_names db1) as Hin1 by (by apply G1).
    destruct (H1 Hin) as (F1 & M1 & I1). destruct (H2 Hin1 Hnd) as (F2 & M2 & I2).
    split_and!.
    + intros c' Hc'. by rewrite F2, F1.
    + intros keys Hk. apply not_elem_of_cons in Hk as [Hk1 Hk2]. by rewrite M2, M1.
    + intros Hp HF. apply Forall_cons in HF as [[Hm Ha] HF]. constructor.
      * eapply reconciled_index_stable; [apply G2|]. by apply I1.
      * apply I2; [etrans; [exact Hp|]; apply G1|].
        rewrite Forall_forall in HF. apply Forall_forall. intros i Hi.
        destruct (HF i Hi) as [Hmi Hai]. split; [|done].
        rewrite M1; [done|]. intros Heq. apply Hfresh. rewrite <- Heq.
        apply list_elem_of_fmap. by exists i.
Qed.

Lemma reconciled_stable db db' entry :
  db_le db db' -> reconciled db entry -> reconciled db' entry.
Proof.
  intros Hle [Hn Hi]. split; [by apply Hle|].
  eapply Forall_impl; [exact Hi|]. intros index. by apply reconciled_index_stable.
Qed.

(** One declared collection: only its own index list changes, and when its
    declared indexes were aligned with the live ones it is reconciled. *)
Lemma reconcile_collection_result collections entry :
  well_declared entry ->
  post (reconcile_collection collections entry)
    (grows_and (fun db _ db' =>
       collections ⊆ db_names db ->
       (forall c', c' <> entry.1 -> idx_of db' c' = idx_of db c')
       /\ (Forall (fun index => aligned (idx_of db entry.1) index = true)
                  (declared_indexes entry) ->
           reconciled db' entry))).
Proof.
  intros (Hc & Hnd & Hid). destruct entry as [c config].
  unfold reconcile_collection, reconciled, declared_indexes in *. cbn [fst snd] in *.
  eapply (grows_and_bind _ _
            (fun db _ db' => collections ⊆ db_names db ->
               c ∈ db_names db'
               /\ (forall c', c' <> c -> idx_of db' c' = idx_of db c')
               /\ (forall index, ix_key index <> info_key id_index.2 ->
                     aligned (idx_of db c) index = true ->
                     aligned (idx_of db' c) index = true))
            (fun _ db _ db' => c ∈ db_names db ->
               (forall c', c' <> c -> idx_of db' c' = idx_of db c')
               /\ (Forall (fun index => aligned (idx_of db c) index = true)
                          (default [] (cfg_indexes config)) ->
                   Forall (fun index => index_exists (idx_of db' c) (ix_key index)
                                          (options_of index) = true)
                          (default [] (cfg_indexes config))))).
  - case_bool_decide as Hin.
    + eapply (grows_and_bind _ _
                (fun db _ db' => c ∈ db_names db'
                   /\ idx_of db' c = born_indexes c db
                   /\ forall c', c' <> c -> idx_of db' c' = idx_of db c')
                (fun _ db _ db' => db' = db)).
      * unfold create_collection. apply post_driver.
        -- intros db [] db1 E.
           pose proof (create_collection_indexes _ _ _ _ E) as [Hb Hf].
           apply grows_create_collection in E as [G Hn].
           split; [done|]. auto.
        -- intros db e. split; [apply grows_refl|]. intros a [=].
      * intros ?. apply grows_and_keeps; [apply keeps_log|]. done.
      * intros db ? db1 ? db2 (Hn & Hb & Hf) -> _ _ _. split_and!; [done|done|].
        intros index Hk Ha. rewrite Hb. by apply aligned_born.
    + apply grows_and_keeps; [apply keeps_ret|]. intros w a _ Hsub.
      split_and!; [by apply Hsub|done|done].
  - intros ?.
    eapply (grows_and_bind _ _ (fun db existing db' => db' = db /\ existing = idx_of db c)
              (fun existing db _ db' => c ∈ db_names db -> existing = idx_of db c ->
                 (forall c', c' <> c -> idx_of db' c' = idx_of db c')
                 /\ (Forall (fun index => aligned (idx_of db c) index = true)
                            (default [] (cfg_indexes config)) ->
                     Forall (fun index => index_exists (idx_of db' c) (ix_key index)
                                            (options_of index) = true)
                            (default [] (cfg_indexes config))))).
    + unfold index_information. apply post_driver.
      * intros db l db1 [= <- <-]. split; [apply grows_refl|]. by intros ? [= <-].
      * intros db e. split; [apply grows_refl|]. intros ? [=].
    + intros existing. eapply post_weaken; [by apply reconcile_indexes_result|].
      intros db r db' [G H]. split; [done|]. intros u Er Hin ->.
      destruct (H u Er Hin Hnd) as (F & M & I). split; [done|].
      intros HA. apply I; [done|]. eapply Forall_impl; [exact HA|]. by intros i Hi.
    + intros db existing db1 ? db2 [-> ->] H2 _ _ Hin. by apply H2.
  - cbn. intros db ? db1 ? db2 H1 H2 G1 G2 Hsub.
    destruct (H1 Hsub) as (Hn & F1 & A1). destruct (H2 Hn) as (F2 & I2). split.
    + intros c' Hc'. by rewrite F2, F1.
    + intros HA. split; [by apply G2|].
      apply I2. rewrite Forall_forall in HA, Hid. apply Forall_forall.
      intros i Hi. apply A1; [by apply Hid|by apply HA].
Qed.

Lemma reconcile_collections_result collections entries :
  Forall well_declared entries ->
  post (for_each entries (reconcile_collection collections))
    (grows_and (fun db _ db' =>
       collections ⊆ db_names db -> NoDup entries.*1 ->
       Forall (fun entry =>
                 Forall (fun index => aligned (idx_of db entry.1) index = true)
                        (declared_indexes entry)) entries ->
       Forall (reconciled db') entries)).
Proof.
  induction 1 as [|entry rest Hc Hrest IH]; cbn [for_each].
  - apply grows_and_keeps; [apply keeps_ret|]. intros. constructor.
  - eapply grows_and_bind;
      [by apply reconcile_collection_result|intros ?; exact IH|].
    cbn. intros db ? db1 ? db2 H1 H2 G1 G2 Hsub Hnd HA.
    apply NoDup_cons in Hnd as [Hfresh Hnd]. apply Forall_cons in HA as [Ha HA].
    destruct (H1 Hsub) as [F1 R1]. constructor.
    + eapply reconciled_stable; [apply G2|]. auto.
    + apply H2; [etrans; [exact Hsub|]; apply G1|done|].
      rewrite Forall_forall in HA. apply Forall_forall. intros e He.
      rewrite F1; [by apply HA|].
      intros Heq. apply Hfresh. rewrite <- Heq. apply list_elem_of_fmap. by exists e.
Qed.

Lemma for_each_insert_one_result coll ds :
  post (for_each ds (insert_one coll))
    (grows_and (fun _ _ db' => ds <> [] -> docs_of db' coll <> [])).
Proof.
  induction ds as [|d ds IH]; cbn [for_each].
  - apply grows_and_keeps; [apply keeps_ret|]. done.
  - eapply (grows_and_bind _ _ (fun _ _ db' => docs_of db' coll <> [])).
    + unfold insert_one. apply post_driver.
      * intros db [] db1 E. apply insert_one_result in E as [G Hne].
        split; [done|]. auto.
      * intros db e. split; [apply grows_refl|]. intros a [=].
    + intros ?. exact IH.
    + cbn. intros db ? db1 ? db2 H1 _ _ [(_ & _ & Hd) _] _.
      destruct (Hd coll) as [more ->]. by destruct (docs_of db1 coll).
Qed.

Lemma count_documents_result coll :
  post (count_documents coll)
    (grows_and (fun db n db' => db' = db /\ n = length (docs_of db coll))).
Proof.
  unfold count_documents. apply post_driver.
  - intros db a db1 [= <- <-]. split; [apply grows_refl|]. by intros ? [= <-].
  - intros db e. split; [apply grows_refl|]. intros a [=].
Qed.

Lemma seed_branch_result coll n (m : M unit) :
  post m (grows_and (seeded coll)) ->
  post (if Nat.eqb n 0 then m else mret tt)
       (grows_and (fun db _ db' =>
          n = length (docs_of db coll) -> docs_of db' coll <> [])).
Proof.
  intros Hm. destruct (Nat.eqb_spec n 0) as [->|Hn].
  - eapply post_weaken; [exact Hm|]. intros db r db' [G H]. split; [done|].
    intros u E _. by apply (H u).
  - apply grows_and_keeps; [apply keeps_ret|]. intros w u _ ->.
    by destruct (docs_of (w_db w) coll).
Qed.

Lemma seed_with_result coll (m : M unit) :
  post m (grows_and (seeded coll)) ->
  post (n ← count_documents coll ; if Nat.eqb n 0 then m else mret tt)
       (grows_and (seeded coll)).
Proof.
  intros Hm.
  eapply grows_and_bind;
    [apply count_documents_result|intros n; by apply seed_branch_result|].
  cbn. intros db n db1 ? db2 [-> ->] H2 _ _. by apply H2.
Qed.

Lemma seed_courses_result : post seed_courses (grows_and (seeded "courses")).
Proof.
  unfold seed_courses.
  eapply grows_and_bind; [apply count_documents_result| |].
  - intros n.
    eapply (grows_and_bind _ _ _ (fun _ db _ db' => db' = db)).
    + apply (seed_branch_result "courses").
      eapply (grows_and_bind _ _ (seeded "courses") (fun _ db _ db' => db' = db)).
      * eapply post_weaken; [apply for_each_insert_one_result|].
        intros db r db' [G H]. split; [done|]. intros u E. by apply (H u).
      * intros ?. apply grows_and_keeps; [apply keeps_log|]. done.
      * intros db ? db1 ? db2 H1 -> _ _. done.
    + intros ?. apply grows_and_keeps; [|done].
      unfold find_all_without_id. apply keeps_bind; [apply keeps_reading|]. done.
    + cbn. intros db ? db1 ? db2 H1 -> _ _. exact H1.
  - cbn. intros db n db1 ? db2 [-> ->] H2 _ _. by apply H2.
Qed.

Lemma seed_many_result coll ds msg :
  ds <> [] ->
  post (n ← count_documents coll ;
        if Nat.eqb n 0 then insert_many coll ds ≫= fun _ => log Info msg
        else mret tt)
       (grows_and (seeded coll)).
Proof.
  intros Hds. apply seed_with_result.
  eapply (grows_and_bind _ _ (seeded coll) (fun _ db _ db' => db' = db)).
  - unfold insert_many. apply post_driver.
    + intros db [] db1 E. apply insert_many_result in E as [G Hne].
      split; [done|]. intros ? _. by apply Hne.
    + intros db e. split; [apply grows_refl|]. intros ? [=].
  - intros ?. apply grows_and_keeps; [apply keeps_log|]. done.
  - intros db ? db1 ? db2 H1 -> _ _. done.
Qed.

Lemma declarations_well_formed : Forall well_declared collection_schemas.
Proof.
  unfold collection_schemas.
  repeat (apply Forall_cons_2; [|]); try apply Forall_nil_2;
    (split_and!;
     [ repeat constructor; vm_compute; reflexivity
     | apply (bool_decide_unpack _); vm_compute; reflexivity
     | repeat constructor; vm_compute; discriminate ]).
Qed.

Lemma seeded_stable coll db db' :
  db_le db db' -> docs_of db coll <> [] -> docs_of db' coll <> [].
Proof.
  intros (_ & _ & Hd) Hne. destruct (Hd coll) as [more ->].
  by destruct (docs_of db coll).
Qed.

Lemma reconcile_and_seed_result trans :
  post (reconcile_and_seed trans)
    (grows_and (fun db _ db' => no_divergent_index db -> settled db')).
Proof.
  unfold reconcile_and_seed.
  eapply (grows_and_bind _ _ (fun db _ db' => db' = db)
            (fun _ db _ db' => no_divergent_index db -> settled db')).
  { apply grows_and_keeps; [apply keeps_get_db|done]. }
  2: { intros db ? db1 ? db2 -> H2 _ _. done. }
  intros ?.
  eapply (grows_and_bind _ _ (fun db _ db' => db' = db)
            (fun _ db _ db' => no_divergent_index db -> settled db')).
  { apply grows_and_keeps; [apply keeps_log|done]. }
  2: { intros db ? db1 ? db2 -> H2 _ _. done. }
  intros ?.
  eapply (grows_and_bind _ _ (fun db collections db' => db' = db /\ collections = db_names db)
            (fun collections db _ db' =>
               no_divergent_index db -> collections ⊆ db_names db -> settled db')).
  { unfold list_collection_names. apply post_driver.
    - intros db l db1 [= <- <-]. split; [apply grows_refl|]. by intros ? [= <-].
    - intros db e. split; [apply grows_refl|]. intros ? [=]. }
  2: { intros db ? db1 ? db2 [-> ->] H2 _ _ Hd. by apply H2. }
  intros collections.
  eapply (grows_and_bind _ _ _ (fun _ _ _ db' =>
            docs_of db' "courses" <> [] /\ docs_of db' "tax_rates" <> []
            /\ docs_of db' "payment_locations" <> []));
    [apply reconcile_collections_result, declarations_well_formed| |].
  - intros ?.
    eapply (grows_and_bind _ _ (seeded "courses") (fun _ _ _ db' =>
              docs_of db' "tax_rates" <> [] /\ docs_of db' "payment_locations" <> []));
      [apply seed_courses_result| |].
    + intros ?.
      eapply (grows_and_bind _ _ (seeded "tax_rates") (fun _ => seeded "payment_locations")).
      * by apply seed_many_result.
      * intros ?. by apply seed_many_result.
      * intros db ? db1 ? db2 H1 H2 _ G2. split; [|done].
        eapply seeded_stable; [apply G2|done].
    + intros db ? db1 ? db2 H1 [H2 H3] _ G2. split; [|done].
      eapply seeded_stable; [apply G2|done].
  - cbn. intros db ? db1 ? db2 H1 H2 G1 G2 Hd Hsub. split; [|done].
    eapply Forall_impl; [apply H1; [done|apply declared_names_NoDup|exact Hd]|].
    intros entry. apply reconciled_stable, G2.
Qed.

(** After a run that returned, on a store without divergent index, the
    store is settled. *)
Lemma initialize_database_settles trans w w1 :
  no_divergent_index (w_db w) ->
  initialize_database trans w = (Ok tt, w1) ->
  settled (w_db w1).
Proof.
  intros Hd E.
  assert (post (initialize_database trans)
            (grows_and (fun db _ db' => no_divergent_index db -> settled db'))) as H.
  { unfold initialize_database.
    eapply (grows_and_bind _ _ (fun db _ db' => db' = db)
              (fun _ db _ db' => no_divergent_index db -> settled db')).
    - apply grows_and_keeps; [apply keeps_retry_loop|done].
    - intros ? w0. unfold try_except.
      pose proof (reconcile_and_seed_result trans w0) as [G H].
      destruct (reconcile_and_seed trans w0) as [[[]|e] w2]; cbn in *.
      + split; [done|]. intros ? _. by apply (H tt).
      + split; [done|]. intros ? [=].
    - intros db ? db1 ? db2 -> H2 _ _. done. }
  specialize (H w). rewrite E in H. destruct H as [_ H]. by apply (H tt).
Qed.

(** ** A run on a settled store writes nothing *)

Lemma push_nil w : push [] w = w.
Proof. destruct w. unfold push. cbn. by rewrite app_nil_r. Qed.

Lemma push_push a b w : push b (push a w) = push (a ++ b) w.
Proof. unfold push. cbn. by rewrite app_assoc. Qed.

Lemma reconcile_index_found c existing index w :
  index_exists existing (ix_key index) (options_of index) = true ->
  reconcile_index c existing index w =
    (Ok tt, push [EvLog Info (LIndexExists c (ix_key index) (options_of index))] w).
Proof.
  intros H. unfold reconcile_index. rewrite run_bind, search_existing_run, H.
  reflexivity.
Qed.

Lemma reconcile_indexes_found c existing indexes w :
  Forall (fun index =>
            index_exists existing (ix_key index) (options_of index) = true) indexes ->
  for_each indexes (reconcile_index c existing) w =
    (Ok tt, push ((fun index => EvLog Info (LIndexExists c (ix_key index) (options_of index)))
                    <$> indexes) w).
Proof.
  intros H. revert w. induction H as [|index rest Hi Hrest IH]; intros w; cbn [for_each].
  - by rewrite push_nil.
  - rewrite run_bind, reconcile_index_found by done. rewrite IH, push_push. done.
Qed.

Lemma quiet_bind {A B} (m : M A) (f : A -> M B) P V
    (V' : db_state -> B -> Prop) :
  sat m (quiet P V) ->
  (forall a, sat (f a) (quiet (fun db => P db /\ V db a) V')) ->
  sat (m ≫= f) (quiet P V').
Proof.
  intros Hm Hf.
  apply (sat_bind m f (quiet P V) (fun a => quiet (fun db => P db /\ V db a) V')); auto.
  - intros db e d db' H HP. destruct (H HP) as (-> & Hd & _).
    split_and!; auto. intros b [=].
  - intros db a d1 db1 r d2 db2 H1 H2 HP.
    destruct (H1 HP) as (-> & Hd1 & Ha).
    destruct H2 as (-> & Hd2 & Hb); [split; auto|].
    split_and!; auto. by apply Forall_app.
Qed.

Lemma quiet_reads {A} (m : M A) P (V : db_state -> A -> Prop) :
  traces m (only no_write_call) -> keeps_db m ->
  (forall w a, P (w_db w) -> (m w).1 = Ok a -> V (w_db w) a) ->
  sat m (quiet P V).
Proof.
  intros Ht Hk HV w. destruct (Ht w) as (d & E & Hd). exists d.
  split; [done|]. intros HP. split_and!; auto.
Qed.

Lemma quiet_weaken {A} (m : M A) (P P' : db_state -> Prop)
    (V V' : db_state -> A -> Prop) :
  sat m (quiet P V) -> (forall db, P' db -> P db) ->
  (forall db a, P' db -> V db a -> V' db a) -> sat m (quiet P' V').
Proof.
  intros H HP HV. eapply sat_weaken; [exact H|].
  intros db r d db' Hq HP'. destruct (Hq (HP db HP')) as (-> & Hd & Ha).
  split_and!; auto.
Qed.

Lemma sat_intro {A} (m : M A) P0
    (R : db_state -> result A -> list event -> db_state -> Prop) :
  traces m P0 ->
  (forall w d, w_trace (m w).2 = w_trace w ++ d ->
               R (w_db w) (m w).1 d (w_db (m w).2)) ->
  sat m R.
Proof. intros Ht H w. destruct (Ht w) as (d & E & _). eauto. Qed.

Lemma quiet_reconcile_collection collections entry :
  sat (reconcile_collection collections entry)
      (quiet (fun db => collections = db_names db /\ reconciled db entry) anything).
Proof.
  apply (sat_intro _ _ _ (abort_reconcile_collection collections entry)).
  intros w d E [-> [Hn Hi]]. revert E.
  destruct entry as [c config]. unfold reconcile_collection. cbn [fst snd] in *.
  rewrite bool_decide_eq_false_2 by (intros H; by apply H).
  rewrite run_bind. cbn. rewrite run_bind.
  unfold index_information, driver.
  destruct (w_faults w (w_calls w) _) as [e|]; cbn.
  - intros <-%app_inv_head. split_and!; [done|by repeat constructor|done].
  - rewrite reconcile_indexes_found by done. cbn. rewrite <- app_assoc.
    intros <-%app_inv_head. split_and!; [done| |done].
    constructor; [done|]. apply Forall_fmap, Forall_true. done.
Qed.

Lemma quiet_reconcile_collections collections entries :
  sat (for_each entries (reconcile_collection collections))
      (quiet (fun db => collections = db_names db /\ Forall (reconciled db) entries)
             anything).
Proof.
  induction entries as [|entry rest IH]; cbn [for_each].
  - apply quiet_reads; [apply only_ret|apply keeps_ret|done].
  - apply (quiet_bind _ _ _ anything).
    + eapply quiet_weaken; [apply quiet_reconcile_collection| |done].
      intros db [-> H]. split; [done|]. by inversion H.
    + intros ?. eapply quiet_weaken; [exact IH| |done].
      intros db [[-> H] _]. split; [done|]. by inversion H.
Qed.

Lemma quiet_count_documents coll :
  sat (count_documents coll)
      (quiet (fun _ => True) (fun db n => n = length (docs_of db coll))).
Proof.
  unfold count_documents. apply sat_driver.
  - intros db n db1 [= <- <-] _. split_and!; [done|by repeat constructor|].
    by intros ? [= <-].
  - intros db e _. split_and!; [done|by repeat constructor|done].
Qed.

Lemma quiet_seed_branch coll n (m : M unit) :
  traces m (only (fun _ => True)) ->
  sat (if Nat.eqb n 0 then m else mret tt)
      (quiet (fun db => docs_of db coll <> [] /\ n = length (docs_of db coll)) anything).
Proof.
  intros Hm. destruct (Nat.eqb_spec n 0) as [->|Hn].
  - apply (sat_intro _ _ _ Hm). intros w d _ [Hne E].
    by destruct (docs_of (w_db w) coll).
  - apply quiet_reads; [apply only_ret|apply keeps_ret|done].
Qed.

Lemma quiet_seed coll (m : M unit) :
  traces m (only (fun _ => True)) ->
  sat (n ← count_documents coll ; if Nat.eqb n 0 then m else mret tt)
      (quiet (fun db => docs_of db coll <> []) anything).
Proof.
  intros Hm.
  apply (quiet_bind _ _ _ (fun db n => n = length (docs_of db coll))).
  - eapply quiet_weaken; [apply quiet_count_documents|done|done].
  - intros n. by apply quiet_seed_branch.
Qed.

Lemma quiet_seed_courses :
  sat seed_courses (quiet (fun db => docs_of db "courses" <> []) anything).
Proof.
  unfold seed_courses.
  apply (quiet_bind _ _ _ (fun db n => n = length (docs_of db "courses"))).
  - eapply quiet_weaken; [apply quiet_count_documents|done|done].
  - intros n. apply (quiet_bind _ _ _ anything).
    + apply quiet_seed_branch. unfold insert_one. repeat only_step; done.
    + intros ?. unfold find_all_without_id.
      apply quiet_reads; [repeat only_step; done| |done].
      apply keeps_bind; [apply keeps_reading|done].
Qed.

Lemma quiet_reconcile_and_seed trans :
  sat (reconcile_and_seed trans) (quiet settled anything).
Proof.
  unfold reconcile_and_seed.
  apply (quiet_bind _ _ _ anything).
  { apply quiet_reads; [|apply keeps_get_db|done].
    unfold get_db, db_ping. repeat only_step; done. }
  intros ?. apply (quiet_bind _ _ _ anything).
  { apply quiet_reads; [|apply keeps_log|done]. only_step. done. }
  intros ?. apply (quiet_bind _ _ _ (fun db collections => collections = db_names db)).
  { unfold list_collection_names. apply sat_driver.
    - intros db l db1 [= <- <-] _. split_and!; [done|by repeat constructor|].
      by intros ? [= <-].
    - intros db e _. split_and!; [done|by repeat constructor|done]. }
  intros collections. apply (quiet_bind _ _ _ anything).
  { eapply quiet_weaken; [apply quiet_reconcile_collections| |done].
    intros db [[[[H _] _] _] ->]. split; [done|]. apply H. }
  intros ?. apply (quiet_bind _ _ _ anything).
  { eapply quiet_weaken; [apply quiet_seed_courses| |done].
    intros db H. apply H. }
  intros ?. apply (quiet_bind _ _ _ anything).
  { eapply quiet_weaken; [apply (quiet_seed "tax_rates")| |done].
    - unfold insert_many. repeat only_step; done.
    - intros db H. apply H. }
  intros ?. eapply quiet_weaken; [apply (quiet_seed "payment_locations")| |done].
  - unfold insert_many. repeat only_step; done.
  - intros db H. apply H.
Qed.

Lemma quiet_initialize_database trans :
  sat (initialize_database trans) (quiet settled anything).
Proof.
  unfold initialize_database.
  apply (quiet_bind _ _ _ anything).
  { apply quiet_reads; [|apply keeps_retry_loop|done].
    generalize (seq 0 max_retries). intros attempts.
    induction attempts as [|attempt rest IH]; cbn [retry_loop];
      unfold try_except_on, admin_ping; repeat only_step; done. }
  intros ?.
  apply (sat_try _ _ (quiet (fun db => settled db /\ anything db a) anything)
           (fun e db r d db' => db' = db /\ Forall no_write_call d)).
  - eapply quiet_weaken; [apply quiet_reconcile_and_seed| |done]. by intros db [H _].
  - intros e w. exists [EvLog Error (LInitializationFailed e)].
    split_and!; [done|done|by repeat constructor].
  - auto.
  - intros db e d1 db1 r d2 db2 H1 [-> H2] HP. destruct (H1 HP) as (-> & Hd & _).
    split_and!; [done|by apply Forall_app|done].
Qed.

(** ** Users *)

Lemma bind_Ok {A B} (m : M A) (f : A -> M B) w b w' :
  (m ≫= f) w = (Ok b, w') ->
  exists a w1, m w = (Ok a, w1) /\ f a w1 = (Ok b, w').
Proof.
  rewrite run_bind. destruct (m w) as [[a|e] w1]; [eauto|done].
Qed.

Lemma subscript_Ok d k v w w' :
  subscript d k w = (Ok v, w') -> jget k d = Some v /\ w' = w.
Proof.
  unfold subscript. destruct (jget k d); cbn; [|done]. by intros [= -> ->].
Qed.

Lemma str_lower_Ok lower v r w w' :
  str_lower lower v w = (Ok r, w') ->
  exists s, v = JStr s /\ r = JStr (lower s) /\ w' = w.
Proof. destruct v; cbn; try done. intros [= <- <-]. eauto. Qed.

Lemma str_before_at_Ok v r w w' :
  str_before_at v w = (Ok r, w') ->
  exists s, v = JStr s /\ r = JStr (before_at s) /\ w' = w.
Proof. destruct v; cbn; try done. intros [= <- <-]. eauto. Qed.

Lemma assoc_get_set_ne {A} k k' (v : A) l :
  k <> k' -> assoc_get k (assoc_set k' v l) = assoc_get k l.
Proof.
  intros Hne. induction l as [|[k0 v0] l IH]; cbn.
  - by rewrite (proj2 (String.eqb_neq _ _) Hne).
  - destruct (String.eqb_spec k' k0) as [->|Hk]; cbn.
    + by rewrite (proj2 (String.eqb_neq _ _) Hne).
    + by rewrite IH.
Qed.

Lemma docs_of_touch coll coll' db : docs_of (touch coll db) coll' = docs_of db coll'.
Proof. unfold touch. by case_bool_decide. Qed.

Lemma find_app_None {A} (f : A -> bool) l x :
  find f l = None -> f x = true -> find f (l ++ [x]) = Some x.
Proof.
  induction l as [|y l IH]; cbn; [by intros _ ->|].
  destruct (f y); [done|auto].
Qed.

Lemma find_Forall_false {A} (f : A -> bool) l :
  Forall (fun x => f x = false) l -> find f l = None.
Proof. induction 1 as [|x l Hx _ IH]; cbn; [done|]. by rewrite Hx. Qed.

Lemma existsb_prefix {A} (f : A -> bool) l l' :
  l `prefix_of` l' -> existsb f l = true -> existsb f l' = true.
Proof. intros [more ->] H. rewrite existsb_app, H. done. Qed.

(** A document that shares no key with a stored one on a field is not
    selected by the equality filter on the value of that field. *)
Lemma shares_key_field_is field x d stored :
  jget field d = Some (JStr x) ->
  shares_key field d stored = false ->
  field_is field x stored = false.
Proof.
  intros Hd. unfold shares_key, index_keys, field_is. rewrite Hd. cbn.
  rewrite orb_false_r.
  destruct (jget field stored) as [[]|]; cbn; try done.
  - rewrite orb_false_r. intros H. by rewrite String.eqb_sym.
  - intros ->. apply andb_false_r.
Qed.

(** Under a unique index on a field, a document that the store accepted has
    a value of that field that no stored document had. *)
Lemma unique_field_fresh live stored field x d :
  existsb (fun entry => bool_decide (unique_field entry = Some field)) live = true ->
  jget field d = Some (JStr x) ->
  duplicate_key live stored d = false ->
  find (field_is field x) stored = None.
Proof.
  intros Hu Hd Hdup. apply existsb_exists in Hu as (entry & Hin & Hu).
  apply bool_decide_eq_true in Hu.
  unfold duplicate_key in Hdup. apply existsb_false_Forall in Hdup.
  rewrite Forall_forall in Hdup. specialize (Hdup entry (proj2 (list_elem_of_In _ _) Hin)).
  cbn in Hdup. rewrite Hu in Hdup.
  apply find_Forall_false. apply existsb_false_Forall in Hdup.
  eapply Forall_impl; [exact Hdup|]. intros s. by apply shares_key_field_is.
Qed.

Lemma User_init_total id email display_name role username is_admin
    setup_complete coin_balance language dark_mode s w :
  email = JStr s ->
  exists u, User_init id email display_name role username is_admin
              setup_complete coin_balance language dark_mode w = (Ok u, w).
Proof.
  intros ->. unfold User_init. rewrite run_bind.
  destruct (truthy username); [cbn; eauto|].
  destruct (truthy display_name); cbn; eauto.
Qed.

Lemma User_init_world id email display_name role username is_admin
    setup_complete coin_balance language dark_mode w r w' :
  User_init id email display_name role username is_admin
    setup_complete coin_balance language dark_mode w = (r, w') -> w' = w.
Proof.
  unfold User_init. rewrite run_bind.
  destruct (truthy username); [cbn; by intros [= _ <-]|].
  destruct (truthy display_name); [cbn; by intros [= _ <-]|].
  destruct email; cbn; by intros [= _ <-].
Qed.

Section RoundTrip.
Context (lower : string -> string) (trans : translator)
        (generate_password_hash : string -> string).

(** What [create_user] has stored when it returns. *)
Lemma create_user_Ok user_data e w u w1 :
  jget "email" user_data = Some (JStr e) ->
  create_user lower trans generate_password_hash user_data w = (Ok u, w1) ->
  exists user_doc,
    jget "email" user_doc = Some (JStr (lower e))
    /\ docs_of (w_db w1) "users" = docs_of (w_db w) "users" ++ [user_doc]
    /\ duplicate_key (idx_of (touch "users" (w_db w)) "users")
         (docs_of (w_db w) "users") user_doc = false
    /\ (forall w', exists w'',
          (id ← subscript user_doc "_id" ;
           email ← subscript user_doc "email" ;
           found ← User_init id email
             (get_or user_doc "display_name" JNull)
             (get_or user_doc "role" (JStr "personal"))
             id
             (get_or user_doc "is_admin" (JBool false))
             (get_or user_doc "setup_complete" (JBool false))
             (get_or user_doc "coin_balance" (JInt 0))
             (get_or user_doc "language" (JStr "en"))
             (get_or user_doc "dark_mode" (JBool false)) ;
           mret (Some found)) w' = (Ok (Some u), w'')
          /\ w_trace w'' = w_trace w' /\ w_db w'' = w_db w')
    /\ email u = JStr (lower e).
Proof.
  intros Hemail. unfold create_user, try_except.
  lazymatch goal with
  | |- (let (_, _) := ?x in _) = _ -> _ => destruct x as [[u0|err] w0] eqn:E
  | |- match ?x with _ => _ end = _ -> _ => destruct x as [[u0|err] w0] eqn:E
  end.
  2: { destruct err; cbn; intros [=]. }
  intros [= -> ->].
  apply bind_Ok in E as (email0 & w2 & E0 & E).
  apply subscript_Ok in E0 as [E0 ->]. rewrite Hemail in E0. injection E0 as <-.
  apply bind_Ok in E as (prefix & w2 & E0 & E). cbn in E0. injection E0 as <- <-.
  apply bind_Ok in E as (user_id & w2 & E0 & E).
  apply str_lower_Ok in E0 as (uname & Euname & -> & ->).
  apply bind_Ok in E as (user_data' & w2 & E0 & E).
  assert (jget "email" user_data' = Some (JStr e) /\ w2 = w) as [Hemail' ->].
  { destruct (jget "password" user_data) as [[]|]; cbn in E0; try done.
    - destruct user_data; cbn in E0; try done. injection E0 as <- <-.
      split; [|done]. cbn in *. by rewrite assoc_get_set_ne.
    - by injection E0 as <- <-. }
  clear E0.
  apply bind_Ok in E as (email1 & w2 & E0 & E).
  apply subscript_Ok in E0 as [E0 ->]. rewrite Hemail' in E0. injection E0 as <-.
  apply bind_Ok in E as (email_lower & w2 & E0 & E). cbn in E0. injection E0 as <- <-.
  apply bind_Ok in E as (password & w2 & E0 & E).
  apply subscript_Ok in E0 as [Hpw ->].
  apply bind_Ok in E as (now & w2 & E0 & E). cbn in E0. injection E0 as <- <-.
  apply bind_Ok in E as ([] & w2 & E0 & E).
  apply bind_Ok in E as ([] & w3 & Elog & E). cbn in Elog. injection Elog as <-.
  pose proof (User_init_world _ _ _ _ _ _ _ _ _ _ _ _ _ E) as ->.
  match type of E0 with insert_one _ ?d _ = _ => set (user_doc := d) in * end.
  exists user_doc. split; [done|].
  unfold insert_one, driver in E0.
  destruct (w_faults w (w_calls w) _); [done|].
  destruct (db_insert_one _ _ _) as [[[] db1]|] eqn:Eins; [|done].
  injection E0 as <-. cbn [w_db push].
  apply insert_one_Ok in Eins as (-> & _ & _ & Hdup).
  change (with_id (db_next_oid (touch "users" (w_db w))) user_doc) with user_doc in *.
  rewrite docs_of_touch in Hdup.
  split.
  { by rewrite docs_of_insert, decide_True, docs_of_touch. }
  split; [exact Hdup|].
  assert (exists un, (if truthy (JStr (lower uname)) then JStr (lower uname)
                      else if truthy (get_or user_doc "display_name" JNull)
                           then get_or user_doc "display_name" JNull
                           else JStr (before_at (lower e))) = un
                     /\ u = {| id := JStr (lower uname); email := JStr (lower e);
                               username := un;
                               role := get_or user_doc "role" JNull;
                               display_name := py_or (get_or user_doc "display_name" JNull) un;
                               is_admin := get_or user_doc "is_admin" JNull;
                               setup_complete := get_or user_doc "setup_complete" JNull;
                               coin_balance := get_or user_doc "coin_balance" JNull;
                               language := get_or user_doc "language" JNull;
                               dark_mode := get_or user_doc "dark_mode" JNull |})
    as (un & Hun & ->).
  { revert E. unfold User_init. rewrite run_bind.
    destruct (truthy (JStr (lower uname))); [cbn -[truthy]; intros [= <-]; eauto|].
    destruct (truthy (get_or user_doc "display_name" JNull));
      cbn -[truthy]; intros [= <-]; eauto. }
  split; [|done].
  intros w'. exists w'. split; [|done].
  unfold User_init. rewrite !run_bind. cbn -[truthy py_or].
  unfold get_or in *. cbn -[truthy py_or] in *.
  destruct (truthy (JStr (lower uname))); cbn -[truthy py_or] in *; [by subst|].
  destruct (truthy _); cbn -[truthy py_or] in *; by subst.
Qed.

(** C10, amended.  When the [users] collection has its unique index on
    [email], or no stored user is selected by the lower-cased address, the
    user that [create_user] has created is returned by [get_user_by_email]
    for every address with the same lower-casing as the one of the data,
    when the store answers; the user's email is the lower-cased address.
    [lower] is [str.lower], about which nothing is assumed. *)
Theorem email_lookup_round_trip user_data e e' w u w1 w2 :
  jget "email" user_data = Some (JStr e) ->
  create_user lower trans generate_password_hash user_data w = (Ok u, w1) ->
  unique_on (w_db w) "users" "email" = true
  \/ db_find_one "users" "email" (lower e) (w_db w) = None ->
  lower e' = lower e ->
  w_db w2 = w_db w1 ->
  w_faults w2 (w_calls w2) (FindOne "users" "email" (lower e)) = None ->
  email u = JStr (lower e)
  /\ exists w3, get_user_by_email lower (JStr e') w2 = (Ok (Some u), w3).
Proof.
  intros Hemail Hcreate Hpre Hcase Hdb Hfault.
  destruct (create_user_Ok _ _ _ _ _ Hemail Hcreate)
    as (user_doc & Hdoc & Hdocs & Hdup & Hinit & Hu).
  split; [done|].
  assert (db_find_one "users" "email" (lower e) (w_db w) = None) as Hnone.
  { destruct Hpre as [Hunique|Hnone]; [|done].
    eapply unique_field_fresh; [|exact Hdoc|exact Hdup].
    eapply existsb_prefix; [|exact Hunique]. apply grows_touch. }
  unfold get_user_by_email, try_except. rewrite run_bind. cbn [str_lower].
  rewrite Hcase. cbn -[find_one User_init]. rewrite run_bind.
  unfold find_one, driver. rewrite Hfault. cbn -[User_init].
  unfold db_find_one in *. rewrite Hdb, Hdocs.
  rewrite (find_app_None _ _ user_doc Hnone).
  2: { unfold field_is. rewrite Hdoc. apply String.eqb_refl. }
  assert (truthy user_doc = true) as ->.
  { destruct user_doc as [| | | | | | | |[|f fs]]; cbn in Hdoc; done. }
  match goal with
  | |- context [(_ ≫= _) ?w0] => destruct (Hinit w0) as (w'' & E & _ & _)
  end.
  rewrite E. eauto.
Qed.
End RoundTrip.

(** ** The claims about one declared index *)

Lemma index_exists_names existing renamed keys options :
  renamed.*2 = existing.*2 ->
  index_exists renamed keys options = index_exists existing keys options.
Proof.
  revert renamed. induction existing as [|[n info] rest IH]; intros [|[n' info'] rest'];
    cbn; try done.
  intros [= -> E]. unfold key_matches. cbn. rewrite (IH _ E). done.
Qed.

(** C5, amended.  A live index is matched by a declared index exactly when
    their ordered key tuples are equal; its name plays no part, and renaming
    the live indexes changes nothing.  When the first live index, in
    enumeration order, with the declared key tuple has the declared options
    (its metadata compared without ['key'], ['v'] and ['ns']), the
    reconciliation of the declared index only logs that the index exists:
    no driver call is issued and the store is left as it is. *)
Theorem exact_match_skips c existing index item w :
  matched_index existing (ix_key index) = Some item ->
  existing_options_of item.2 = options_of index ->
  (forall name info,
     key_matches (ix_key index) (name, info) = true <-> info_key info = ix_key index)
  /\ (item ∈ existing /\ info_key item.2 = ix_key index)
  /\ reconcile_index c existing index w =
       (Ok tt, push [EvLog Info (LIndexExists c (ix_key index) (options_of index))] w)
  /\ (forall renamed, renamed.*2 = existing.*2 ->
        reconcile_index c renamed index w = reconcile_index c existing index w).
Proof.
  intros Hm Ho. split; [|split; [|split]].
  - intros name info. unfold key_matches. cbn. apply bool_decide_eq_true.
  - apply matched_index_Some in Hm as (before & after & -> & Hk & _).
    split; [|done]. apply elem_of_app. right. by left.
  - apply reconcile_index_found.
    rewrite index_exists_matched, Hm. by apply bool_decide_eq_true.
  - intros renamed E. unfold reconcile_index.
    rewrite !run_bind, !search_existing_run, (index_exists_names _ _ _ _ E). done.
Qed.

(** C1, amended.  When the live index matched by a declared index has
    options other than the declared ones, the reconciliation of that index
    issues one create-index call with the declared keys and options and
    emits no warning: it logs the creation when the call returns and raises
    what the call raised otherwise.  No live index is dropped or altered:
    every collection's index list is kept, at most extended. *)
Theorem divergent_index_is_recreated c existing index item w :
  matched_index existing (ix_key index) = Some item ->
  existing_options_of item.2 <> options_of index ->
  let rw := reconcile_index c existing index w in
  let request := CreateIndex c (ix_key index) (options_of index) in
  ((rw.1 = Ok tt
    /\ w_trace rw.2 = w_trace w ++
         [EvCall request None;
          EvLog Info (LIndexCreated c (ix_key index) (options_of index))])
   \/ (exists e, rw.1 = Raise e
                 /\ w_trace rw.2 = w_trace w ++ [EvCall request (Some e)]))
  /\ (forall coll, idx_of (w_db w) coll `prefix_of` idx_of (w_db rw.2) coll).
Proof.
  intros Hm Ho. cbn zeta. unfold reconcile_index.
  rewrite run_bind, search_existing_run, index_exists_matched, Hm.
  rewrite bool_decide_eq_false_2 by done. cbn [negb].
  rewrite run_bind. unfold create_index, driver.
  destruct (w_faults w (w_calls w) _) as [e|]; cbn.
  { split; [right; eauto|]. reflexivity. }
  destruct (db_create_index _ _ _ _) as [[name db1]|e] eqn:E; cbn.
  - split; [left; by rewrite <- app_assoc|].
    apply create_index_result in E as [[(_ & H & _) _] _]. exact H.
  - split; [right; eauto|]. reflexivity.
Qed.

(** C3, amended.  From a live state without divergent index (for every
    declared index, the first live index with its key tuple, if there is
    one, has the declared options), a run of [initialize_database] that
    returns leaves a store on which a further run issues no
    create-collection, no create-index and no insert call and leaves the
    store as it is; on that store the search finds every declared index
    with its declared options. *)
Theorem second_run_writes_nothing trans w0 w1 w2 :
  no_divergent_index (w_db w0) ->
  initialize_database trans w0 = (Ok tt, w1) ->
  w_db w2 = w_db w1 ->
  let rw := initialize_database trans w2 in
  (exists d, w_trace rw.2 = w_trace w2 ++ d /\ Forall no_write_call d)
  /\ w_db rw.2 = w_db w1
  /\ Forall (fun entry =>
              Forall (fun index =>
                        index_exists (idx_of (w_db w1) entry.1)
                          (ix_key index) (options_of index) = true)
                     (declared_indexes entry))
           collection_schemas.
Proof.
  intros Hd Hrun Hdb rw.
  pose proof (initialize_database_settles trans w0 w1 Hd Hrun) as Hs.
  destruct (quiet_initialize_database trans w2) as (d & E & Hq).
  rewrite Hdb in Hq. destruct (Hq Hs) as (E' & Hw & _).
  split_and!; [by exists d|exact E'|].
  destruct Hs as [Hs _]. eapply Forall_impl; [exact Hs|]. by intros entry [_ H].
Qed.

(** ** The claims about whole runs *)

Lemma collection_block_members collections collections' c b :
  (forall x, x ∈ collections <-> x ∈ collections') ->
  collection_block collections c b -> collection_block collections' c b.
Proof.
  intros Hm [o rest Hn Hrest|v e Hn|v o rest Hn Hrest].
  - apply block_present; [by apply Hm|done].
  - apply block_create_failed. by rewrite <- Hm.
  - apply block_created; [by rewrite <- Hm|done].
Qed.

(** C7.  In every run of [initialize_database], whatever the live state,
    the calls on the declared collections form one block per collection, in
    declaration order (all six when the run returns, the first ones when it
    is aborted); the blocks depend on the collection names read from the
    store only through membership, not through their order.  In a block, a
    create-collection call, issued exactly when the collection is not among
    the names read, comes first, so that no create-collection call on a
    collection follows a create-index call on it. *)
Theorem declaration_order trans w :
  let rw := initialize_database trans w in
  exists before blocks after,
    w_trace rw.2 = w_trace w ++ before ++ concat blocks ++ after
    /\ Forall no_schema_call before
    /\ Forall no_schema_call after
    /\ (forall collections, collections ≡ₚ db_names (w_db w) ->
          Forall2 (collection_block collections)
            (take (length blocks) declared_names) blocks)
    /\ (rw.1 = Ok tt -> length blocks = length declared_names)
    /\ (forall c, create_precedes_index c (before ++ concat blocks ++ after)).
Proof.
  intros rw.
  destruct (ordered_initialize_database trans w) as (d & E & Hd).
  pose proof Hd as (before & blocks & after & -> & Hb & Ha & HF & Hl).
  exists before, blocks, after. split_and!; auto.
  - intros collections Hp. eapply Forall2_impl; [exact HF|].
    intros c b. apply collection_block_members. intros x. by rewrite Hp.
  - intros E'. by apply (Hl tt).
  - intros c. by eapply ordered_blocks_create_precedes.
Qed.

(** C4.  When every liveness probe fails with a connection error,
    [initialize_database] pings exactly [max_retries] = 3 times, sleeps
    [retry_delay] = 1 second between consecutive attempts and not after the
    last one, then raises a [RuntimeError]; it issues no other call and the
    store is left as it is. *)
Theorem retry_bound trans w :
  transient_probe w ->
  exists e1 e2 e3 w',
    initialize_database trans w =
      (Raise (RuntimeError (trans "general_database_connection_failed"
                              "MongoDB connection failed after max retries")), w')
    /\ w_trace w' = w_trace w ++
         [EvCall AdminPing (Some e1); EvLog Error (LConnectionAttemptFailed 1 e1);
          EvSleep retry_delay;
          EvCall AdminPing (Some e2); EvLog Error (LConnectionAttemptFailed 2 e2);
          EvSleep retry_delay;
          EvCall AdminPing (Some e3); EvLog Error (LConnectionAttemptFailed 3 e3)]
    /\ is_connection_error e1 = true /\ is_connection_error e2 = true
    /\ is_connection_error e3 = true
    /\ w_db w' = w_db w.
Proof.
  intros H.
  destruct (H (w_calls w)) as (e1 & F1 & T1).
  destruct (H (S (w_calls w))) as (e2 & F2 & T2).
  destruct (H (S (S (w_calls w)))) as (e3 & F3 & T3).
  exists e1, e2, e3.
  unfold initialize_database, retry_loop, max_retries, admin_ping,
    try_except_on, try_except, mbind, M_bind, mret, M_ret.
  cbn -[driver].
  erewrite run_driver_fault by (cbn; exact F1). rewrite T1. cbn -[driver].
  erewrite run_driver_fault by (cbn; exact F2). rewrite T2. cbn -[driver].
  erewrite run_driver_fault by (cbn; exact F3). rewrite T3. cbn -[driver].
  eexists. split; [reflexivity|]. cbn. split_and!; try done.
  rewrite <- !app_assoc. reflexivity.
Qed.

(** C9.  [log_tool_usage] always returns normally: when the insertion of
    the usage record fails, with whatever exception, the error is logged and
    the store is left as it is. *)
Theorem log_tool_usage_returns tool_name user_id session_id action w :
  let usage_data := JObj [("tool_name", tool_name); ("user_id", user_id);
                          ("session_id", session_id); ("action", action);
                          ("timestamp", JDate (w_now w))] in
  let rw := log_tool_usage tool_name user_id session_id action w in
  rw.1 = Ok tt
  /\ (w_trace rw.2 = w_trace w ++
        [EvCall (InsertOne "tool_usage" usage_data) None;
         EvLog Info (LToolUsageLogged tool_name action)]
      \/ exists e,
           w_trace rw.2 = w_trace w ++
             [EvCall (InsertOne "tool_usage" usage_data) (Some e);
              EvLog Error (LToolUsageError e)]
           /\ w_db rw.2 = w_db w).
Proof.
  unfold log_tool_usage, try_except, insert_one, driver, mbind, M_bind, mret, M_ret.
  cbn -[db_insert_one].
  destruct (w_faults w (w_calls w) _) as [e|]; cbn -[db_insert_one].
  - split; [reflexivity|]. right. exists e. rewrite <- app_assoc. done.
  - destruct (db_insert_one _ _ _) as [[[] db1]|e]; cbn.
    + split; [reflexivity|]. left. rewrite <- app_assoc. done.
    + split; [reflexivity|]. right. exists e. rewrite <- app_assoc. done.
Qed.

(** C6.  On an empty database and without failures, [initialize_database]
    returns after creating the six declared collections, in order, and one
    index per declared index (13 in all), then inserting the 3 sample
    courses, the 2 tax rates and the 1 payment location; these are all the
    writes of the run. *)
Theorem empty_database_scenario trans :
  let rw := initialize_database trans (boot empty_db no_faults) in
  let db := w_db rw.2 in
  rw.1 = Ok tt
  /\ writes_of (w_trace rw.2) =
       ((fun c => (c, None)) <$>
          (concat (declared_writes <$> collection_schemas)
           ++ (InsertOne "courses" <$> SAMPLE_COURSES)
           ++ [InsertMany "tax_rates" (sample_rates trans);
               InsertMany "payment_locations" sample_locations]))
  /\ omap (fun co => match co.1 with CreateCollection name _ => Some name | _ => None end)
          (calls_of (w_trace rw.2))
     = ["users"; "records"; "cashflows"; "inventory"; "coin_transactions"; "audit_logs"]
  /\ length (filter (fun co => is_create_index co.1 = true) (calls_of (w_trace rw.2)))
     = 13%nat
  /\ length (concat (declared_indexes <$> collection_schemas)) = 13%nat
  /\ Forall (fun entry =>
               (fun item => (info_key item.2, existing_options_of item.2))
                 <$> idx_of db entry.1
               = (info_key id_index.2, existing_options_of id_index.2)
                 :: ((fun index => (ix_key index, options_of index))
                       <$> declared_indexes entry))
            collection_schemas
  /\ without_id <$> docs_of db "courses" = SAMPLE_COURSES
  /\ without_id <$> docs_of db "tax_rates" = sample_rates trans
  /\ without_id <$> docs_of db "payment_locations" = sample_locations
  /\ length (docs_of db "courses") = 3%nat
  /\ length (docs_of db "tax_rates") = 2%nat
  /\ length (docs_of db "payment_locations") = 1%nat.
Proof.
  intros rw db. split_and!; try (vm_compute; reflexivity).
  unfold collection_schemas.
  repeat (apply Forall_cons_2; [vm_compute; reflexivity|]). apply Forall_nil_2.
Qed.

(** ** Concrete runs *)

(** When no two live indexes share a key tuple, any live index with the
    declared key tuple and the declared options makes the search succeed. *)
Lemma unique_key_match_skips c existing index item w :
  NoDup ((fun item => info_key item.2) <$> existing) ->
  item ∈ existing -> info_key item.2 = ix_key index ->
  existing_options_of item.2 = options_of index ->
  reconcile_index c existing index w =
    (Ok tt, push [EvLog Info (LIndexExists c (ix_key index) (options_of index))] w).
Proof.
  intros Hnd Hin Hk Ho. apply reconcile_index_found.
  rewrite index_exists_matched, (matched_index_unique _ _ item Hnd Hin Hk).
  by apply bool_decide_eq_true.
Qed.

(** C1, counterexample.  The [users] collection has an index on
    [reset_token] that is not sparse, while the declared one is: the run
    issues a create-index call for that key tuple, the store rejects it and
    start-up is aborted. *)
Lemma divergent_index_create_issued :
  let rw := initialize_database default_text (boot divergent_db no_faults) in
  matched_index (idx_of divergent_db "users") (ix_key reset_token_index)
    = Some (live_index "reset_token_1" [("reset_token", ASCENDING)]
              (<[ "sparse" := VFalse ]> {[ "v" := VInt 2 ]}))
  /\ index_exists (idx_of divergent_db "users") (ix_key reset_token_index)
       (options_of reset_token_index) = false
  /\ writes_of (w_trace rw.2) =
       [(CreateIndex "users" [("email", ASCENDING)] {[ "unique" := VTrue ]}, None);
        (CreateIndex "users" [("reset_token", ASCENDING)] {[ "sparse" := VTrue ]},
         Some OperationFailure)]
  /\ rw.1 = Raise OperationFailure.
Proof. vm_compute. repeat split; reflexivity. Qed.

Lemma divergent_index_is_recreated_witness :
  let w := boot divergent_db no_faults in
  let rw := reconcile_index "users" (idx_of divergent_db "users") reset_token_index w in
  let request := CreateIndex "users" (ix_key reset_token_index)
                   (options_of reset_token_index) in
  ((rw.1 = Ok tt
    /\ w_trace rw.2 = w_trace w ++
         [EvCall request None;
          EvLog Info (LIndexCreated "users" (ix_key reset_token_index)
                        (options_of reset_token_index))])
   \/ (exists e, rw.1 = Raise e
                 /\ w_trace rw.2 = w_trace w ++ [EvCall request (Some e)]))
  /\ (forall coll, idx_of (w_db w) coll `prefix_of` idx_of (w_db rw.2) coll).
Proof.
  apply (divergent_index_is_recreated "users" (idx_of divergent_db "users")
           reset_token_index
           (live_index "reset_token_1" [("reset_token", ASCENDING)]
              (<[ "sparse" := VFalse ]> {[ "v" := VInt 2 ]}))
           (boot divergent_db no_faults)).
  - vm_compute. reflexivity.
  - apply (proj1 (bool_decide_eq_false _)). vm_compute. reflexivity.
Defined.

(** C2, the run at the failing input.  The sample courses are inserted one
    by one: when the second insertion fails, the run is aborted with one
    course stored, and a later run leaves it at that, since the collection
    is no longer empty.  The tax rates go in one call: when it fails, none
    is stored. *)
Lemma courses_partially_seeded :
  let rw := initialize_database default_text (boot empty_db second_course_fails) in
  let again := initialize_database default_text (boot (w_db rw.2) no_faults) in
  let other := initialize_database default_text (boot empty_db tax_rates_fail) in
  rw.1 = Raise OperationFailure
  /\ filter (fun co => is_insert co.1 = true) (calls_of (w_trace rw.2)) =
       zip (InsertOne "courses" <$> take 2 SAMPLE_COURSES) [None; Some OperationFailure]
  /\ without_id <$> docs_of (w_db rw.2) "courses" = take 1 SAMPLE_COURSES
  /\ again.1 = Ok tt
  /\ without_id <$> docs_of (w_db again.2) "courses" = take 1 SAMPLE_COURSES
  /\ other.1 = Raise OperationFailure
  /\ docs_of (w_db other.2) "tax_rates" = [].
Proof. vm_compute. repeat split; reflexivity. Qed.

(** C3, counterexample.  The [users] collection has two indexes on
    [email], the first with other options than the declared ones: the first
    run returns, and the second run issues the create-index call for
    [email] again. *)
Lemma second_run_creates_index_again :
  let first := initialize_database default_text (boot twin_db no_faults) in
  let second := initialize_database default_text (boot (w_db first.2) no_faults) in
  first.1 = Ok tt
  /\ second.1 = Ok tt
  /\ writes_of (w_trace second.2) =
       [(CreateIndex "users" [("email", ASCENDING)] {[ "unique" := VTrue ]}, None)]
  /\ index_exists (idx_of (w_db first.2) "users") (ix_key email_index)
       (options_of email_index) = false.
Proof. vm_compute. repeat split; reflexivity. Qed.

(** The same with the divergent index under a name of its own, when the
    store accepts the request: the first run returns and leaves the declared
    index behind the divergent one, so that every later run requests it
    again. *)
Lemma renamed_divergent_index_is_requested_again :
  let first := initialize_database default_text (boot renamed_divergent_db no_faults) in
  let second := initialize_database default_text (boot (w_db first.2) no_faults) in
  first.1 = Ok tt
  /\ (fun item => (item.1, info_key item.2)) <$> idx_of (w_db first.2) "users"
     = [("_id_", [("_id", ASCENDING)]);
        ("token_idx", [("reset_token", ASCENDING)]);
        ("email_1", [("email", ASCENDING)]);
        ("reset_token_1", [("reset_token", ASCENDING)]);
        ("role_1", [("role", ASCENDING)])]
  /\ second.1 = Ok tt
  /\ writes_of (w_trace second.2) =
       [(CreateIndex "users" [("reset_token", ASCENDING)] {[ "sparse" := VTrue ]}, None)]
  /\ w_db second.2 = w_db first.2.
Proof. vm_compute. repeat split; reflexivity. Qed.

Lemma second_run_writes_nothing_witness :
  let w1 := (initialize_database default_text (boot matching_db no_faults)).2 in
  let rw := initialize_database default_text w1 in
  (exists d, w_trace rw.2 = w_trace w1 ++ d /\ Forall no_write_call d)
  /\ w_db rw.2 = w_db w1
  /\ Forall (fun entry =>
              Forall (fun index =>
                        index_exists (idx_of (w_db w1) entry.1)
                          (ix_key index) (options_of index) = true)
                     (declared_indexes entry))
           collection_schemas.
Proof.
  apply (second_run_writes_nothing default_text (boot matching_db no_faults)
           (initialize_database default_text (boot matching_db no_faults)).2
           (initialize_database default_text (boot matching_db no_faults)).2).
  - apply (bool_decide_unpack _). vm_compute. reflexivity.
  - vm_compute. reflexivity.
  - exact eq_refl.
Defined.

Lemma retry_bound_witness :
  exists e1 e2 e3 w',
    initialize_database default_text (boot empty_db always_down) =
      (Raise (RuntimeError "MongoDB connection failed after max retries"), w')
    /\ w_trace w' = [] ++
         [EvCall AdminPing (Some e1); EvLog Error (LConnectionAttemptFailed 1 e1);
          EvSleep retry_delay;
          EvCall AdminPing (Some e2); EvLog Error (LConnectionAttemptFailed 2 e2);
          EvSleep retry_delay;
          EvCall AdminPing (Some e3); EvLog Error (LConnectionAttemptFailed 3 e3)]
    /\ is_connection_error e1 = true /\ is_connection_error e2 = true
    /\ is_connection_error e3 = true
    /\ w_db w' = empty_db.
Proof.
  apply (retry_bound default_text (boot empty_db always_down)).
  intros k. exists ServerSelectionTimeoutError. split; reflexivity.
Defined.

Lemma exact_match_skips_witness :
  let w := boot matching_db no_faults in
  (forall name info,
     key_matches (ix_key email_index) (name, info) = true
     <-> info_key info = ix_key email_index)
  /\ (live_index "email_1" [("email", ASCENDING)]
        (<[ "unique" := VTrue ]> {[ "v" := VInt 2 ]}) ∈ idx_of matching_db "users"
      /\ [("email", ASCENDING)] = ix_key email_index)
  /\ reconcile_index "users" (idx_of matching_db "users") email_index w =
       (Ok tt, push [EvLog Info (LIndexExists "users" (ix_key email_index)
                                   (options_of email_index))] w)
  /\ (forall renamed, renamed.*2 = (idx_of matching_db "users").*2 ->
        reconcile_index "users" renamed email_index w
        = reconcile_index "users" (idx_of matching_db "users") email_index w).
Proof.
  apply (exact_match_skips "users" (idx_of matching_db "users") email_index
           (live_index "email_1" [("email", ASCENDING)]
              (<[ "unique" := VTrue ]> {[ "v" := VInt 2 ]}))
           (boot matching_db no_faults)).
  - vm_compute. reflexivity.
  - vm_compute. reflexivity.
Defined.

(** C5, counterexample.  The [users] collection has two indexes on
    [email]: the third live index has the declared key tuple and the
    declared options, the second has the key tuple with other options.
    The search stops at the second, and the reconciliation of the declared
    index issues a create-index call instead of skipping. *)
Lemma equal_index_behind_another_is_requested :
  let w := boot twin_db no_faults in
  let item := live_index "email_1" [("email", ASCENDING)]
                (<[ "unique" := VTrue ]> {[ "v" := VInt 2 ]}) in
  let rw := reconcile_index "users" (idx_of twin_db "users") email_index w in
  idx_of twin_db "users" !! 2%nat = Some item
  /\ key_matches (ix_key email_index) item = true
  /\ existing_options_of item.2 = options_of email_index
  /\ rw.1 = Ok tt
  /\ w_trace rw.2 =
       [EvCall (CreateIndex "users" (ix_key email_index) (options_of email_index)) None;
        EvLog Info (LIndexCreated "users" (ix_key email_index) (options_of email_index))].
Proof. vm_compute. repeat split; reflexivity. Qed.

Lemma declaration_order_witness :
  let w := boot twin_db no_faults in
  let rw := initialize_database default_text w in
  exists before blocks after,
    w_trace rw.2 = w_trace w ++ before ++ concat blocks ++ after
    /\ Forall no_schema_call before
    /\ Forall no_schema_call after
    /\ (forall collections, collections ≡ₚ db_names (w_db w) ->
          Forall2 (collection_block collections)
            (take (length blocks) declared_names) blocks)
    /\ (rw.1 = Ok tt -> length blocks = length declared_names)
    /\ (forall c, create_precedes_index c (before ++ concat blocks ++ after)).
Proof. exact (declaration_order default_text (boot twin_db no_faults)). Defined.

Lemma failed_write_aborts_witness :
  let w := boot empty_db records_denied in
  let rw := initialize_database default_text w in
  rw.1 = Raise OperationFailure
  /\ drop 16 (w_trace rw.2) = [EvLog Error (LInitializationFailed OperationFailure)].
Proof.
  apply (failed_write_aborts default_text (boot empty_db records_denied)
           (take 15 (w_trace (initialize_database default_text
                                (boot empty_db records_denied)).2))
           (CreateCollection "records" records_validator) OperationFailure
           (drop 16 (w_trace (initialize_database default_text
                                (boot empty_db records_denied)).2))).
  - vm_compute. reflexivity.
  - vm_compute. reflexivity.
Defined.

(** C10, counterexample.  First, the store holds another user with the
    same lower-cased email and no unique index on it: [create_user]
    creates the user [ada], and the lookup by that email returns the user
    [grace].  Second, on a store with the unique index, a user is created
    with an address whose upper-cased variant does not lower-case back:
    the lookup by the upper-cased address finds nobody. *)
Lemma email_lookup_finds_other_user :
  let created := create_user ascii_lower default_text (fun password => password) ada
                   (boot crowded_db no_faults) in
  let found := get_user_by_email ascii_lower (JStr "Ada@Example.com")
                 (boot (w_db created.2) no_faults) in
  let created' := create_user ascii_lower default_text (fun password => password)
                    sharp_s (boot registered_db no_faults) in
  let found' := get_user_by_email ascii_lower (JStr "STRASSE@EXAMPLE.COM")
                  (boot (w_db created'.2) no_faults) in
  unique_on crowded_db "users" "email" = false
  /\ (exists u, created.1 = Ok u /\ id u = JStr "ada"
                /\ email u = JStr "ada@example.com")
  /\ (exists u, found.1 = Ok (Some u) /\ id u = JStr "grace"
                /\ email u = JStr "ada@example.com")
  /\ unique_on registered_db "users" "email" = true
  /\ (exists u, created'.1 = Ok u /\ email u = JStr "straße@example.com")
  /\ found'.1 = Ok None.
Proof.
  vm_compute. split_and!; try reflexivity; eexists; repeat split; reflexivity.
Qed.

Lemma email_lookup_round_trip_witness :
  let w1 := (create_user ascii_lower default_text (fun password => password) ada
               (boot registered_db no_faults)).2 in
  email ada_user = JStr (ascii_lower "Ada@Example.com")
  /\ exists w3, get_user_by_email ascii_lower (JStr "ADA@EXAMPLE.COM") w1
                = (Ok (Some ada_user), w3).
Proof.
  apply (email_lookup_round_trip ascii_lower default_text (fun password => password) ada
           "Ada@Example.com" "ADA@EXAMPLE.COM" (boot registered_db no_faults) ada_user
           (create_user ascii_lower default_text (fun password => password) ada
              (boot registered_db no_faults)).2
           (create_user ascii_lower default_text (fun password => password) ada
              (boot registered_db no_faults)).2).
  - vm_compute. reflexivity.
  - vm_compute. reflexivity.
  - left. vm_compute. reflexivity.
  - vm_compute. reflexivity.
  - exact eq_refl.
  - vm_compute. reflexivity.
Defined.

(** * Further properties *)

(** ** The store never shrinks *)

Lemma initialize_database_grows trans :
  post (initialize_database trans) (fun db _ db' => grows db db').
Proof.
  intros w. unfold initialize_database. rewrite run_bind.
  pose proof (keeps_retry_loop trans (seq 0 max_retries) w) as K.
  destruct (retry_loop trans (seq 0 max_retries) w) as [[[]|e] w0]; cbn in *.
  2: { rewrite K. apply grows_refl. }
  rewrite <- K. unfold try_except.
  pose proof (reconcile_and_seed_result trans w0) as [G _].
  destruct (reconcile_and_seed trans w0) as [[[]|e] w2]; cbn in *; done.
Qed.

(** X1.  Whatever the environment does, [initialize_database] only adds to
    the store: every collection name stays, and in every collection the
    index entries and the documents that were there are still there, in
    place and unchanged, with anything new after them. *)
Theorem initialize_database_never_shrinks trans w :
  let db := w_db w in
  let db' := w_db (initialize_database trans w).2 in
  db_names db ⊆ db_names db'
  /\ (forall coll, idx_of db coll `prefix_of` idx_of db' coll)
  /\ (forall coll, docs_of db coll `prefix_of` docs_of db' coll).
Proof. apply (initialize_database_grows trans w). Qed.

(** ** The liveness probe *)

(** One turn of the retry loop, by what the environment does to the probe. *)
Lemma retry_loop_turn trans attempt rest w :
  retry_loop trans (attempt :: rest) w =
    match w_faults w (w_calls w) AdminPing with
    | None =>
        (Ok tt, push [EvLog Info (LConnectionEstablished (attempt + 1))]
                  (after_call AdminPing None w))
    | Some e =>
        if is_connection_error e then
          if Nat.eqb attempt (max_retries - 1) then
            (Raise (RuntimeError (trans "general_database_connection_failed"
                                    "MongoDB connection failed after max retries")),
             push [EvLog Error (LConnectionAttemptFailed (attempt + 1) e)]
               (after_call AdminPing (Some e) w))
          else
            retry_loop trans rest
              (push [EvLog Error (LConnectionAttemptFailed (attempt + 1) e);
                     EvSleep retry_delay]
                 (after_call AdminPing (Some e) w))
        else (Raise e, after_call AdminPing (Some e) w)
    end.
Proof.
  cbn [retry_loop]. unfold try_except_on, try_except, admin_ping.
  rewrite !run_bind. unfold driver, reading.
  destruct (w_faults w (w_calls w) AdminPing) as [e|] eqn:F; cbn.
  - destruct (is_connection_error e); [|done].
    unfold mbind, M_bind, mret, M_ret, log, sleep, emit, raise. cbn.
    destruct (Nat.eqb attempt 2); cbn; [done|]. by rewrite push_push.
  - done.
Qed.

Lemma ping_outcomes_app a b : ping_outcomes (a ++ b) = ping_outcomes a ++ ping_outcomes b.
Proof. apply omap_app. Qed.

Lemma sleeps_of_app a b : sleeps_of (a ++ b) = sleeps_of a ++ sleeps_of b.
Proof. apply omap_app. Qed.

Lemma no_probe_outcomes d :
  Forall (fun ev => ~ probe_event ev) d -> ping_outcomes d = [] /\ sleeps_of d = [].
Proof.
  induction 1 as [|ev d H _ [IH1 IH2]]; [done|].
  unfold ping_outcomes, sleeps_of in *. cbn. rewrite IH1, IH2.
  destruct ev as [[] ?| |]; cbn in *; try done; by destruct H.
Qed.

Lemma only_search_existing (Q : event -> Prop) c existing keys options :
  (forall lvl msg, Q (EvLog lvl msg)) ->
  traces (search_existing c existing keys options) (only Q).
Proof.
  intros HQ. induction existing as [|item rest IH]; cbn [search_existing];
    repeat only_step; auto.
Qed.

(** Everything after the retry loop: log records and driver calls other than
    the liveness probe. *)
Lemma only_reconcile_and_seed (Q : event -> Prop) trans :
  (forall lvl msg, Q (EvLog lvl msg)) ->
  (forall c o, c <> AdminPing -> Q (EvCall c o)) ->
  traces (try_except (reconcile_and_seed trans)
            (fun e => log Error (LInitializationFailed e) ;; raise e)) (only Q).
Proof.
  intros HL HC.
  unfold reconcile_and_seed, get_db, db_ping, list_collection_names,
    reconcile_collection, create_collection, index_information,
    seed_courses, seed_tax_rates, seed_payment_locations, count_documents,
    insert_one, insert_many, find_all_without_id.
  repeat only_step; auto.
  unfold reconcile_index, create_index. only_step.
  - by apply only_search_existing.
  - repeat only_step; auto.
Qed.

(** What the retry loop does when the last of its turns is the one numbered
    [max_retries - 1]: failed probes, each followed by a sleep, then one
    probe that ends the loop. *)
Lemma retry_loop_probes trans turns :
  (max_retries - 1)%nat ∉ turns ->
  traces (retry_loop trans (turns ++ [(max_retries - 1)%nat]))
    (fun r d => exists fails o,
       ping_outcomes d = (Some <$> fails) ++ [o]
       /\ Forall (fun e => is_connection_error e = true) fails
       /\ (length fails <= length turns)%nat
       /\ sleeps_of d = replicate (length fails) retry_delay
       /\ (o = None -> r = Ok tt)
       /\ (forall e, o = Some e ->
             r = Raise (if is_connection_error e
                        then RuntimeError (trans "general_database_connection_failed"
                                             "MongoDB connection failed after max retries")
                        else e)
             /\ (is_connection_error e = true -> length fails = length turns))).
Proof.
  induction turns as [|turn turns IH]; intros Hlast w.
  - cbn [app]. rewrite retry_loop_turn.
    destruct (w_faults w (w_calls w) AdminPing) as [e|] eqn:F.
    + destruct (is_connection_error e) eqn:C.
      * rewrite Nat.eqb_refl. eexists. split; [cbn; by rewrite <- app_assoc|].
        exists [], (Some e). cbn. split_and!; try done.
        intros ? [= <-]. by rewrite C.
      * eexists. split; [reflexivity|]. exists [], (Some e). cbn.
        split_and!; try done. intros ? [= <-]. by rewrite C.
    + eexists. split; [cbn; by rewrite <- app_assoc|].
      exists [], None. cbn. split_and!; done.
  - cbn [app]. rewrite retry_loop_turn.
    apply not_elem_of_cons in Hlast as [Hne Hlast].
    destruct (w_faults w (w_calls w) AdminPing) as [e|] eqn:F.
    + destruct (is_connection_error e) eqn:C.
      * destruct (Nat.eqb_spec turn (max_retries - 1)) as [->|_]; [done|].
        destruct (IH Hlast
                    (push [EvLog Error (LConnectionAttemptFailed (turn + 1) e);
                           EvSleep retry_delay]
                       (after_call AdminPing (Some e) w)))
          as (d & -> & fails & o & Hp & Hf & Hl & Hs & Hok & Herr).
        eexists. split; [cbn; rewrite <- !app_assoc; reflexivity|].
        exists (e :: fails), o. cbn [app].
        unfold ping_outcomes, sleeps_of in *. cbn. rewrite Hp, Hs.
        split_and!; try done.
        -- by constructor.
        -- lia.
        -- intros e' He'. destruct (Herr e' He') as [Hr Hall]. split; [exact Hr|].
           intros C'. by rewrite Hall.
      * eexists. split; [reflexivity|]. exists [], (Some e). cbn.
        split_and!; try done; [lia|]. intros ? [= <-]. by rewrite C.
    + eexists. split; [cbn; by rewrite <- app_assoc|].
      exists [], None. cbn. split_and!; try done. lia.
Qed.

(** X2.  In every run of [initialize_database] the liveness probe is issued
    at least once and at most three times.  Every probe but the last failed
    with a connection error and was followed by one sleep of [retry_delay]
    seconds; there is no other sleep.  When the last probe fails, the run
    raises: the error itself if it is not a connection error, and the
    "connection failed" error, all three turns used, if it is. *)
Theorem probe_budget trans w :
  let rw := initialize_database trans w in
  exists d fails o,
    w_trace rw.2 = w_trace w ++ d
    /\ ping_outcomes d = (Some <$> fails) ++ [o]
    /\ Forall (fun e => is_connection_error e = true) fails
    /\ (length fails <= 2)%nat
    /\ sleeps_of d = replicate (length fails) retry_delay
    /\ (forall e, o = Some e ->
          rw.1 = Raise (if is_connection_error e
                        then RuntimeError (trans "general_database_connection_failed"
                                             "MongoDB connection failed after max retries")
                        else e)
          /\ (is_connection_error e = true -> length fails = 2%nat)).
Proof.
  cbn zeta. unfold initialize_database. rewrite run_bind.
  assert ((max_retries - 1)%nat ∉ [0; 1]%nat) as Hlast.
  { cbn. rewrite !not_elem_of_cons. split_and!; try done. apply not_elem_of_nil. }
  destruct (retry_loop_probes trans [0; 1]%nat Hlast w)
    as (d1 & E1 & fails & o & Hp & Hf & Hl & Hs & Hok & Herr).
  change ([0; 1]%nat ++ [(max_retries - 1)%nat]) with (seq 0 max_retries) in *.
  destruct (retry_loop trans (seq 0 max_retries) w) as [[[]|e] w1]; cbn in *.
  - assert (traces (try_except (reconcile_and_seed trans)
                      (fun e => log Error (LInitializationFailed e) ;; raise e))
                   (only (fun ev => ~ probe_event ev))) as Hrest.
    { apply only_reconcile_and_seed; [by intros ? ? []|]. intros c ? Hc. destruct c; cbn; tauto. }
    destruct (Hrest w1) as (d2 & E2 & H2).
    apply no_probe_outcomes in H2 as [H2p H2s].
    exists (d1 ++ d2), fails, o. rewrite E2, E1, <- app_assoc.
    rewrite ping_outcomes_app, sleeps_of_app, H2p, H2s, !app_nil_r.
    split_and!; try done.
    intros e' ->. by destruct (Herr e' eq_refl) as [[=] _].
  - exists d1, fails, o. split_and!; done.
Qed.

(** X3.  A liveness probe that fails with anything but a connection error
    is not retried: [initialize_database] raises that error at once, with
    no log record, no sleep and no second probe, and the store is not
    touched. *)
Theorem other_probe_error_is_not_retried trans w e :
  w_faults w (w_calls w) AdminPing = Some e ->
  is_connection_error e = false ->
  initialize_database trans w = (Raise e, after_call AdminPing (Some e) w).
Proof.
  intros F C. unfold initialize_database. rewrite run_bind.
  change (seq 0 max_retries) with [0; 1; 2]%nat.
  by rewrite retry_loop_turn, F, C.
Qed.

Lemma other_probe_error_is_not_retried_witness :
  initialize_database default_text (boot empty_db probe_denied) =
    (Raise OperationFailure,
     after_call AdminPing (Some OperationFailure) (boot empty_db probe_denied)).
Proof.
  apply (other_probe_error_is_not_retried default_text (boot empty_db probe_denied)
           OperationFailure); reflexivity.
Defined.

(** ** Convergence of the declared indexes *)

Lemma index_present_stable db db' c index :
  db_le db db' -> index_present db c index -> index_present db' c index.
Proof.
  intros (_ & Hi & _) (item & Hin & Hk). exists item. split; [|done].
  destruct (Hi c) as [more ->]. apply elem_of_app. by left.
Qed.

Lemma index_exists_key existing keys options :
  index_exists existing keys options = true ->
  exists item, item ∈ existing /\ info_key item.2 = keys
               /\ existing_options_of item.2 = options.
Proof.
  rewrite index_exists_matched.
  destruct (matched_index existing keys) as [item|] eqn:E; [|done].
  intros Ho%bool_decide_eq_true.
  apply matched_index_Some in E as (before & after & -> & Hk & _).
  exists item. split; [|done]. apply elem_of_app. right. by left.
Qed.

Lemma create_index_present coll index db name db1 :
  clean_options (options_of index) ->
  db_create_index coll (ix_key index) (options_of index) db = Ok (name, db1) ->
  index_present db1 coll index.
Proof.
  intros Hc E. apply create_index_Ok in E as [[-> Esame]|(Hi & _)].
  - apply existsb_exists in Esame as (item & Hin & Hs).
    unfold same_index in Hs.
    apply andb_prop in Hs as [Hs Hrest]. apply andb_prop in Hs as [_ Hkey].
    apply bool_decide_eq_true in Hkey, Hrest.
    exists item. split_and!; [by apply list_elem_of_In|done|].
    by apply existing_options_same_rest.
  - exists (name, {| info_key := ix_key index;
                     info_rest := stored_rest (options_of index) |}).
    split_and!; [|reflexivity|by apply existing_options_stored].
    rewrite Hi. apply elem_of_app. right. by left.
Qed.

Lemma reconcile_index_present c existing index :
  clean_options (options_of index) ->
  post (reconcile_index c existing index)
    (grows_and (fun db _ db' =>
       existing `prefix_of` idx_of db c -> index_present db' c index)).
Proof.
  intros Hc w. unfold reconcile_index. rewrite run_bind, search_existing_run.
  destruct (index_exists existing _ _) eqn:Eflag; cbn.
  - split; [apply grows_refl|]. intros ? _ [more Hp].
    apply index_exists_key in Eflag as (item & Hin & Hk).
    exists item. split; [|done]. rewrite Hp. apply elem_of_app. by left.
  - unfold create_index, driver. rewrite run_bind.
    destruct (w_faults w (w_calls w) _) as [e|]; cbn.
    { split; [apply grows_refl|]. intros a [=]. }
    destruct (db_create_index _ _ _ _) as [[name db1]|e] eqn:E; cbn.
    + pose proof (create_index_present _ _ _ _ _ Hc E) as Hk.
      apply create_index_result in E as [G _]. split; [done|]. auto.
    + split; [apply grows_refl|]. intros a [=].
Qed.

Lemma reconcile_indexes_present c existing indexes :
  Forall (fun index => clean_options (options_of index)) indexes ->
  post (for_each indexes (reconcile_index c existing))
    (grows_and (fun db _ db' =>
       existing `prefix_of` idx_of db c ->
       Forall (index_present db' c) indexes)).
Proof.
  induction 1 as [|index rest Hc Hrest IH]; cbn [for_each].
  - apply grows_and_keeps; [apply keeps_ret|]. intros. constructor.
  - eapply grows_and_bind; [by apply reconcile_index_present|intros ?; exact IH|].
    cbn. intros db ? db1 ? db2 H1 H2 G1 G2 Hp.
    constructor.
    + eapply index_present_stable; [apply G2|]. auto.
    + apply H2. etrans; [exact Hp|]. apply G1.
Qed.

Lemma index_converged_stable db db' entry :
  db_le db db' -> index_converged db entry -> index_converged db' entry.
Proof.
  intros Hle [Hn Hi]. split; [by apply Hle|].
  eapply Forall_impl; [exact Hi|]. intros index. by apply index_present_stable.
Qed.

Lemma reconcile_collection_present collections entry :
  Forall (fun index => clean_options (options_of index)) (declared_indexes entry) ->
  post (reconcile_collection collections entry)
    (grows_and (fun db _ db' =>
       collections ⊆ db_names db -> index_converged db' entry)).
Proof.
  intros Hc. destruct entry as [c config].
  unfold reconcile_collection, declared_indexes in *. cbn [fst snd] in *.
  eapply (grows_and_bind _ _
            (fun db _ db' => collections ⊆ db_names db -> c ∈ db_names db')
            (fun _ db _ db' =>
               Forall (index_present db' c) (default [] (cfg_indexes config)))).
  - case_bool_decide as Hin.
    + eapply (grows_and_bind _ _ (fun _ _ db' => c ∈ db_names db')
                (fun _ db _ db' => db' = db)).
      * unfold create_collection. apply post_driver.
        -- intros db [] db1 E. apply grows_create_collection in E as [G Hn].
           split; [done|]. auto.
        -- intros db e. split; [apply grows_refl|]. intros a [=].
      * intros ?. apply grows_and_keeps; [apply keeps_log|]. done.
      * intros db ? db1 ? db2 H1 -> _ _ _. done.
    + apply grows_and_keeps; [apply keeps_ret|]. intros w a _ Hsub. by apply Hsub.
  - intros ?.
    eapply (grows_and_bind _ _ (fun db existing db' => db' = db /\ existing = idx_of db c)
              (fun existing db _ db' => existing `prefix_of` idx_of db c ->
                 Forall (index_present db' c) (default [] (cfg_indexes config)))).
    + unfold index_information. apply post_driver.
      * intros db l db1 [= <- <-]. split; [apply grows_refl|]. by intros ? [= <-].
      * intros db e. split; [apply grows_refl|]. intros ? [=].
    + intros existing. by apply reconcile_indexes_present.
    + intros db existing db1 ? db2 [-> ->] H2 _ _. by apply H2.
  - cbn. intros db ? db1 ? db2 H1 H2 G1 G2 Hsub. split; cbn.
    + apply G2. auto.
    + exact H2.
Qed.

Lemma reconcile_collections_present collections entries :
  Forall (fun entry =>
            Forall (fun index => clean_options (options_of index))
                   (declared_indexes entry)) entries ->
  post (for_each entries (reconcile_collection collections))
    (grows_and (fun db _ db' =>
       collections ⊆ db_names db -> Forall (index_converged db') entries)).
Proof.
  induction 1 as [|entry rest Hc Hrest IH]; cbn [for_each].
  - apply grows_and_keeps; [apply keeps_ret|]. intros. constructor.
  - eapply grows_and_bind;
      [by apply reconcile_collection_present|intros ?; exact IH|].
    cbn. intros db ? db1 ? db2 H1 H2 G1 G2 Hsub. constructor.
    + eapply index_converged_stable; [apply G2|]. auto.
    + apply H2. etrans; [exact Hsub|]. apply G1.
Qed.

Lemma declared_options_clean :
  Forall (fun entry =>
            Forall (fun index => clean_options (options_of index))
                   (declared_indexes entry)) collection_schemas.
Proof.
  eapply Forall_impl; [apply declarations_well_formed|]. by intros entry [H _].
Qed.

Lemma seeds_grow trans :
  post (seed_courses ≫= fun _ => seed_tax_rates trans ≫= fun _ =>
        seed_payment_locations)
       (fun db _ db' => grows db db').
Proof.
  eapply post_weaken.
  - eapply (grows_and_bind _ _ (seeded "courses") (fun _ _ _ _ => True)
              (fun _ _ _ => True)); [apply seed_courses_result| |done].
    intros ?.
    eapply (grows_and_bind _ _ (seeded "tax_rates") (fun _ _ _ _ => True));
      [by apply seed_many_result| |done].
    intros ?. eapply post_weaken; [by apply (seed_many_result "payment_locations")|].
    intros db r db' [G _]. split; [done|]. done.
  - by intros db r db' [G _].
Qed.

Lemma reconcile_and_seed_present trans :
  post (reconcile_and_seed trans)
    (grows_and (fun _ _ db' => Forall (index_converged db') collection_schemas)).
Proof.
  unfold reconcile_and_seed.
  eapply (grows_and_bind _ _ (fun db _ db' => db' = db)
            (fun _ _ _ db' => Forall (index_converged db') collection_schemas)).
  { apply grows_and_keeps; [apply keeps_get_db|done]. }
  2: { intros db ? db1 ? db2 -> H2 _ _. done. }
  intros ?.
  eapply (grows_and_bind _ _ (fun db _ db' => db' = db)
            (fun _ _ _ db' => Forall (index_converged db') collection_schemas)).
  { apply grows_and_keeps; [apply keeps_log|done]. }
  2: { intros db ? db1 ? db2 -> H2 _ _. done. }
  intros ?.
  eapply (grows_and_bind _ _ (fun db collections db' => db' = db /\ collections = db_names db)
            (fun collections db _ db' =>
               collections ⊆ db_names db -> Forall (index_converged db') collection_schemas)).
  { unfold list_collection_names. apply post_driver.
    - intros db l db1 [= <- <-]. split; [apply grows_refl|]. by intros ? [= <-].
    - intros db e. split; [apply grows_refl|]. intros ? [=]. }
  2: { intros db ? db1 ? db2 [-> ->] H2 _ _. by apply H2. }
  intros collections.
  eapply (grows_and_bind _ _ _ (fun _ _ _ _ => True));
    [apply reconcile_collections_present, declared_options_clean| |].
  - intros ?. eapply post_weaken; [apply seeds_grow|].
    intros db r db' G. split; done.
  - cbn. intros db ? db1 ? db2 H1 _ G1 G2 Hsub.
    eapply Forall_impl; [by apply H1|]. intros entry. apply index_converged_stable, G2.
Qed.

Lemma returned_run_converged trans w w1 :
  initialize_database trans w = (Ok tt, w1) ->
  Forall (index_converged (w_db w1)) collection_schemas.
Proof.
  intros E. unfold initialize_database in E.
  apply bind_Ok in E as ([] & w0 & _ & E). unfold try_except in E.
  pose proof (reconcile_and_seed_present trans w0) as [_ H].
  destruct (reconcile_and_seed trans w0) as [[[]|e] w2]; cbn in *.
  - injection E as <-. by apply (H tt).
  - unfold mbind, M_bind, log, emit, raise in E. cbn in E. done.
Qed.

(** X4.  Index convergence.  After a run of [initialize_database] that
    returned, whatever the store looked like before, every declared
    collection exists and, for every declared index, the collection has a
    live index whose ordered key tuple is the declared one. *)
Theorem declared_keys_converge trans w w1 :
  initialize_database trans w = (Ok tt, w1) ->
  Forall (fun entry =>
            entry.1 ∈ db_names (w_db w1)
            /\ Forall (fun index =>
                         exists item, item ∈ idx_of (w_db w1) entry.1
                                      /\ info_key item.2 = ix_key index)
                      (declared_indexes entry))
         collection_schemas.
Proof.
  intros E. eapply Forall_impl; [by eapply returned_run_converged|].
  intros entry [Hn Hi]. split; [done|].
  eapply Forall_impl; [exact Hi|]. intros index (item & Hin & Hk & _). eauto.
Qed.

Lemma declared_keys_converge_witness :
  let db := w_db (initialize_database default_text (boot twin_db no_faults)).2 in
  Forall (fun entry =>
            entry.1 ∈ db_names db
            /\ Forall (fun index =>
                         exists item, item ∈ idx_of db entry.1
                                      /\ info_key item.2 = ix_key index)
                      (declared_indexes entry))
         collection_schemas.
Proof.
  apply (declared_keys_converge default_text (boot twin_db no_faults)
           (initialize_database default_text (boot twin_db no_faults)).2).
  vm_compute. reflexivity.
Defined.

(** ** The seed guard *)

Lemma sat_of_traces_post {A} (m : M A) (P : result A -> list event -> Prop)
    (R : db_state -> result A -> db_state -> Prop) :
  traces m P -> post m R -> sat m (fun db r d db' => P r d /\ R db r db').
Proof.
  intros HP HR w. destruct (HP w) as (d & E & H). exists d. split; [done|].
  split; [done|apply HR].
Qed.

Lemma docs_of_create_collection name validator db db1 c :
  db_create_collection name validator db = Ok (tt, db1) ->
  docs_of db1 c = docs_of db c.
Proof.
  unfold db_create_collection. case_bool_decide; [done|]. by intros [= <-].
Qed.

Lemma docs_of_create_index coll keys options db name db1 c :
  db_create_index coll keys options db = Ok (name, db1) ->
  docs_of db1 c = docs_of db c.
Proof.
  intros E. apply create_index_Ok in E as [[-> _]|(_ & _ & _ & Hd & _)].
  - apply docs_of_touch.
  - unfold docs_of at 1. rewrite Hd. apply docs_of_touch.
Qed.

Lemma touch_next_oid coll db : db_next_oid (touch coll db) = db_next_oid db.
Proof. unfold touch. by case_bool_decide. Qed.

Lemma insert_one_docs coll d db db1 :
  db_insert_one coll d db = Ok (tt, db1) ->
  docs_of db1 coll = docs_of db coll ++ [with_id (db_next_oid db) d]
  /\ (forall c, c <> coll -> docs_of db1 c = docs_of db c).
Proof.
  intros E. apply insert_one_Ok in E as (-> & _). split.
  - by rewrite docs_of_insert, decide_True, docs_of_touch, touch_next_oid.
  - intros c Hc. rewrite docs_of_insert, decide_False by done. apply docs_of_touch.
Qed.

Lemma assoc_del_absent {A} k (l : list (string * A)) :
  assoc_get k l = None -> assoc_del k l = l.
Proof.
  unfold assoc_del. induction l as [|[k' v] l IH]; [done|].
  cbn [assoc_get]. rewrite filter_cons. cbn [fst].
  destruct (String.eqb k k'); [done|]. intros H.
  rewrite decide_True by done. f_equal. by apply IH.
Qed.

Lemma without_with_id n d : no_id d -> without_id (with_id n d) = d.
Proof.
  unfold no_id. destruct d as [| | | | | | | |fields]; try done.
  cbn [jget with_id]. intros H. rewrite H. cbn [without_id]. f_equal.
  unfold assoc_del. rewrite filter_cons. cbn [fst].
  rewrite decide_False by (cbn; tauto).
  by apply assoc_del_absent.
Qed.

Lemma insert_many_docs coll ds db db1 :
  db_insert_many coll ds db = Ok (tt, db1) ->
  (exists stored, docs_of db1 coll = docs_of db coll ++ stored
                  /\ (Forall no_id ds -> without_id <$> stored = ds))
  /\ (forall c, c <> coll -> docs_of db1 c = docs_of db c).
Proof.
  revert db. induction ds as [|d ds IH]; cbn; intros db.
  - intros [= <-]. split; [|done]. exists []. by rewrite app_nil_r.
  - destruct (db_insert_one coll d db) as [[[] db0]|e] eqn:E; [|done].
    intros H. apply insert_one_docs in E as [E0 E0'].
    apply IH in H as [(stored & E1 & Hs) E1']. split.
    + exists (with_id (db_next_oid db) d :: stored). split.
      * by rewrite E1, E0, <- app_assoc.
      * intros Hno. apply Forall_cons in Hno as [Hd Hds]. cbn.
        rewrite (Hs Hds). f_equal.
        by apply without_with_id.
    + intros c Hc. by rewrite E1', E0'.
Qed.

Lemma guarded_bind coll {A B} (m : M A) (f : A -> M B) :
  sat m (guarded coll) -> (forall a, sat (f a) (guarded coll)) ->
  sat (m ≫= f) (guarded coll).
Proof.
  intros Hm Hf. apply (sat_bind m f (guarded coll) (fun _ => guarded coll)); auto.
  intros db a d1 db1 r d2 db2 H1 H2 Hne.
  destruct (H1 Hne) as [E1 F1]. rewrite <- E1 in Hne.
  destruct (H2 Hne) as [E2 F2]. split; [congruence|by apply Forall_app].
Qed.

Lemma guarded_try coll {A} (m : M A) (h : exn -> M A) :
  sat m (guarded coll) -> (forall e, sat (h e) (guarded coll)) ->
  sat (try_except m h) (guarded coll).
Proof.
  intros Hm Hh. apply (sat_try m h (guarded coll) (fun _ => guarded coll)); auto.
  intros db a d1 db1 r d2 db2 H1 H2 Hne.
  destruct (H1 Hne) as [E1 F1]. rewrite <- E1 in Hne.
  destruct (H2 Hne) as [E2 F2]. split; [congruence|by apply Forall_app].
Qed.

Lemma guarded_for_each coll {A} (l : list A) (body : A -> M unit) :
  (forall x, sat (body x) (guarded coll)) -> sat (for_each l body) (guarded coll).
Proof.
  intros Hb. induction l as [|x l IH]; cbn [for_each].
  - apply sat_ret. intros db _. split; [done|constructor].
  - apply guarded_bind; auto.
Qed.

(** Steps that leave the documents alone and insert nothing. *)
Lemma guarded_still coll {A} (m : M A) :
  traces m (only (fun ev => ~ inserts_into coll ev)) -> post m keeps_docs ->
  sat m (guarded coll).
Proof.
  intros Ht Hp. eapply sat_weaken; [by apply sat_of_traces_post|].
  cbn. intros db r d db' [Hd Hk] _. split; [apply Hk|exact Hd].
Qed.

Lemma keeps_docs_of_keeps_db {A} (m : M A) : keeps_db m -> post m keeps_docs.
Proof. intros H. apply post_keeps; [done|]. by intros db r c. Qed.

Lemma keeps_docs_bind {A B} (m : M A) (f : A -> M B) :
  post m keeps_docs -> (forall a, post (f a) keeps_docs) -> post (m ≫= f) keeps_docs.
Proof.
  intros Hm Hf. apply (post_bind m f keeps_docs (fun _ => keeps_docs)); auto.
  intros db a db1 r db2 H1 H2 c. by rewrite H2, H1.
Qed.

Lemma keeps_docs_for_each {A} (l : list A) (body : A -> M unit) :
  (forall x, post (body x) keeps_docs) -> post (for_each l body) keeps_docs.
Proof.
  intros Hb. induction l as [|x l IH]; cbn [for_each].
  - apply keeps_docs_of_keeps_db, keeps_ret.
  - apply keeps_docs_bind; auto.
Qed.

Lemma keeps_search_existing c existing keys options :
  keeps_db (search_existing c existing keys options).
Proof.
  intros w. rewrite search_existing_run. cbn. by destruct (index_exists _ _ _).
Qed.

Lemma keeps_docs_reconcile_index c existing index :
  post (reconcile_index c existing index) keeps_docs.
Proof.
  unfold reconcile_index. apply keeps_docs_bind.
  - apply keeps_docs_of_keeps_db, keeps_search_existing.
  - intros []; cbn; [apply keeps_docs_of_keeps_db, keeps_ret|].
    apply keeps_docs_bind; [|intros ?; apply keeps_docs_of_keeps_db, keeps_log].
    unfold create_index. apply post_driver.
    + intros db name db1 E c'. by eapply docs_of_create_index.
    + by intros db e c'.
Qed.

Lemma keeps_docs_reconcile_collection collections entry :
  post (reconcile_collection collections entry) keeps_docs.
Proof.
  unfold reconcile_collection. apply keeps_docs_bind.
  - case_bool_decide; [|apply keeps_docs_of_keeps_db, keeps_ret].
    apply keeps_docs_bind; [|intros ?; apply keeps_docs_of_keeps_db, keeps_log].
    unfold create_collection. apply post_driver.
    + intros db [] db1 E c'. by eapply docs_of_create_collection.
    + by intros db e c'.
  - intros ?. apply keeps_docs_bind.
    + apply keeps_docs_of_keeps_db, keeps_reading.
    + intros existing. apply keeps_docs_for_each. intros index.
      apply keeps_docs_reconcile_index.
Qed.

Lemma guarded_driver coll {A} c (sem : db_state -> result (A * db_state)) :
  (forall o, ~ inserts_into coll (EvCall c o)) ->
  (forall db a db1, sem db = Ok (a, db1) -> docs_of db1 coll = docs_of db coll) ->
  sat (driver c sem) (guarded coll).
Proof.
  intros Hc Hsem. apply sat_driver.
  - intros db a db1 E _. split; [by eapply Hsem|]. repeat constructor. apply Hc.
  - intros db e _. split; [done|]. repeat constructor. apply Hc.
Qed.

(** A step that depends on the count of a collection: when that collection
    is the guarded one, only the non-zero counts matter. *)
Lemma guarded_counted coll coll' {B} (k : nat -> M B) :
  (forall n, traces (k n) (only (fun _ => True))) ->
  (forall n, (coll = coll' -> n <> 0%nat) -> sat (k n) (guarded coll')) ->
  sat (count_documents coll ≫= k) (guarded coll').
Proof.
  intros Ht Hk w. rewrite run_bind. unfold count_documents, driver, reading.
  destruct (w_faults w (w_calls w) (CountDocuments coll)) as [e|] eqn:F; cbn.
  { exists [EvCall (CountDocuments coll) (Some e)]. split; [done|].
    intros _. split; [done|]. repeat constructor. cbn. tauto. }
  set (n := length (docs_of (w_db w) coll)).
  set (w1 := {| w_db := w_db w |}).
  destruct (decide (coll = coll' /\ n = 0%nat)) as [[-> Hn]|Hno].
  - destruct (Ht n w1) as (d & E & _). exists (EvCall (CountDocuments coll') None :: d).
    split; [rewrite E; cbn; by rewrite <- app_assoc|].
    intros Hne. exfalso. subst n. by destruct (docs_of (w_db w) coll').
  - destruct (Hk n) with (w := w1) as (d & E & H).
    { intros ->. intros ->. by apply Hno. }
    exists (EvCall (CountDocuments coll) None :: d).
    split; [rewrite E; cbn; by rewrite <- app_assoc|].
    intros Hne. destruct (H Hne) as [E1 F1]. split; [done|].
    constructor; [cbn; tauto|done].
Qed.

Lemma guarded_log coll lvl msg : sat (log lvl msg) (guarded coll).
Proof. apply sat_emit. intros db _. split; [done|]. repeat constructor. cbn. tauto. Qed.

Lemma guarded_insert_one coll coll' d :
  coll <> coll' -> sat (insert_one coll d) (guarded coll').
Proof.
  intros Hne. apply guarded_driver; [by intros o ->|].
  intros db [] db1 E. apply insert_one_docs in E as [_ E]. by apply E.
Qed.

Lemma guarded_insert_many coll coll' ds :
  coll <> coll' -> sat (insert_many coll ds) (guarded coll').
Proof.
  intros Hne. apply guarded_driver; [by intros o ->|].
  intros db [] db1 E. apply insert_many_docs in E as [_ E]. by apply E.
Qed.

Lemma guarded_seed_many coll coll' ds msg :
  sat (n ← count_documents coll ;
       if Nat.eqb n 0 then insert_many coll ds ≫= fun _ => log Info msg
       else mret tt)
      (guarded coll').
Proof.
  apply guarded_counted.
  - intros n. unfold insert_many. repeat only_step; done.
  - intros n Hn. destruct (Nat.eqb_spec n 0) as [->|_].
    + apply guarded_bind; [|intros ?; apply guarded_log].
      apply guarded_insert_many. intros E. by apply Hn.
    + apply sat_ret. intros db _. split; [done|constructor].
Qed.

Lemma guarded_seed_courses coll' : sat seed_courses (guarded coll').
Proof.
  unfold seed_courses. apply guarded_counted.
  - intros n. unfold insert_one, find_all_without_id. repeat only_step; done.
  - intros n Hn. apply guarded_bind.
    + destruct (Nat.eqb_spec n 0) as [->|_].
      * apply guarded_bind; [|intros ?; apply guarded_log].
        apply guarded_for_each. intros d. apply guarded_insert_one.
        intros E. by apply Hn.
      * apply sat_ret. intros db _. split; [done|constructor].
    + intros ?. apply guarded_bind.
      * unfold find_all_without_id. apply guarded_driver; [intros o; cbn; tauto|].
        by intros db0 v db1 [= _ <-].
      * intros courses. apply guarded_still.
        -- apply only_set_courses.
        -- by intros w c.
Qed.

Lemma guarded_reconcile_and_seed trans coll :
  sat (reconcile_and_seed trans) (guarded coll).
Proof.
  unfold reconcile_and_seed.
  apply guarded_bind.
  { apply guarded_still; [|apply keeps_docs_of_keeps_db, keeps_get_db].
    unfold get_db, db_ping. repeat only_step; cbn; tauto. }
  intros ?. apply guarded_bind; [apply guarded_log|]. intros ?.
  apply guarded_bind.
  { unfold list_collection_names. apply guarded_driver; [intros o; cbn; tauto|].
    by intros db0 v db1 [= _ <-]. }
  intros collections. apply guarded_bind.
  { apply guarded_for_each. intros entry. apply guarded_still.
    - unfold reconcile_collection, create_collection, index_information.
      repeat only_step; cbn; try tauto.
      unfold reconcile_index, create_index. only_step.
      + apply only_search_existing. intros ? ?. cbn. tauto.
      + repeat only_step; cbn; tauto.
    - apply keeps_docs_reconcile_collection. }
  intros ?. apply guarded_bind; [apply guarded_seed_courses|]. intros ?.
  apply guarded_bind; [apply guarded_seed_many|]. intros ?.
  apply guarded_seed_many.
Qed.

Lemma guarded_initialize_database trans coll :
  sat (initialize_database trans) (guarded coll).
Proof.
  unfold initialize_database. apply guarded_bind.
  - apply guarded_still; [|apply keeps_docs_of_keeps_db, keeps_retry_loop].
    induction (seq 0 max_retries) as [|attempt rest IH]; cbn [retry_loop].
    + apply only_ret.
    + unfold try_except_on, admin_ping. repeat only_step; cbn; tauto.
  - intros ?. apply guarded_try; [apply guarded_reconcile_and_seed|].
    intros e. apply guarded_bind; [apply guarded_log|]. intros ?.
    apply sat_raise. intros db _. split; [done|constructor].
Qed.

(** X5.  The seed guard, one way: a collection that holds documents when
    [initialize_database] starts is left alone by it, whatever else
    happens in the run.  Its documents are the same afterwards, and the run
    does not even attempt an insertion into it. *)
Theorem filled_collection_is_left_alone trans w coll :
  docs_of (w_db w) coll <> [] ->
  let rw := initialize_database trans w in
  docs_of (w_db rw.2) coll = docs_of (w_db w) coll
  /\ exists d, w_trace rw.2 = w_trace w ++ d
               /\ Forall (fun ev => ~ inserts_into coll ev) d.
Proof.
  intros Hne. destruct (guarded_initialize_database trans coll w) as (d & E & H).
  destruct (H Hne) as [Hd Hf]. split; [done|]. by exists d.
Qed.

Lemma filled_collection_is_left_alone_witness :
  let w := boot custom_rates_db no_faults in
  let rw := initialize_database default_text w in
  docs_of (w_db rw.2) "tax_rates" = docs_of (w_db w) "tax_rates"
  /\ exists d, w_trace rw.2 = w_trace w ++ d
               /\ Forall (fun ev => ~ inserts_into "tax_rates" ev) d.
Proof.
  apply (filled_collection_is_left_alone default_text
           (boot custom_rates_db no_faults) "tax_rates").
  vm_compute. discriminate.
Defined.

(** ** Seeding an empty reference collection *)

Lemma for_each_insert_one_docs coll ds :
  post (for_each ds (insert_one coll))
    (fun db r db' =>
       (forall c, c <> coll -> docs_of db' c = docs_of db c)
       /\ exists stored,
            docs_of db' coll = docs_of db coll ++ stored
            /\ (r = Ok tt -> Forall no_id ds -> without_id <$> stored = ds)).
Proof.
  induction ds as [|d ds IH]; cbn [for_each].
  - intros w. cbn. split; [done|]. exists []. by rewrite app_nil_r.
  - eapply (post_bind _ _
              (fun db r db' =>
                 (forall c, c <> coll -> docs_of db' c = docs_of db c)
                 /\ exists stored,
                      docs_of db' coll = docs_of db coll ++ stored
                      /\ (r = Ok tt -> no_id d -> without_id <$> stored = [d]))
              (fun _ => _)).
    + unfold insert_one. apply post_driver.
      * intros db [] db1 E. apply insert_one_docs in E as [E E']. split; [done|].
        eexists. split; [exact E|]. intros _ Hd. cbn. by rewrite without_with_id.
      * intros db e. split; [done|]. exists []. by rewrite app_nil_r.
    + intros ?. exact IH.
    + cbn. intros db e db' [H1 (stored & E & _)]. split; [done|].
      exists stored. split; [done|]. intros [=].
    + cbn. intros db [] db1 r db2 [H1 (s1 & E1 & Hs1)] [H2 (s2 & E2 & Hs2)].
      split; [intros c Hc; by rewrite H2, H1|].
      exists (s1 ++ s2). split; [by rewrite E2, E1, <- app_assoc|].
      intros Hr Hno. apply Forall_cons in Hno as [Hd Hds].
      by rewrite fmap_app, Hs1, Hs2.
Qed.

Lemma seeds_with_counted coll seed (m : M unit) :
  post m (fun db r db' =>
            (forall c, c <> coll -> docs_of db' c = docs_of db c)
            /\ (docs_of db coll = [] -> r = Ok tt ->
                without_id <$> docs_of db' coll = seed)) ->
  forall n,
    post (if Nat.eqb n 0 then m else mret tt)
      (fun db r db' => n = length (docs_of db coll) -> seeds_with coll seed db r db').
Proof.
  intros Hm n. destruct (Nat.eqb_spec n 0) as [->|Hn].
  - intros w Hlen. destruct (Hm w) as [H1 H2].
    split_and!; [done| |done].
    intros Hne. by destruct (docs_of (w_db w) coll).
  - intros w Hlen. cbn. split_and!; [done|done|].
    intros Hnil. rewrite Hnil in Hlen. done.
Qed.

Lemma count_documents_length coll :
  post (count_documents coll)
    (fun db r db' => db' = db /\ forall n, r = Ok n -> n = length (docs_of db coll)).
Proof.
  unfold count_documents. apply post_driver.
  - intros db n db1 [= <- <-]. split; [done|]. by intros ? [= <-].
  - intros db e. split; [done|]. intros ? [=].
Qed.

Lemma seed_many_docs coll ds msg :
  Forall no_id ds ->
  post (n ← count_documents coll ;
        if Nat.eqb n 0 then insert_many coll ds ≫= fun _ => log Info msg
        else mret tt)
       (seeds_with coll ds).
Proof.
  intros Hno.
  eapply (post_bind _ _ _
            (fun n db r db' => n = length (docs_of db coll) -> seeds_with coll ds db r db')).
  - apply count_documents_length.
  - apply seeds_with_counted.
    eapply (post_bind _ _
              (fun db r db' =>
                 (forall c, c <> coll -> docs_of db' c = docs_of db c)
                 /\ (docs_of db coll = [] -> r = Ok tt ->
                     without_id <$> docs_of db' coll = ds))
              (fun _ db r db' => db' = db)).
    + unfold insert_many. apply post_driver.
      * intros db [] db1 E. apply insert_many_docs in E as [(stored & E & Hs) E'].
        split; [done|]. intros Hnil _. rewrite E, Hnil. cbn. by apply Hs.
      * intros db e. split; [done|]. intros _ [=].
    + intros ?. apply post_keeps; [apply keeps_log|done].
    + cbn. intros db e db' [H1 _]. split; [done|]. intros _ [=].
    + cbn. intros db [] db1 r db2 [H1 H2] ->. split; [done|]. intros Hnil _. by apply H2.
  - cbn. intros db e db' [-> _]. split_and!; done.
  - cbn. intros db n db1 r db2 [-> Hn] H. by apply H, Hn.
Qed.

Lemma seed_courses_docs : post seed_courses (seeds_with "courses" SAMPLE_COURSES).
Proof.
  unfold seed_courses.
  eapply (post_bind _ _ _
            (fun n db r db' => n = length (docs_of db "courses") ->
                               seeds_with "courses" SAMPLE_COURSES db r db')).
  - apply count_documents_length.
  - intros n.
    eapply (post_bind _ _ _ (fun _ db r db' => db' = db)).
    + apply (seeds_with_counted "courses" SAMPLE_COURSES).
      eapply (post_bind _ _
                (fun db r db' =>
                   (forall c, c <> "courses" -> docs_of db' c = docs_of db c)
                   /\ (docs_of db "courses" = [] -> r = Ok tt ->
                       without_id <$> docs_of db' "courses" = SAMPLE_COURSES))
                (fun _ db r db' => db' = db)).
      * eapply post_weaken; [apply for_each_insert_one_docs|].
        cbn. intros db r db' [H1 (stored & E & Hs)]. split; [done|].
        intros Hnil Hr. rewrite E, Hnil. cbn. apply Hs; [done|].
        repeat constructor.
      * intros ?. apply post_keeps; [apply keeps_log|done].
      * cbn. intros db e db' [H1 _]. split; [done|]. intros _ [=].
      * cbn. intros db [] db1 r db2 [H1 H2] ->. split; [done|].
        intros Hnil _. by apply H2.
    + intros ?. apply post_keeps; [|done].
      unfold find_all_without_id. apply keeps_bind; [apply keeps_reading|]. done.
    + cbn. intros db e db' H Hn. destruct (H Hn) as (H1 & H2 & _).
      split_and!; done.
    + cbn. intros db [] db1 r db2 H -> Hn. destruct (H Hn) as (H1 & H2 & H3).
      split_and!; try done. intros Hnil Hr. by apply H3.
  - cbn. intros db e db' [-> _]. split_and!; done.
  - cbn. intros db n db1 r db2 [-> Hn] H. by apply H, Hn.
Qed.

(** ** A run that returned *)

Lemma keeps_config_seed_many coll ds msg :
  keeps_config (n ← count_documents coll ;
                if Nat.eqb n 0 then insert_many coll ds ≫= fun _ => log Info msg
                else mret tt).
Proof.
  intros w. rewrite run_bind. unfold count_documents, driver, reading.
  destruct (w_faults w (w_calls w) _); cbn; [done|].
  destruct (Nat.eqb _ 0); [|done].
  rewrite run_bind. unfold insert_many, driver. cbn.
  destruct (w_faults w (S (w_calls w)) _); cbn; [done|].
  by destruct (db_insert_many _ _ _) as [[[] ?]|?].
Qed.

(** The steps of a run of [initialize_database] that returned. *)
Lemma initialize_database_Ok trans w w1 :
  initialize_database trans w = (Ok tt, w1) ->
  exists wc wd we wf,
    w_db wc = w_db w
    /\ for_each collection_schemas (reconcile_collection (db_names (w_db wc))) wc = (Ok tt, wd)
    /\ seed_courses wd = (Ok tt, we)
    /\ seed_tax_rates trans we = (Ok tt, wf)
    /\ seed_payment_locations wf = (Ok tt, w1).
Proof.
  intros E. unfold initialize_database in E.
  apply bind_Ok in E as ([] & w0 & E0 & E).
  pose proof (keeps_retry_loop trans (seq 0 max_retries) w) as K0. rewrite E0 in K0.
  unfold try_except in E.
  destruct (reconcile_and_seed trans w0) as [[[]|e] w2] eqn:ER.
  2: { unfold mbind, M_bind, log, emit, raise in E. cbn in E. done. }
  injection E as ->. unfold reconcile_and_seed in ER.
  apply bind_Ok in ER as ([] & wa & Ea & ER).
  pose proof (keeps_get_db w0) as Ka. rewrite Ea in Ka.
  apply bind_Ok in ER as ([] & wb & Eb & ER).
  pose proof (keeps_log Info LDatabaseName wa) as Kb. rewrite Eb in Kb.
  apply bind_Ok in ER as (collections & wc & Ec & ER).
  pose proof (keeps_reading ListCollectionNames db_names wb) as Kc.
  unfold list_collection_names in Ec. rewrite Ec in Kc.
  assert (collections = db_names (w_db wc)) as ->.
  { unfold driver, reading in Ec.
    destruct (w_faults wb (w_calls wb) ListCollectionNames); [done|].
    by injection Ec as <- <-. }
  apply bind_Ok in ER as ([] & wd & Ed & ER).
  apply bind_Ok in ER as ([] & we & Ee & ER).
  apply bind_Ok in ER as ([] & wf & Ef & ER).
  exists wc, wd, we, wf. split_and!; try done.
  cbn in *. congruence.
Qed.

Lemma seed_courses_config w w' :
  seed_courses w = (Ok tt, w') ->
  w_courses w' = Some (without_id <$> docs_of (w_db w') "courses").
Proof.
  unfold seed_courses. intros E.
  apply bind_Ok in E as (n & w1 & _ & E).
  apply bind_Ok in E as ([] & w2 & _ & E).
  apply bind_Ok in E as (courses & w3 & E3 & E).
  unfold find_all_without_id, driver, reading in E3.
  destruct (w_faults w2 (w_calls w2) _); [done|].
  injection E3 as <- <-. unfold set_courses in E. by injection E as <-.
Qed.

Lemma without_id_no_id d : no_id (without_id d).
Proof.
  unfold no_id. destruct d as [| | | | | | | |fields]; try done.
  cbn [without_id jget]. unfold assoc_del.
  induction fields as [|[k v] fields IH]; [done|].
  rewrite filter_cons. cbn [fst].
  destruct (String.eqb "_id" k) eqn:Ek.
  - by rewrite decide_False by (cbn; tauto).
  - rewrite decide_True by done. cbn [assoc_get]. by rewrite Ek.
Qed.

(** What a run that returned has done to the three reference collections:
    a collection that held documents is as before, an empty one holds its
    seed. *)
Lemma returned_run_seeding trans w w1 :
  initialize_database trans w = (Ok tt, w1) ->
  Forall (fun cs : string * list json =>
            (docs_of (w_db w) cs.1 <> [] ->
             docs_of (w_db w1) cs.1 = docs_of (w_db w) cs.1)
            /\ (docs_of (w_db w) cs.1 = [] ->
                without_id <$> docs_of (w_db w1) cs.1 = cs.2))
         [("courses", SAMPLE_COURSES); ("tax_rates", sample_rates trans);
          ("payment_locations", sample_locations)].
Proof.
  intros E.
  apply initialize_database_Ok in E as (wc & wd & we & wf & Ec & Ed & Ee & Ef & E1).
  pose proof (keeps_docs_for_each collection_schemas
                (reconcile_collection (db_names (w_db wc)))
                (keeps_docs_reconcile_collection _) wc) as Kd.
  rewrite Ed in Kd. cbn in Kd.
  pose proof (seed_courses_docs wd) as (Hc1 & Hc2 & Hc3). rewrite Ee in Hc1, Hc2, Hc3.
  pose proof (seed_many_docs "tax_rates" (sample_rates trans) LTaxRatesInitialized) as Ht.
  specialize (Ht ltac:(repeat constructor) we) as (Ht1 & Ht2 & Ht3).
  change (n ← count_documents "tax_rates"; _) with (seed_tax_rates trans) in Ht1, Ht2, Ht3.
  rewrite Ef in Ht1, Ht2, Ht3.
  pose proof (seed_many_docs "payment_locations" sample_locations
                LPaymentLocationsInitialized) as Hp.
  specialize (Hp ltac:(repeat constructor) wf) as (Hp1 & Hp2 & Hp3).
  change (n ← count_documents "payment_locations"; _) with seed_payment_locations
    in Hp1, Hp2, Hp3.
  rewrite E1 in Hp1, Hp2, Hp3. cbn in *.
  assert (forall c, docs_of (w_db wd) c = docs_of (w_db w) c) as Kw.
  { intros c. by rewrite Kd, Ec. }
  repeat apply Forall_cons_2; [| | |apply Forall_nil_2]; cbn [fst snd]; split.
  - intros Hne. rewrite Hp1, Ht1 by done. rewrite <- Kw. apply Hc2. by rewrite Kw.
  - intros Hnil. rewrite Hp1, Ht1 by done. apply Hc3; [|done]. by rewrite Kw.
  - intros Hne. rewrite Hp1 by done. rewrite <- Kw, <- Hc1 by done.
    apply Ht2. by rewrite Hc1, Kw.
  - intros Hnil. rewrite Hp1 by done. apply Ht3; [|done]. by rewrite Hc1, Kw.
  - intros Hne. rewrite <- Kw, <- Hc1, <- Ht1 by done.
    apply Hp2. by rewrite Ht1, Hc1, Kw.
  - intros Hnil. apply Hp3; [|done]. by rewrite Ht1, Hc1, Kw.
Qed.

(** X6.  The seed guard, the other way: when a run of
    [initialize_database] has returned, each of the three reference
    collections that was empty at the start holds exactly its canonical
    seed documents, in order, each with an ['_id'] added by the store. *)
Theorem empty_collections_get_the_seed trans w w1 :
  initialize_database trans w = (Ok tt, w1) ->
  (docs_of (w_db w) "courses" = [] ->
   without_id <$> docs_of (w_db w1) "courses" = SAMPLE_COURSES)
  /\ (docs_of (w_db w) "tax_rates" = [] ->
      without_id <$> docs_of (w_db w1) "tax_rates" = sample_rates trans)
  /\ (docs_of (w_db w) "payment_locations" = [] ->
      without_id <$> docs_of (w_db w1) "payment_locations" = sample_locations).
Proof.
  intros E. apply returned_run_seeding in E.
  apply Forall_cons in E as [[_ Hc] E].
  apply Forall_cons in E as [[_ Ht] E].
  apply Forall_cons in E as [[_ Hp] _].
  done.
Qed.

Lemma empty_collections_get_the_seed_witness :
  let w := boot custom_rates_db no_faults in
  let w1 := (initialize_database default_text w).2 in
  (docs_of (w_db w) "courses" = [] ->
   without_id <$> docs_of (w_db w1) "courses" = SAMPLE_COURSES)
  /\ (docs_of (w_db w) "tax_rates" = [] ->
      without_id <$> docs_of (w_db w1) "tax_rates" = sample_rates default_text)
  /\ (docs_of (w_db w) "payment_locations" = [] ->
      without_id <$> docs_of (w_db w1) "payment_locations" = sample_locations).
Proof.
  apply (empty_collections_get_the_seed default_text (boot custom_rates_db no_faults)
           (initialize_database default_text (boot custom_rates_db no_faults)).2).
  vm_compute. reflexivity.
Defined.

(** X7.  When a run of [initialize_database] has returned, the course list
    it left in [app.config['COURSES']] is what the [courses] collection
    holds at that moment, in order, with the ['_id'] of every document
    removed; the list is not empty. *)
Theorem configured_courses_mirror_the_store trans w w1 :
  initialize_database trans w = (Ok tt, w1) ->
  exists courses,
    w_courses w1 = Some courses
    /\ courses = without_id <$> docs_of (w_db w1) "courses"
    /\ Forall (fun d => jget "_id" d = None) courses
    /\ courses <> [].
Proof.
  intros E.
  pose proof (initialize_database_grows trans w) as G. rewrite E in G. cbn in G.
  apply initialize_database_Ok in E as (wc & wd & we & wf & Ec & Ed & Ee & Ef & E1).
  pose proof (seed_courses_config _ _ Ee) as Hcfg.
  pose proof (seed_courses_result wd) as [_ Hne]. rewrite Ee in Hne.
  specialize (Hne tt eq_refl). unfold seeded in Hne. cbn in Hne.
  pose proof (seed_many_docs "tax_rates" (sample_rates trans) LTaxRatesInitialized) as Ht.
  specialize (Ht ltac:(repeat constructor) we) as (Ht1 & _ & _).
  change (n ← count_documents "tax_rates"; _) with (seed_tax_rates trans) in Ht1.
  rewrite Ef in Ht1.
  pose proof (seed_many_docs "payment_locations" sample_locations
                LPaymentLocationsInitialized) as Hp.
  specialize (Hp ltac:(repeat constructor) wf) as (Hp1 & _ & _).
  change (n ← count_documents "payment_locations"; _) with seed_payment_locations in Hp1.
  rewrite E1 in Hp1. cbn in *.
  pose proof (keeps_config_seed_many "tax_rates" (sample_rates trans)
                LTaxRatesInitialized we) as Kt.
  change (n ← count_documents "tax_rates"; _) with (seed_tax_rates trans) in Kt.
  rewrite Ef in Kt.
  pose proof (keeps_config_seed_many "payment_locations" sample_locations
                LPaymentLocationsInitialized wf) as Kp.
  change (n ← count_documents "payment_locations"; _) with seed_payment_locations in Kp.
  rewrite E1 in Kp. cbn in *.
  assert (docs_of (w_db w1) "courses" = docs_of (w_db we) "courses") as Hsame.
  { by rewrite Hp1, Ht1. }
  exists (without_id <$> docs_of (w_db w1) "courses").
  split_and!; [by rewrite Kp, Kt, Hcfg, Hsame|done| |].
  - apply Forall_fmap, Forall_forall. intros d _. apply without_id_no_id.
  - rewrite Hsame. by destruct (docs_of (w_db we) "courses").
Qed.

Lemma configured_courses_mirror_the_store_witness :
  let w1 := (initialize_database default_text (boot custom_rates_db no_faults)).2 in
  exists courses,
    w_courses w1 = Some courses
    /\ courses = without_id <$> docs_of (w_db w1) "courses"
    /\ Forall (fun d => jget "_id" d = None) courses
    /\ courses <> [].
Proof.
  apply (configured_courses_mirror_the_store default_text
           (boot custom_rates_db no_faults)
           (initialize_database default_text (boot custom_rates_db no_faults)).2).
  vm_compute. reflexivity.
Defined.

(** ** Creating and finding users *)

Lemma bind_Raise {A B} (m : M A) (f : A -> M B) w e w' :
  (m ≫= f) w = (Raise e, w') ->
  m w = (Raise e, w') \/ exists a w1, m w = (Ok a, w1) /\ f a w1 = (Raise e, w').
Proof.
  rewrite run_bind. destruct (m w) as [[a|e0] w1]; [eauto|]. intros [= -> ->]. by left.
Qed.

Lemma subscript_world d k r w w' : subscript d k w = (r, w') -> w' = w.
Proof. unfold subscript. destruct (jget k d); cbn; by intros [= _ <-]. Qed.

Lemma str_lower_world lower v r w w' : str_lower lower v w = (r, w') -> w' = w.
Proof. destruct v; cbn; by intros [= _ <-]. Qed.

Lemma str_before_at_world v r w w' : str_before_at v w = (r, w') -> w' = w.
Proof. destruct v; cbn; by intros [= _ <-]. Qed.

Lemma driver_Raise_db {A} c (sem : db_state -> result (A * db_state)) w e w' :
  driver c sem w = (Raise e, w') -> w_db w' = w_db w.
Proof.
  unfold driver. destruct (w_faults w (w_calls w) c); [by intros [= _ <-]|].
  destruct (sem (w_db w)) as [[a db1]|e0]; by intros [= _ <-].
Qed.

Lemma insert_one_fresh coll d db db1 i :
  db_insert_one coll d db = Ok (tt, db1) ->
  jget "_id" d = Some i ->
  existsb (has_id i) (docs_of db coll) = false
  /\ docs_of db1 coll = docs_of db coll ++ [d].
Proof.
  intros E Hi. pose proof (insert_one_docs _ _ _ _ E) as [Hd _].
  assert (forall n, with_id n d = d) as Hw.
  { intros n. destruct d; try done. cbn in *. by rewrite Hi. }
  rewrite Hw in Hd. split; [|done].
  apply insert_one_Ok in E as (_ & _ & Hid & _).
  unfold id_taken in Hid. by rewrite Hw, Hi, docs_of_touch in Hid.
Qed.

Lemma has_id_field_is s d : has_id (JStr s) d = field_is "_id" s d.
Proof.
  unfold has_id, field_is. destruct (jget "_id" d) as [[]|]; cbn; try done.
  apply String.eqb_sym.
Qed.

Lemma find_existsb_false {A} (f : A -> bool) l :
  existsb f l = false -> find f l = None.
Proof.
  induction l as [|x l IH]; cbn; [done|].
  destruct (f x); cbn; [done|auto].
Qed.

Lemma User_init_fields id0 email0 display_name0 role0 username0 is_admin0
    setup_complete0 coin_balance0 language0 dark_mode0 w u w' :
  User_init id0 email0 display_name0 role0 username0 is_admin0
    setup_complete0 coin_balance0 language0 dark_mode0 w = (Ok u, w') ->
  id u = id0 /\ email u = email0.
Proof.
  unfold User_init. intros E. apply bind_Ok in E as (un & w1 & _ & E).
  by injection E as <- <-.
Qed.

Section Users.
Context (lower : string -> string) (trans : translator)
        (generate_password_hash : string -> string).

(** What is known when [create_user] has returned: the id is the
    lower-cased user name (or address prefix), no stored user had it, and
    the new document is the last of the collection. *)
Lemma create_user_stored user_data w u w1 :
  create_user lower trans generate_password_hash user_data w = (Ok u, w1) ->
  exists e uname user_doc,
    jget "email" user_data = Some (JStr e)
    /\ get_or user_data "username" (JStr (before_at e)) = JStr uname
    /\ id u = JStr (lower uname)
    /\ email u = JStr (lower e)
    /\ jget "_id" user_doc = Some (JStr (lower uname))
    /\ existsb (has_id (JStr (lower uname))) (docs_of (w_db w) "users") = false
    /\ docs_of (w_db w1) "users" = docs_of (w_db w) "users" ++ [user_doc]
    /\ (forall c, c <> "users" -> docs_of (w_db w1) c = docs_of (w_db w) c).
Proof.
  intros Hcreate.
  assert (exists e, jget "email" user_data = Some (JStr e)) as [e Hemail].
  { revert Hcreate. unfold create_user, try_except.
    lazymatch goal with
    | |- (let (_, _) := ?x in _) = _ -> _ => destruct x as [[u0|err] w0] eqn:E
    | |- match ?x with _ => _ end = _ -> _ => destruct x as [[u0|err] w0] eqn:E
    end.
    2: { destruct err; cbn; intros [=]. }
    intros _.
    apply bind_Ok in E as (email0 & w2 & E0 & E).
    apply subscript_Ok in E0 as [E0 ->].
    apply bind_Ok in E as (prefix & w2 & E1 & E).
    apply str_before_at_Ok in E1 as (s & -> & _). eauto. }
  destruct (create_user_Ok lower trans generate_password_hash _ _ _ _ _ Hemail Hcreate)
    as (doc0 & _ & _ & _ & _ & Hu).
  revert Hcreate. unfold create_user, try_except.
  lazymatch goal with
  | |- (let (_, _) := ?x in _) = _ -> _ => destruct x as [[u0|err] w0] eqn:E
  | |- match ?x with _ => _ end = _ -> _ => destruct x as [[u0|err] w0] eqn:E
  end.
  2: { destruct err; cbn; intros [=]. }
  intros [= -> ->].
  apply bind_Ok in E as (email0 & w2 & E0 & E).
  apply subscript_Ok in E0 as [E0 ->]. rewrite Hemail in E0. injection E0 as <-.
  apply bind_Ok in E as (prefix & w2 & E0 & E). cbn in E0. injection E0 as <- <-.
  apply bind_Ok in E as (user_id & w2 & E0 & E).
  apply str_lower_Ok in E0 as (uname & Euname & -> & ->).
  apply bind_Ok in E as (user_data' & w2 & E0 & E).
  assert (w2 = w) as ->.
  { destruct (jget "password" user_data) as [[]|]; cbn in E0; try done.
    - destruct user_data; cbn in E0; try done. by injection E0 as <- <-.
    - by injection E0 as <- <-. }
  clear E0.
  apply bind_Ok in E as (email1 & w2 & E0 & E).
  apply subscript_Ok in E0 as [_ ->].
  apply bind_Ok in E as (email_lower & w2 & E0 & E).
  apply str_lower_world in E0 as ->.
  apply bind_Ok in E as (password & w2 & E0 & E).
  apply subscript_Ok in E0 as [_ ->].
  apply bind_Ok in E as (now & w2 & E0 & E). cbn in E0. injection E0 as <- <-.
  apply bind_Ok in E as ([] & w2 & E0 & E).
  apply bind_Ok in E as ([] & w3 & Elog & E). cbn in Elog. injection Elog as <-.
  pose proof (User_init_world _ _ _ _ _ _ _ _ _ _ _ _ _ E) as ->.
  apply User_init_fields in E as [Hid _].
  match type of E0 with insert_one _ ?d _ = _ => set (user_doc := d) in * end.
  exists e, uname, user_doc. split_and!; try done.
  all: unfold insert_one, driver in E0.
  all: destruct (w_faults w (w_calls w) _); [done|].
  all: destruct (db_insert_one _ _ _) as [[[] db1]|] eqn:Eins; [|done].
  all: injection E0 as <-; cbn [w_db push].
  - by eapply insert_one_fresh.
  - by eapply insert_one_fresh.
  - apply insert_one_docs in Eins as [_ H]. exact H.
Qed.

Lemma create_user_Raise user_data w err w1 :
  create_user lower trans generate_password_hash user_data w = (Raise err, w1) ->
  w_db w1 = w_db w /\ err <> DuplicateKeyError.
Proof.
  unfold create_user, try_except.
  lazymatch goal with
  | |- (let (_, _) := ?x in _) = _ -> _ => destruct x as [[u0|e0] w0] eqn:E
  | |- match ?x with _ => _ end = _ -> _ => destruct x as [[u0|e0] w0] eqn:E
  end; [done|].
  intros H.
  assert (w_db w1 = w_db w0 /\ err <> DuplicateKeyError) as [-> Herr].
  { destruct e0; cbn in H; injection H as <- <-; done. }
  split; [|done]. clear H Herr.
  apply bind_Raise in E as [E|(email0 & w2 & E0 & E)];
    [by apply subscript_world in E as ->|apply subscript_world in E0 as ->].
  apply bind_Raise in E as [E|(prefix & w2 & E0 & E)];
    [by apply str_before_at_world in E as ->|apply str_before_at_world in E0 as ->].
  apply bind_Raise in E as [E|(user_id & w2 & E0 & E)];
    [by apply str_lower_world in E as ->|apply str_lower_world in E0 as ->].
  assert (forall r w', (match jget "password" user_data, user_data with
                        | Some (JStr password), JObj fields =>
                            mret (JObj (assoc_set "password_hash"
                                          (JStr (generate_password_hash password)) fields))
                        | Some _, _ => raise AttributeError
                        | None, _ => mret user_data
                        end : M json) w = (r, w') -> w' = w) as Hpw.
  { intros r w'. destruct (jget "password" user_data) as [[]|]; cbn;
      try (by intros [= _ <-]). destruct user_data; cbn; by intros [= _ <-]. }
  apply bind_Raise in E as [E|(user_data' & w2 & E0 & E)];
    [by apply Hpw in E as ->|apply Hpw in E0 as ->].
  apply bind_Raise in E as [E|(email1 & w2 & E0 & E)];
    [by apply subscript_world in E as ->|apply subscript_world in E0 as ->].
  apply bind_Raise in E as [E|(email_lower & w2 & E0 & E)];
    [by apply str_lower_world in E as ->|].
  apply str_lower_Ok in E0 as (s & -> & -> & ->).
  apply bind_Raise in E as [E|(password & w2 & E0 & E)];
    [by apply subscript_world in E as ->|apply subscript_world in E0 as ->].
  apply bind_Raise in E as [E|(now & w2 & E0 & E)]; [done|].
  cbn in E0. injection E0 as <- <-.
  apply bind_Raise in E as [E|([] & w2 & E0 & E)];
    [by apply driver_Raise_db in E|].
  apply bind_Raise in E as [E|([] & w3 & E1 & E)]; [done|].
  exfalso.
  match type of E with
  | User_init ?a ?b ?c ?d ?e ?f ?g ?h ?i ?j _ = _ =>
      destruct (User_init_total a b c d e f g h i j (lower s) w3 eq_refl) as [u Hu]
  end.
  rewrite Hu in E. done.
Qed.

(** X8.  [create_user] stores a user or fails, never both: whenever it
    raises, for whatever reason, the store is exactly as it was.  A
    [DuplicateKeyError] never leaves it. *)
Theorem create_user_failure_stores_nothing user_data w err w1 :
  create_user lower trans generate_password_hash user_data w = (Raise err, w1) ->
  w_db w1 = w_db w /\ err <> DuplicateKeyError.
Proof. apply create_user_Raise. Qed.

Lemma fresh_id_not_stored i docs :
  existsb (has_id (JStr i)) docs = false -> JStr i ∉ omap (jget "_id") docs.
Proof.
  intros H Hin. apply list_elem_of_omap in Hin as (d & Hd & Hi).
  apply existsb_false_Forall in H. rewrite Forall_forall in H.
  specialize (H d Hd). unfold has_id in H. rewrite Hi in H. cbn in H.
  by rewrite String.eqb_refl in H.
Qed.

Lemma name_in_read user_data e uname :
  jget "email" user_data = Some (JStr e) ->
  get_or user_data "username" (JStr (before_at e)) = JStr uname ->
  name_in user_data = Some uname.
Proof. unfold name_in. by intros -> ->. Qed.

(** X9.  The ids of the stored users stay distinct: if no two documents of
    [users] have the same ['_id'] before [create_user] runs, none have
    afterwards, whatever the outcome.  When it returns a user, the id is the
    lower-cased user name, it is added after the stored ids, and as long as
    it is stored no call of [create_user] for a user name with the same
    lower-casing returns a user: two users whose names differ only in case
    cannot both be created. *)
Theorem create_user_keeps_ids_distinct user_data w :
  NoDup (user_ids (w_db w)) ->
  let rw := create_user lower trans generate_password_hash user_data w in
  NoDup (user_ids (w_db rw.2))
  /\ forall u, rw.1 = Ok u ->
       exists n,
         name_in user_data = Some n
         /\ id u = JStr (lower n)
         /\ user_ids (w_db rw.2) = user_ids (w_db w) ++ [JStr (lower n)]
         /\ forall other n' w2,
              name_in other = Some n' -> lower n' = lower n ->
              JStr (lower n) ∈ user_ids (w_db w2) ->
              forall u',
                (create_user lower trans generate_password_hash other w2).1 <> Ok u'.
Proof.
  intros Hd.
  destruct (create_user lower trans generate_password_hash user_data w)
    as [[u|err] w1] eqn:E; cbn.
  - apply create_user_stored in E
      as (e & uname & user_doc & Hemail & Huname & Hu & _ & Hid & Hfresh & Hdocs & _).
    assert (user_ids (w_db w1) = user_ids (w_db w) ++ [JStr (lower uname)]) as Hids.
    { unfold user_ids. rewrite Hdocs, omap_app. cbn. by rewrite Hid. }
    split.
    + rewrite Hids. apply NoDup_app. split_and!; [done| |apply NoDup_singleton].
      intros i Hi Hi'. apply list_elem_of_singleton in Hi'. subst i.
      by apply fresh_id_not_stored in Hfresh.
    + intros ? [= <-]. exists uname. split_and!; [by eapply name_in_read|done|done|].
      intros other n' w2 Hother Hcase Hstored u' Hreturned.
      destruct (create_user lower trans generate_password_hash other w2)
        as [r w3] eqn:E'. cbn in Hreturned. subst r.
      apply create_user_stored in E'
        as (e' & uname' & _ & Hemail' & Huname' & _ & _ & _ & Hfresh' & _).
      rewrite (name_in_read _ _ _ Hemail' Huname') in Hother. injection Hother as ->.
      apply fresh_id_not_stored in Hfresh'. apply Hfresh'. by rewrite Hcase.
  - apply create_user_Raise in E as [E _]. split; [|done]. unfold user_ids. by rewrite E.
Qed.
End Users.

Lemma find_fresh_id s docs :
  existsb (has_id (JStr s)) docs = false -> find (field_is "_id" s) docs = None.
Proof.
  induction docs as [|d docs IH]; cbn; [done|].
  rewrite has_id_field_is. destruct (field_is "_id" s d); cbn; [done|auto].
Qed.

Section Users2.
Context (lower : string -> string) (trans : translator)
        (generate_password_hash : string -> string).

Lemma stored_id_exists i docs :
  JStr i ∈ omap (jget "_id") docs -> existsb (has_id (JStr i)) docs = true.
Proof.
  intros Hin. apply list_elem_of_omap in Hin as (d & Hd & Hi).
  apply existsb_exists. exists d. split; [by apply list_elem_of_In|].
  unfold has_id. rewrite Hi. cbn. apply String.eqb_refl.
Qed.

Lemma assoc_get_set_eq {A} k (v : A) l : assoc_get k (assoc_set k v l) = Some v.
Proof.
  induction l as [|[k0 v0] l IH]; cbn.
  - by rewrite String.eqb_refl.
  - destruct (String.eqb_spec k k0) as [->|Hk]; cbn.
    + by rewrite String.eqb_refl.
    + by rewrite (proj2 (String.eqb_neq _ _) Hk).
Qed.

Lemma existsb_find_Some {A} (f : A -> bool) l x :
  find f l = Some x -> existsb f l = true.
Proof.
  induction l as [|y l IH]; cbn; [done|].
  destruct (f y); [done|auto].
Qed.

(** Under a unique index on a field, a document whose value of that field
    selects a stored document has a duplicate key. *)
Lemma unique_field_taken live stored field x d :
  existsb (fun entry => bool_decide (unique_field entry = Some field)) live = true ->
  jget field d = Some (JStr x) ->
  existsb (field_is field x) stored = true ->
  duplicate_key live stored d = true.
Proof.
  intros Hu Hd Hs. apply existsb_exists in Hu as (entry & Hin & Hu).
  apply bool_decide_eq_true in Hu.
  apply existsb_exists in Hs as (s & Hs & Hf).
  unfold duplicate_key. apply existsb_exists. exists entry. split; [done|].
  rewrite Hu. apply existsb_exists. exists s. split; [done|].
  unfold shares_key, index_keys. rewrite Hd. cbn. rewrite orb_false_r.
  unfold field_is in Hf. destruct (jget field s) as [[]|]; cbn; try done.
  - rewrite orb_false_r. by rewrite String.eqb_sym.
  - by apply andb_prop in Hf as [_ Hf].
Qed.

(** [create_user] up to its insertion: when the store is bound to refuse
    the document, the caller gets the "user exists" error. *)
Lemma create_user_refused user_data e uname w :
  jget "email" user_data = Some (JStr e) ->
  get_or user_data "username" (JStr (before_at e)) = JStr uname ->
  password_given user_data ->
  (forall doc,
     jget "_id" doc = Some (JStr (lower uname)) ->
     jget "email" doc = Some (JStr (lower e)) ->
     id_taken doc (docs_of (w_db w) "users")
     || duplicate_key (idx_of (touch "users" (w_db w)) "users")
          (docs_of (w_db w) "users") doc = true) ->
  (forall c, w_faults w (w_calls w) c = None) ->
  exists w1,
    create_user lower trans generate_password_hash user_data w =
      (Raise (ValueError (trans "general_user_exists"
                            "User with this email or username already exists")), w1)
    /\ w_db w1 = w_db w.
Proof.
  intros Hemail Huname Hpw Hrefused Hfault.
  destruct user_data as [| | | | | | | |fields]; try done.
  unfold create_user, try_except. rewrite run_bind.
  unfold subscript at 1. rewrite Hemail. cbn [mret M_ret str_before_at].
  rewrite run_bind. cbn [mret M_ret str_before_at].
  rewrite run_bind. rewrite Huname. cbn [str_lower mret M_ret].
  rewrite run_bind.
  destruct Hpw as [[p Hpw]|[Hpw [h Hhash]]]; rewrite Hpw; cbn [mret M_ret].
  - rewrite run_bind. unfold subscript at 1. cbn [jget] in *.
    rewrite assoc_get_set_ne by done. rewrite Hemail. cbn [mret M_ret].
    rewrite run_bind. cbn [str_lower mret M_ret].
    rewrite run_bind. unfold subscript at 1. cbn [jget].
    rewrite assoc_get_set_eq. cbn [mret M_ret].
    rewrite run_bind. cbn [utcnow].
    rewrite run_bind. unfold insert_one, driver. rewrite Hfault.
    unfold db_insert_one, array_id.
    cbn [with_id assoc_get String.eqb Ascii.eqb Bool.eqb jget].
    rewrite docs_of_touch, Hrefused by reflexivity.
    cbn. eexists. split; reflexivity.
  - rewrite run_bind. unfold subscript at 1. rewrite Hemail. cbn [mret M_ret].
    rewrite run_bind. cbn [str_lower mret M_ret].
    rewrite run_bind. unfold subscript at 1. rewrite Hhash. cbn [mret M_ret].
    rewrite run_bind. cbn [utcnow].
    rewrite run_bind. unfold insert_one, driver. rewrite Hfault.
    unfold db_insert_one, array_id.
    cbn [with_id assoc_get String.eqb Ascii.eqb Bool.eqb jget].
    rewrite docs_of_touch, Hrefused by reflexivity.
    cbn. eexists. split; reflexivity.
Qed.

(** X10.  A user name that is taken is refused: when the data has a string
    address and carries a password (a ['password'] string, or else a
    ['password_hash']), the lower-cased user name (or address prefix) of the
    data is the id of a stored user and the store answers, [create_user]
    raises [ValueError] with the "user exists" text, not the driver's
    [DuplicateKeyError], and the store is unchanged.  Names that differ
    only in case count as taken. *)
Theorem taken_user_id_is_rejected user_data e uname w :
  jget "email" user_data = Some (JStr e) ->
  get_or user_data "username" (JStr (before_at e)) = JStr uname ->
  password_given user_data ->
  JStr (lower uname) ∈ user_ids (w_db w) ->
  (forall c, w_faults w (w_calls w) c = None) ->
  exists w1,
    create_user lower trans generate_password_hash user_data w =
      (Raise (ValueError (trans "general_user_exists"
                            "User with this email or username already exists")), w1)
    /\ w_db w1 = w_db w.
Proof.
  intros Hemail Huname Hpw Htaken Hfault.
  apply (create_user_refused _ _ _ _ Hemail Huname Hpw); [|done].
  intros doc Hid _. unfold id_taken. rewrite Hid.
  by rewrite (stored_id_exists _ _ Htaken).
Qed.

(** X24.  An address that is taken is refused: when the [users] collection
    has its unique index on [email], the data carries a password as above,
    the equality filter on the lower-cased address of the data selects a
    stored user and the store answers, [create_user] raises [ValueError]
    with the "user exists" text and the store is unchanged, whatever the
    user name. *)
Theorem taken_email_is_rejected user_data e uname other w :
  unique_on (w_db w) "users" "email" = true ->
  jget "email" user_data = Some (JStr e) ->
  get_or user_data "username" (JStr (before_at e)) = JStr uname ->
  password_given user_data ->
  db_find_one "users" "email" (lower e) (w_db w) = Some other ->
  (forall c, w_faults w (w_calls w) c = None) ->
  exists w1,
    create_user lower trans generate_password_hash user_data w =
      (Raise (ValueError (trans "general_user_exists"
                            "User with this email or username already exists")), w1)
    /\ w_db w1 = w_db w.
Proof.
  intros Hunique Hemail Huname Hpw Htaken Hfault.
  apply (create_user_refused _ _ _ _ Hemail Huname Hpw); [|done].
  intros doc _ Hdoc. apply orb_true_iff. right.
  eapply unique_field_taken; [|exact Hdoc|by eapply existsb_find_Some].
  eapply existsb_prefix; [|exact Hunique]. apply grows_touch.
Qed.

(** X11.  Insert and look up by id: a user that [create_user] has returned
    is found again by [get_user] under its id, with the same fields, in any
    later world over the store as [create_user] left it, whatever else
    the [users] collection holds. *)
Theorem id_lookup_round_trip user_data w u w1 w2 :
  create_user lower trans generate_password_hash user_data w = (Ok u, w1) ->
  w_db w2 = w_db w1 ->
  (forall c, w_faults w2 (w_calls w2) c = None) ->
  exists s w3,
    id u = JStr s
    /\ get_user s w2 = (Ok (Some u), w3)
    /\ w_db w3 = w_db w2.
Proof.
  intros Hcreate Hdb Hfault.
  destruct (create_user_stored _ _ _ _ _ _ _ Hcreate)
    as (e & uname & user_doc & Hemail & _ & Hid & _ & Hdoc & Hfresh & Hdocs & _).
  destruct (create_user_Ok _ _ _ _ _ _ _ _ Hemail Hcreate)
    as (doc0 & _ & Hdocs0 & _ & Hinit & _).
  assert (doc0 = user_doc) as ->.
  { rewrite Hdocs in Hdocs0. by apply app_inj_tail in Hdocs0 as [_ ->]. }
  exists (lower uname). unfold get_user, try_except. rewrite run_bind.
  unfold find_one, driver. rewrite Hfault. cbn -[User_init].
  unfold db_find_one. rewrite Hdb, Hdocs.
  rewrite (find_app_None _ _ user_doc).
  2: { by apply find_fresh_id. }
  2: { rewrite <- has_id_field_is. unfold has_id. rewrite Hdoc. cbn.
       apply String.eqb_refl. }
  assert (truthy user_doc = true) as ->.
  { destruct user_doc as [| | | | | | | |[|f fs]]; cbn in Hdoc; done. }
  match goal with
  | |- context [(_ ≫= _) ?w0] => destruct (Hinit w0) as (w'' & E & _ & Hw'')
  end.
  rewrite E. exists w''. split_and!; [done|done|]. by rewrite Hw''.
Qed.

(** X12.  Looking up a user that is not there is no error: when the
    equality filter on the lower-cased address selects no stored user (for
    [get_user]: the filter on the id) and the store answers, the lookup
    returns [None] after its one query, with no log record. *)
Theorem unknown_user_is_none (address user_id : string) w :
  (forall c, w_faults w (w_calls w) c = None) ->
  (db_find_one "users" "email" (lower address) (w_db w) = None ->
   get_user_by_email lower (JStr address) w =
     (Ok None, after_call (FindOne "users" "email" (lower address)) None w))
  /\ (db_find_one "users" "_id" user_id (w_db w) = None ->
      get_user user_id w =
        (Ok None, after_call (FindOne "users" "_id" user_id) None w)).
Proof.
  intros Hfault. split; intros Hnone.
  - unfold get_user_by_email, try_except. rewrite run_bind. cbn [str_lower mret M_ret].
    rewrite run_bind. unfold find_one, driver, reading. rewrite Hfault, Hnone. done.
  - unfold get_user, try_except. rewrite run_bind.
    unfold find_one, driver, reading. rewrite Hfault, Hnone. done.
Qed.
End Users2.

Lemma create_user_failure_stores_nothing_witness :
  let w := boot crowded_db no_faults in
  w_db (create_user ascii_lower default_text (fun password => password) no_password w).2
  = w_db w
  /\ KeyError "password_hash" <> DuplicateKeyError.
Proof.
  apply (create_user_failure_stores_nothing ascii_lower default_text
           (fun password => password)
           no_password (boot crowded_db no_faults) (KeyError "password_hash")
           (create_user ascii_lower default_text (fun password => password) no_password
              (boot crowded_db no_faults)).2).
  vm_compute. reflexivity.
Defined.

Lemma create_user_keeps_ids_distinct_witness :
  let rw := create_user ascii_lower default_text (fun password => password) ada
              (boot crowded_db no_faults) in
  NoDup (user_ids (w_db rw.2))
  /\ forall u, rw.1 = Ok u ->
       exists n,
         name_in ada = Some n
         /\ id u = JStr (ascii_lower n)
         /\ user_ids (w_db rw.2) = user_ids crowded_db ++ [JStr (ascii_lower n)]
         /\ forall other n' w2,
              name_in other = Some n' -> ascii_lower n' = ascii_lower n ->
              JStr (ascii_lower n) ∈ user_ids (w_db w2) ->
              forall u',
                (create_user ascii_lower default_text (fun password => password)
                   other w2).1 <> Ok u'.
Proof.
  apply (create_user_keeps_ids_distinct ascii_lower default_text
           (fun password => password) ada (boot crowded_db no_faults)).
  vm_compute. apply NoDup_singleton.
Defined.

Lemma taken_user_id_is_rejected_witness :
  exists w1,
    create_user ascii_lower default_text (fun password => password) shouting_grace
      (boot crowded_db no_faults) =
      (Raise (ValueError "User with this email or username already exists"), w1)
    /\ w_db w1 = crowded_db.
Proof.
  apply (taken_user_id_is_rejected ascii_lower default_text (fun password => password)
           shouting_grace "Grace@Example.com" "GRACE"
           (boot crowded_db no_faults)).
  - reflexivity.
  - reflexivity.
  - left. exists "secret". reflexivity.
  - vm_compute. left.
  - reflexivity.
Defined.

Lemma id_lookup_round_trip_witness :
  let w1 := (create_user ascii_lower default_text (fun password => password) ada
               (boot crowded_db no_faults)).2 in
  exists s w3,
    id ada_user = JStr s
    /\ get_user s w1 = (Ok (Some ada_user), w3)
    /\ w_db w3 = w_db w1.
Proof.
  apply (id_lookup_round_trip ascii_lower default_text (fun password => password) ada
           (boot crowded_db no_faults) ada_user
           (create_user ascii_lower default_text (fun password => password) ada
              (boot crowded_db no_faults)).2
           (create_user ascii_lower default_text (fun password => password) ada
              (boot crowded_db no_faults)).2).
  - vm_compute. reflexivity.
  - exact eq_refl.
  - reflexivity.
Defined.

Lemma unknown_user_is_none_witness :
  let w := boot crowded_db no_faults in
  (db_find_one "users" "email" (ascii_lower "Bob@Example.com") (w_db w) = None ->
   get_user_by_email ascii_lower (JStr "Bob@Example.com") w =
     (Ok None,
      after_call (FindOne "users" "email" (ascii_lower "Bob@Example.com")) None w))
  /\ (db_find_one "users" "_id" "bob" (w_db w) = None ->
      get_user "bob" w =
        (Ok None, after_call (FindOne "users" "_id" "bob") None w)).
Proof.
  apply (unknown_user_is_none ascii_lower "Bob@Example.com" "bob"
           (boot crowded_db no_faults)).
  reflexivity.
Defined.

Lemma taken_email_is_rejected_witness :
  let db := w_db (create_user ascii_lower default_text (fun password => password) ada
                    (boot registered_db no_faults)).2 in
  exists w1,
    create_user ascii_lower default_text (fun password => password) other_ada
      (boot db no_faults) =
      (Raise (ValueError "User with this email or username already exists"), w1)
    /\ w_db w1 = db.
Proof.
  apply (taken_email_is_rejected ascii_lower default_text (fun password => password)
           other_ada "ADA@example.com" "Countess"
           (JObj [("_id", JStr "ada"); ("email", JStr "ada@example.com");
                  ("password", JStr "h"); ("role", JStr "personal");
                  ("display_name", JStr "ada"); ("is_admin", JBool false);
                  ("setup_complete", JBool false); ("coin_balance", JInt 10);
                  ("language", JStr "en"); ("dark_mode", JBool false);
                  ("created_at", JDate 0); ("business_details", JNull);
                  ("personal_details", JNull); ("agent_details", JNull)])
           (boot (w_db (create_user ascii_lower default_text (fun password => password)
                          ada (boot registered_db no_faults)).2) no_faults)).
  - vm_compute. reflexivity.
  - reflexivity.
  - reflexivity.
  - right. split; [reflexivity|]. exists (JStr "h2"). reflexivity.
  - vm_compute. reflexivity.
  - reflexivity.
Defined.

(** ** Creating records *)

Lemma xrun_bind {A B} (m : X A) (f : A -> X B) xw :
  (m ≫= f) xw = match m xw with
                 | (XOk a, xw1) => f a xw1
                 | (XRaise e, xw1) => (XRaise e, xw1)
                 end.
Proof. reflexivity. Qed.

(** What the insertion of a creator does to the store. *)
Lemma lift_insert_one_id coll d xw :
  let run := lift (insert_one_id coll d) xw in
  let db := w_db (x_world xw) in
  let db' := w_db (x_world run.2) in
  match run.1 with
  | XOk inserted_id =>
      docs_of db' coll = docs_of db coll ++ [with_id (db_next_oid db) d]
      /\ (forall c, c <> coll -> docs_of db' c = docs_of db c)
      /\ inserted_id = default JNull (jget "_id" (with_id (db_next_oid db) d))
  | XRaise _ => db' = db
  end.
Proof.
  unfold lift, insert_one_id, driver. cbn.
  destruct (w_faults (x_world xw) (w_calls (x_world xw)) _); cbn; [done|].
  unfold db_insert_one_id.
  destruct (db_insert_one coll d (w_db (x_world xw))) as [[[] db1]|e] eqn:E; cbn; [|done].
  apply insert_one_docs in E as [E1 E2]. done.
Qed.

Lemma lift_insert_one coll d xw :
  let run := lift (insert_one coll d) xw in
  let db := w_db (x_world xw) in
  let db' := w_db (x_world run.2) in
  match run.1 with
  | XOk _ =>
      docs_of db' coll = docs_of db coll ++ [with_id (db_next_oid db) d]
      /\ (forall c, c <> coll -> docs_of db' c = docs_of db c)
  | XRaise _ => db' = db
  end.
Proof.
  unfold lift, insert_one, driver. cbn.
  destruct (w_faults (x_world xw) (w_calls (x_world xw)) _); cbn; [done|].
  destruct (db_insert_one coll d (w_db (x_world xw))) as [[[] db1]|e] eqn:E; cbn; [|done].
  apply insert_one_docs in E as [E1 E2]. done.
Qed.

Section RecordsFacts.
Context (trans : translator) (py_str : json -> string).

(** X13.  Each of the five creators checks its required fields first: when
    one of them is missing from the data, it raises [ValueError] with its
    "missing fields" text, after one error record and without any call to
    the store. *)
Theorem creators_reject_incomplete_data data xw :
  (has_fields ["user_id"; "tool_name"; "rating"; "timestamp"] data = false ->
   create_feedback trans data xw =
     rejected trans xw "general_missing_feedback_fields" "Missing required feedback fields"
       "general_feedback_creation_error" "Error creating feedback")
  /\ (has_fields ["title"; "content"; "source_type"; "published_at"] data = false ->
      create_news_article trans py_str data xw =
        rejected trans xw "general_missing_news_fields" "Missing required news article fields"
          "general_news_article_creation_error" "Error creating news article")
  /\ (has_fields ["role"; "min_income"; "max_income"; "rate"; "description"] data = false ->
      create_tax_rate trans py_str data xw =
        rejected trans xw "general_missing_tax_rate_fields" "Missing required tax rate fields"
          "general_tax_rate_creation_error" "Error creating tax rate")
  /\ (has_fields ["name"; "address"; "contact"] data = false ->
      create_payment_location trans py_str data xw =
        rejected trans xw "general_missing_location_fields"
          "Missing required payment location fields"
          "general_payment_location_creation_error" "Error creating payment location")
  /\ (has_fields ["user_id"; "tax_type"; "due_date"; "amount"; "status"; "created_at"]
        data = false ->
      create_tax_reminder trans py_str data xw =
        rejected trans xw "general_missing_reminder_fields" "Missing required tax reminder fields"
          "general_tax_reminder_creation_error" "Error creating tax reminder").
Proof.
  cbn zeta. split_and!; intros H.
  - unfold create_feedback, xtry. rewrite xrun_bind, H. reflexivity.
  - unfold create_news_article, xtry. rewrite xrun_bind, H. reflexivity.
  - unfold create_tax_rate, xtry. rewrite xrun_bind, H. reflexivity.
  - unfold create_payment_location, xtry. rewrite xrun_bind, H. reflexivity.
  - unfold create_tax_reminder, xtry. rewrite xrun_bind, H. reflexivity.
Qed.

Ltac creator_stores H :=
  unfold xtry; rewrite xrun_bind;
  destruct (has_fields _ _); cbn -[lift]; [|done];
  rewrite xrun_bind;
  lazymatch goal with
  | |- context [lift ?m ?xw] =>
      pose proof (H _ _ xw : let run := lift m xw in _) as Hins; cbn zeta in Hins;
      destruct (lift m xw) as [[r|e] xw1]; cbn in *
  end.

(** X14.  Each creator stores its document or fails, never both.  When it
    returns, the document it was given (the news article with its two
    defaults filled in) is the last of its collection, with an ['_id'] from
    the store if it had none, and every other collection is as before;
    when it raises, the store is as it was. *)
Theorem creators_store_one_document data xw :
  stored_or_failed "feedback" data xw (create_feedback trans data xw)
  /\ stored_or_failed "news_articles"
       (setdefault "is_active" (JBool true) (setdefault "is_verified" (JBool false) data))
       xw (create_news_article trans py_str data xw)
  /\ stored_or_failed "tax_rates" data xw (create_tax_rate trans py_str data xw)
  /\ stored_or_failed "payment_locations" data xw
       (create_payment_location trans py_str data xw)
  /\ stored_or_failed "tax_reminders" data xw (create_tax_reminder trans py_str data xw).
Proof.
  unfold stored_or_failed. split_and!.
  - unfold create_feedback. creator_stores lift_insert_one; [|done].
    by destruct Hins.
  - unfold create_news_article. creator_stores lift_insert_one_id; [|done].
    by destruct Hins as (? & ? & _).
  - unfold create_tax_rate. creator_stores lift_insert_one_id; [|done].
    by destruct Hins as (? & ? & _).
  - unfold create_payment_location. creator_stores lift_insert_one_id; [|done].
    by destruct Hins as (? & ? & _).
  - unfold create_tax_reminder. creator_stores lift_insert_one_id; [|done].
    by destruct Hins as (? & ? & _).
Qed.
End RecordsFacts.

(** ** Fields of a stored record *)

Lemma assoc_get_app {A} k (l1 l2 : list (string * A)) :
  assoc_get k (l1 ++ l2) = match assoc_get k l1 with
                            | Some v => Some v
                            | None => assoc_get k l2
                            end.
Proof.
  induction l1 as [|[k0 v0] l1 IH]; cbn; [done|].
  by destruct (String.eqb k k0).
Qed.

Lemma assoc_get_setdefault k k' v (data : list (string * json)) :
  assoc_get k (setdefault k' v data) =
    match assoc_get k data with
    | Some x => Some x
    | None => if String.eqb k k' then Some v else None
    end.
Proof.
  unfold setdefault. destruct (assoc_get k' data) as [x|] eqn:E.
  - destruct (assoc_get k data) eqn:E'; [done|].
    destruct (String.eqb_spec k k') as [->|_]; [congruence|done].
  - rewrite assoc_get_app. by destruct (assoc_get k data).
Qed.

Lemma with_id_keeps n data k v :
  assoc_get k data = Some v -> jget k (with_id n (JObj data)) = Some v.
Proof.
  intros H. cbn [with_id]. destruct (assoc_get "_id" data) eqn:E; [done|].
  cbn [jget assoc_get]. destruct (String.eqb_spec k "_id") as [->|_]; [congruence|done].
Qed.

Section RecordsRound.
Context (trans : translator) (py_str : json -> string).

(** What is known when a creator that returns the id has returned. *)
Lemma creator_returned coll given data key dflt key1 dflt1 key2 dflt2 inserted_id xw xw1
    (required_fields : list string) :
  xtry
    ((if negb (has_fields required_fields given)
      then xraise (Lower (ValueError (trans key dflt)))
      else mret tt) ;;
     inserted_id ← lift (insert_one_id coll (JObj data)) ;
     xlog_at Info (LRecordCreated key1 dflt1 inserted_id) ;;
     mret (py_str inserted_id))
    (fun e => xlog_at Error (LFailure key2 dflt2 e) ;; xraise e) xw
  = (XOk inserted_id, xw1) ->
  let db := w_db (x_world xw) in
  let d := with_id (db_next_oid db) (JObj data) in
  has_fields required_fields given = true
  /\ docs_of (w_db (x_world xw1)) coll = docs_of db coll ++ [d]
  /\ inserted_id = py_str (default JNull (jget "_id" d))
  /\ x_faults xw1 = x_faults xw /\ x_find xw1 = x_find xw.
Proof.
  unfold xtry. rewrite xrun_bind.
  destruct (has_fields required_fields given); cbn -[lift]; [|done].
  rewrite xrun_bind.
  pose proof (lift_insert_one_id coll (JObj data) xw) as Hins. cbn zeta in Hins.
  assert (x_faults (lift (insert_one_id coll (JObj data)) xw).2 = x_faults xw
          /\ x_find (lift (insert_one_id coll (JObj data)) xw).2 = x_find xw)
    as [Hf Hq] by done.
  destruct (lift (insert_one_id coll (JObj data)) xw) as [[r|e] xw0]; cbn in *; [|done].
  intros [= <- <-]. destruct Hins as (H1 & _ & ->). cbn. done.
Qed.

Lemma accessor_finds coll sort key dflt xw d :
  answers_all xw coll sort ->
  (forall c, x_faults xw (w_calls (x_world xw)) c = None) ->
  d ∈ docs_of (w_db (x_world xw)) coll ->
  exists l xw2,
    xtry (find_sorted coll (JObj []) sort)
      (fun e => xlog_at Error (LFailure key dflt e) ;; xraise e) xw = (XOk l, xw2)
    /\ d ∈ l
    /\ w_db (x_world xw2) = w_db (x_world xw).
Proof.
  intros Hall Hfault Hd. unfold xtry, find_sorted, xdriver, reading.
  rewrite Hfault. cbn. eexists _, _. split_and!; [reflexivity| |done].
  by rewrite (Hall (w_db (x_world xw))).
Qed.

(** X15.  A news article is stored with its two flags: [is_verified] and
    [is_active] have the values the caller gave, and [False] and [True]
    where the caller gave none; every field of the caller's data is stored
    as given, and the text returned is the ['_id'] of the stored
    document. *)
Theorem news_article_defaults data xw inserted_id xw1 :
  create_news_article trans py_str data xw = (XOk inserted_id, xw1) ->
  exists d,
    last (docs_of (w_db (x_world xw1)) "news_articles") = Some d
    /\ jget "is_verified" d = Some (default (JBool false) (assoc_get "is_verified" data))
    /\ jget "is_active" d = Some (default (JBool true) (assoc_get "is_active" data))
    /\ (forall k v, assoc_get k data = Some v -> jget k d = Some v)
    /\ inserted_id = py_str (default JNull (jget "_id" d)).
Proof.
  intros E. unfold create_news_article in E. cbv zeta in E.
  apply creator_returned in E as (_ & Hdocs & Hid & _).
  eexists. split_and!; [by rewrite Hdocs, last_snoc| | | |exact Hid].
  - apply with_id_keeps. rewrite !assoc_get_setdefault. cbn.
    by destruct (assoc_get "is_verified" data).
  - apply with_id_keeps. rewrite !assoc_get_setdefault. cbn.
    by destruct (assoc_get "is_active" data).
  - intros k v Hk. apply with_id_keeps. by rewrite !assoc_get_setdefault, Hk.
Qed.

Ltac found_again_by :=
  let E := fresh "E" in
  let Erun := fresh "Erun" in
  let Hall := fresh "Hall" in
  let Hfault := fresh "Hfault" in
  let Hdocs := fresh "Hdocs" in
  let Hid := fresh "Hid" in
  let inserted_id := fresh "inserted_id" in
  intros inserted_id E Hall Hfault;
  lazymatch type of E with
  | (?run).1 = _ =>
      let r := fresh "r" in
      destruct run as [r ?] eqn:Erun; cbn [fst snd] in *; subst r
  end;
  cbv zeta in Erun;
  apply creator_returned in Erun as (_ & Hdocs & Hid & _);
  let l := fresh "l" in
  let xw2 := fresh "xw2" in
  let Eget := fresh "Eget" in
  let Hin := fresh "Hin" in
  let Hdb := fresh "Hdb" in
  edestruct accessor_finds as (l & xw2 & Eget & Hin & Hdb);
    [exact Hall|exact Hfault| |];
    [rewrite Hdocs; apply elem_of_app; right; by left|];
  exists l, xw2; split_and!; [exact Eget| |exact Hdb];
  eexists; split_and!; [exact Hin|by rewrite Hid|].

(** X16.  Create and read back: a record that one of the four creators
    with an accessor has returned is among what that accessor returns when
    it is asked for everything next, if the store answers that query with
    the documents of the collection: the record is there under the id that
    the creator returned, with every field of the caller's data. *)
Theorem created_records_are_found data xw :
  found_again py_str "news_articles" (Some ("published_at", DESCENDING))
    get_news_articles data (create_news_article trans py_str data xw)
  /\ found_again py_str "tax_rates" (Some ("min_income", ASCENDING))
       get_tax_rates data (create_tax_rate trans py_str data xw)
  /\ found_again py_str "payment_locations" (Some ("name", ASCENDING))
       get_payment_locations data (create_payment_location trans py_str data xw)
  /\ found_again py_str "tax_reminders" (Some ("due_date", ASCENDING))
       get_tax_reminders data (create_tax_reminder trans py_str data xw).
Proof.
  split_and!.
  - unfold create_news_article. found_again_by.
    intros k v Hk. apply with_id_keeps. by rewrite !assoc_get_setdefault, Hk.
  - unfold create_tax_rate. found_again_by. intros k v. apply with_id_keeps.
  - unfold create_payment_location. found_again_by. intros k v. apply with_id_keeps.
  - unfold create_tax_reminder. found_again_by. intros k v. apply with_id_keeps.
Qed.
End RecordsRound.

Lemma news_article_defaults_witness :
  let xw1 := (create_news_article default_text plain_str verified_article
                (xboot empty_db)).2 in
  exists d,
    last (docs_of (w_db (x_world xw1)) "news_articles") = Some d
    /\ jget "is_verified" d
       = Some (default (JBool false) (assoc_get "is_verified" verified_article))
    /\ jget "is_active" d
       = Some (default (JBool true) (assoc_get "is_active" verified_article))
    /\ (forall k v, assoc_get k verified_article = Some v -> jget k d = Some v)
    /\ "oid-0" = plain_str (default JNull (jget "_id" d)).
Proof.
  apply (news_article_defaults default_text plain_str verified_article (xboot empty_db)
           "oid-0"
           (create_news_article default_text plain_str verified_article
              (xboot empty_db)).2).
  vm_compute. reflexivity.
Defined.

Lemma created_records_are_found_witness :
  let created := create_tax_rate default_text plain_str flat_rate (xboot empty_db) in
  exists l xw2,
    get_tax_rates (JObj []) created.2 = (XOk l, xw2)
    /\ found_among plain_str l "oid-0" flat_rate
    /\ w_db (x_world xw2) = w_db (x_world created.2).
Proof.
  destruct (created_records_are_found default_text plain_str flat_rate (xboot empty_db))
    as (_ & H & _).
  apply (H "oid-0").
  - vm_compute. reflexivity.
  - intros db. reflexivity.
  - reflexivity.
Defined.

(** ** Calling [log_tool_usage] by keyword *)

Lemma bind_keywords_unexpected parameters name value kwargs :
  name ∉ parameters.*1 ->
  bind_keywords parameters ((name, value) :: kwargs) = None.
Proof.
  intros H. unfold bind_keywords. cbn [forallb fst].
  by rewrite bool_decide_eq_false_2.
Qed.

(** With the name of the first parameter as keyword, the call goes
    through to [log_tool_usage]; parameters left out take their default. *)
Lemma call_log_tool_usage_fits handle tool_name user_id session_id action :
  call_log_tool_usage [("db", handle); ("tool_name", tool_name); ("user_id", user_id);
                       ("session_id", session_id); ("action", action)]
  = lift (log_tool_usage tool_name user_id session_id action)
  /\ call_log_tool_usage [("db", handle); ("tool_name", tool_name)]
     = lift (log_tool_usage tool_name JNull JNull JNull).
Proof. split; reflexivity. Qed.

Lemma mongo_keyword_raises handle tool_name user_id session_id action xw :
  call_log_tool_usage
    [("mongo", handle); ("tool_name", tool_name); ("user_id", user_id);
     ("session_id", session_id); ("action", action)] xw
  = (XRaise TypeError, xw).
Proof.
  unfold call_log_tool_usage. rewrite bind_keywords_unexpected; [done|].
  cbn. rewrite !not_elem_of_cons. split_and!; try done. apply not_elem_of_nil.
Qed.

(** X17.  The calls of [log_tool_usage] in the emergency-fund routes pass
    the handle under the keyword [mongo], which is not a parameter of
    [log_tool_usage]: whatever the other arguments are, such a call raises
    [TypeError] before [log_tool_usage] runs; nothing is stored and
    nothing is logged. *)
Theorem mongo_keyword_does_not_fit handle tool_name user_id session_id action xw :
  call_log_tool_usage
    [("mongo", handle); ("tool_name", tool_name); ("user_id", user_id);
     ("session_id", session_id); ("action", action)] xw
  = (XRaise TypeError, xw)
  /\ call_log_tool_usage
       [("db", handle); ("tool_name", tool_name); ("user_id", user_id);
        ("session_id", session_id); ("action", action)] xw
     = lift (log_tool_usage tool_name user_id session_id action) xw.
Proof. split; [apply mongo_keyword_raises|reflexivity]. Qed.

(** X18.  [unsubscribe] never unsubscribes: for every request and address
    the call of [log_tool_usage] fails, [update_many] is not reached, and
    the route logs the error, flashes the error message in the language of
    the session and redirects to the index.  The store and the trace of
    the inner world are as before. *)
Theorem unsubscribe_never_updates req uuid4 email xw :
  unsubscribe req uuid4 email xw =
    (XOk (Redirect "index"),
     xpush [XLog Error (LUnsubscribeFailed TypeError);
            XFlash "emergency_fund_unsubscribe_error"
              (default (JStr "en") (assoc_get "lang" (session req))) "danger"] xw).
Proof.
  unfold unsubscribe, xtry. rewrite !xrun_bind.
  rewrite mongo_keyword_raises. cbn.
  unfold mbind, X_bind, mret, X_ret, xlog_at, flash, xemit, xpush. cbn.
  by rewrite <- app_assoc.
Qed.

Lemma creators_reject_incomplete_data_witness :
  let xw := xboot empty_db in
  create_feedback default_text [] xw =
    rejected default_text xw
      "general_missing_feedback_fields" "Missing required feedback fields"
      "general_feedback_creation_error" "Error creating feedback"
  /\ create_news_article default_text plain_str [] xw =
       rejected default_text xw
         "general_missing_news_fields" "Missing required news article fields"
         "general_news_article_creation_error" "Error creating news article"
  /\ create_tax_rate default_text plain_str [] xw =
       rejected default_text xw
         "general_missing_tax_rate_fields" "Missing required tax rate fields"
         "general_tax_rate_creation_error" "Error creating tax rate"
  /\ create_payment_location default_text plain_str [] xw =
       rejected default_text xw
         "general_missing_location_fields" "Missing required payment location fields"
         "general_payment_location_creation_error" "Error creating payment location"
  /\ create_tax_reminder default_text plain_str [] xw =
       rejected default_text xw
         "general_missing_reminder_fields" "Missing required tax reminder fields"
         "general_tax_reminder_creation_error" "Error creating tax reminder".
Proof.
  destruct (creators_reject_incomplete_data default_text plain_str [] (xboot empty_db))
    as (H1 & H2 & H3 & H4 & H5).
  split_and!; [apply H1|apply H2|apply H3|apply H4|apply H5]; reflexivity.
Defined.

(** ** No failure is swallowed *)

Lemma swallows_nothing_ret {A} (a : A) : traces (mret a) swallows_nothing.
Proof. apply traces_ret. intros _. constructor. Qed.

Lemma swallows_nothing_log lvl msg : traces (log lvl msg) swallows_nothing.
Proof. apply traces_emit. intros _. by repeat constructor. Qed.

Lemma swallows_nothing_driver {A} c (sem : db_state -> result (A * db_state)) :
  traces (driver c sem) swallows_nothing.
Proof.
  apply traces_driver.
  - intros a _. by repeat constructor.
  - intros e [a [=]].
Qed.

Lemma swallows_nothing_bind {A B} (m : M A) (f : A -> M B) :
  traces m swallows_nothing -> (forall a, traces (f a) swallows_nothing) ->
  traces (m ≫= f) swallows_nothing.
Proof.
  intros Hm Hf.
  apply (traces_bind m f swallows_nothing (fun _ => swallows_nothing)); auto.
  - intros e d _ [a [=]].
  - intros a d1 r d2 H1 H2 Hr. apply Forall_app. split; [|by apply H2].
    apply H1. by exists a.
Qed.

Lemma swallows_nothing_for_each {A} (l : list A) (body : A -> M unit) :
  (forall x, traces (body x) swallows_nothing) ->
  traces (for_each l body) swallows_nothing.
Proof.
  intros Hb. induction l as [|x l IH]; cbn [for_each].
  - apply swallows_nothing_ret.
  - apply swallows_nothing_bind; auto.
Qed.

(** A handler that raises again hides nothing. *)
Lemma swallows_nothing_reraise {A} (m : M A) (h : exn -> M A) :
  traces m swallows_nothing ->
  (forall e, traces (h e) (fun r _ => forall a, r <> Ok a)) ->
  traces (try_except m h) swallows_nothing.
Proof.
  intros Hm Hh.
  apply (traces_try m h swallows_nothing (fun _ r _ => forall a, r <> Ok a)); auto.
  intros e d1 r d2 _ H2 [a ->]. by destruct (H2 a).
Qed.

Lemma swallows_nothing_search c existing keys options :
  traces (search_existing c existing keys options) swallows_nothing.
Proof.
  eapply traces_weaken.
  - apply (only_search_existing retried_probe). by intros.
  - intros r d H _. exact H.
Qed.

Lemma swallows_nothing_retry_loop trans attempts :
  traces (retry_loop trans attempts) swallows_nothing.
Proof.
  induction attempts as [|attempt rest IH]; intros w.
  - cbn. exists []. split; [by rewrite app_nil_r|]. intros _. constructor.
  - rewrite retry_loop_turn.
    destruct (w_faults w (w_calls w) AdminPing) as [e|] eqn:F.
    + destruct (is_connection_error e) eqn:C.
      * destruct (Nat.eqb attempt (max_retries - 1)).
        -- eexists. split; [cbn; by rewrite <- app_assoc|]. intros [a [=]].
        -- destruct (IH (push [EvLog Error (LConnectionAttemptFailed (attempt + 1) e);
                                EvSleep retry_delay]
                           (after_call AdminPing (Some e) w))) as (d & -> & H).
           eexists. split; [cbn; rewrite <- !app_assoc; reflexivity|].
           intros Hr. cbn.
           apply Forall_cons; split; [by cbn|].
           apply Forall_cons; split; [by cbn|].
           apply Forall_cons; split; [by cbn|]. by apply H.
      * eexists. split; [reflexivity|]. intros [a [=]].
    + eexists. split; [cbn; by rewrite <- app_assoc|]. intros _. by repeat constructor.
Qed.

Lemma reraise_never_returns {A} lvl msg e :
  traces (log lvl msg ;; raise e : M A) (fun r _ => forall a, r <> Ok a).
Proof. intros w. eexists. split; [reflexivity|]. cbn. done. Qed.

Lemma swallows_nothing_reconcile_and_seed trans :
  traces (reconcile_and_seed trans) swallows_nothing.
Proof.
  unfold reconcile_and_seed.
  apply swallows_nothing_bind.
  { unfold get_db, db_ping. apply swallows_nothing_reraise.
    - apply swallows_nothing_bind; [apply swallows_nothing_driver|].
      intros ?. apply swallows_nothing_log.
    - intros e. apply reraise_never_returns. }
  intros ?. apply swallows_nothing_bind; [apply swallows_nothing_log|]. intros ?.
  apply swallows_nothing_bind; [apply swallows_nothing_driver|]. intros collections.
  apply swallows_nothing_bind.
  { apply swallows_nothing_for_each. intros entry. unfold reconcile_collection.
    apply swallows_nothing_bind.
    - case_bool_decide; [|apply swallows_nothing_ret].
      apply swallows_nothing_bind; [apply swallows_nothing_driver|].
      intros ?. apply swallows_nothing_log.
    - intros ?. apply swallows_nothing_bind; [apply swallows_nothing_driver|].
      intros existing. apply swallows_nothing_for_each. intros index.
      unfold reconcile_index.
      apply swallows_nothing_bind; [apply swallows_nothing_search|].
      intros []; cbn; [apply swallows_nothing_ret|].
      apply swallows_nothing_bind; [apply swallows_nothing_driver|].
      intros ?. apply swallows_nothing_log. }
  intros ?. apply swallows_nothing_bind.
  { unfold seed_courses.
    apply swallows_nothing_bind; [apply swallows_nothing_driver|]. intros n.
    apply swallows_nothing_bind.
    - destruct (Nat.eqb n 0); [|apply swallows_nothing_ret].
      apply swallows_nothing_bind; [|intros ?; apply swallows_nothing_log].
      apply swallows_nothing_for_each. intros d. apply swallows_nothing_driver.
    - intros ?. apply swallows_nothing_bind; [apply swallows_nothing_driver|].
      intros courses. apply traces_set_courses. intros _. constructor. }
  intros ?. apply swallows_nothing_bind.
  { unfold seed_tax_rates.
    apply swallows_nothing_bind; [apply swallows_nothing_driver|]. intros n.
    destruct (Nat.eqb n 0); [|apply swallows_nothing_ret].
    apply swallows_nothing_bind; [apply swallows_nothing_driver|].
    intros ?. apply swallows_nothing_log. }
  intros ?. unfold seed_payment_locations.
  apply swallows_nothing_bind; [apply swallows_nothing_driver|]. intros n.
  destruct (Nat.eqb n 0); [|apply swallows_nothing_ret].
  apply swallows_nothing_bind; [apply swallows_nothing_driver|].
  intros ?. apply swallows_nothing_log.
Qed.

(** X19.  [initialize_database] swallows no failure of the store: in a run
    that returned, every driver call succeeded, except liveness probes
    that were lost to a connection error and then retried.  So a run
    returns only if every collection and index it asked for was created
    and every seed insertion it issued went through. *)
Theorem returned_run_had_no_failure trans w w1 :
  initialize_database trans w = (Ok tt, w1) ->
  exists d,
    w_trace w1 = w_trace w ++ d
    /\ forall c e, EvCall c (Some e) ∈ d ->
                   c = AdminPing /\ is_connection_error e = true.
Proof.
  intros E.
  assert (traces (initialize_database trans) swallows_nothing) as H.
  { unfold initialize_database. apply swallows_nothing_bind.
    - apply swallows_nothing_retry_loop.
    - intros ?. apply swallows_nothing_reraise.
      + apply swallows_nothing_reconcile_and_seed.
      + intros e. apply reraise_never_returns. }
  destruct (H w) as (d & Ed & Hd). rewrite E in Ed, Hd. cbn in *.
  exists d. split; [done|]. intros c e Hin.
  specialize (Hd ltac:(by exists tt)). rewrite Forall_forall in Hd.
  apply (Hd _ Hin).
Qed.

Lemma returned_run_had_no_failure_witness :
  let w := boot twin_db no_faults in
  exists d,
    w_trace (initialize_database default_text w).2 = w_trace w ++ d
    /\ forall c e, EvCall c (Some e) ∈ d ->
                   c = AdminPing /\ is_connection_error e = true.
Proof.
  apply (returned_run_had_no_failure default_text (boot twin_db no_faults)
           (initialize_database default_text (boot twin_db no_faults)).2).
  vm_compute. reflexivity.
Defined.

(** ** Reference data, from seeding to reading *)

Lemma lift_returned {A} (m : M A) xw a xw1 :
  lift m xw = (XOk a, xw1) ->
  m (x_world xw) = (Ok a, x_world xw1)
  /\ x_faults xw1 = x_faults xw /\ x_find xw1 = x_find xw.
Proof.
  unfold lift. destruct (m (x_world xw)) as [[a0|e] w1]; cbn; [|done].
  by intros [= <- <-].
Qed.

Lemma accessor_answer coll sort key dflt xw :
  (forall c, x_faults xw (w_calls (x_world xw)) c = None) ->
  exists xw2,
    xtry (find_sorted coll (JObj []) sort)
      (fun e => xlog_at Error (LFailure key dflt e) ;; xraise e) xw
    = (XOk (x_find xw coll (JObj []) sort (w_db (x_world xw))), xw2)
    /\ w_db (x_world xw2) = w_db (x_world xw).
Proof.
  intros Hfault. unfold xtry, find_sorted, xdriver, reading.
  rewrite Hfault. cbn. eexists. split; reflexivity.
Qed.

Section Reference.
Context (trans : translator) (py_str : json -> string).

(** X20.  The seeds reach the readers: when [initialize_database] has
    returned and the tax rates (the payment locations) were empty before,
    [get_tax_rates] ([get_payment_locations]), asked for everything next,
    returns the canonical seed documents and nothing else, each with its
    ['_id'], in the order the store gives them, if the store answers that
    query with the documents of the collection. *)
Theorem seeds_reach_the_accessors xw xw1 :
  lift (initialize_database trans) xw = (XOk tt, xw1) ->
  (forall c, x_faults xw1 (w_calls (x_world xw1)) c = None) ->
  (docs_of (w_db (x_world xw)) "tax_rates" = [] ->
   answers_all xw1 "tax_rates" (Some ("min_income", ASCENDING)) ->
   exists l xw2, get_tax_rates (JObj []) xw1 = (XOk l, xw2)
                 /\ without_id <$> l ≡ₚ sample_rates trans)
  /\ (docs_of (w_db (x_world xw)) "payment_locations" = [] ->
      answers_all xw1 "payment_locations" (Some ("name", ASCENDING)) ->
      exists l xw2, get_payment_locations (JObj []) xw1 = (XOk l, xw2)
                    /\ without_id <$> l ≡ₚ sample_locations).
Proof.
  intros E Hfault. apply lift_returned in E as (E & _ & _).
  apply returned_run_seeding in E.
  apply Forall_cons in E as [_ E].
  apply Forall_cons in E as [[_ Ht] E].
  apply Forall_cons in E as [[_ Hp] _]. cbn [fst snd] in *.
  split; intros Hnil Hall.
  - destruct (accessor_answer "tax_rates" (Some ("min_income", ASCENDING))
                "general_tax_rates_fetch_error" "Error getting tax rates" xw1 Hfault)
      as (xw2 & Eget & _).
    eexists _, xw2. split; [exact Eget|].
    rewrite (Hall (w_db (x_world xw1))). by rewrite (Ht Hnil).
  - destruct (accessor_answer "payment_locations" (Some ("name", ASCENDING))
                "general_payment_locations_fetch_error" "Error getting payment locations"
                xw1 Hfault)
      as (xw2 & Eget & _).
    eexists _, xw2. split; [exact Eget|].
    rewrite (Hall (w_db (x_world xw1))). by rewrite (Hp Hnil).
Qed.

(** X21.  A tax rate entered by hand keeps the seeds out: once
    [create_tax_rate] has returned, a run of [initialize_database] on the
    store it left, whatever its outcome, leaves [tax_rates] as it is, with
    the created record last and no seed document added; this holds also
    when the collection was empty before the record was created. *)
Theorem created_rate_keeps_seeds_out data xw inserted_id xw1 w :
  create_tax_rate trans py_str data xw = (XOk inserted_id, xw1) ->
  w_db w = w_db (x_world xw1) ->
  let db := w_db (x_world xw) in
  docs_of (w_db (initialize_database trans w).2) "tax_rates"
  = docs_of db "tax_rates" ++ [with_id (db_next_oid db) (JObj data)].
Proof.
  intros E Hdb. unfold create_tax_rate in E. cbv zeta in E.
  apply creator_returned in E as (_ & Hdocs & _).
  destruct (guarded_initialize_database trans "tax_rates" w) as (d & _ & H).
  cbn zeta. rewrite <- Hdocs, <- Hdb. apply H.
  rewrite Hdb, Hdocs. by destruct (docs_of (w_db (x_world xw)) "tax_rates").
Qed.
End Reference.

Lemma seeds_reach_the_accessors_witness :
  let xw1 := (lift (initialize_database default_text) (xboot empty_db)).2 in
  (exists l xw2, get_tax_rates (JObj []) xw1 = (XOk l, xw2)
                 /\ without_id <$> l ≡ₚ sample_rates default_text)
  /\ (exists l xw2, get_payment_locations (JObj []) xw1 = (XOk l, xw2)
                    /\ without_id <$> l ≡ₚ sample_locations).
Proof.
  destruct (seeds_reach_the_accessors default_text (xboot empty_db)
              (lift (initialize_database default_text) (xboot empty_db)).2)
    as [Ht Hp].
  - vm_compute. reflexivity.
  - reflexivity.
  - split; [apply Ht|apply Hp]; try reflexivity; intros db; reflexivity.
Defined.

Lemma created_rate_keeps_seeds_out_witness :
  let xw1 := (create_tax_rate default_text plain_str flat_rate (xboot empty_db)).2 in
  docs_of (w_db (initialize_database default_text (boot (w_db (x_world xw1)) no_faults)).2)
    "tax_rates"
  = docs_of empty_db "tax_rates" ++ [with_id (db_next_oid empty_db) (JObj flat_rate)].
Proof.
  apply (created_rate_keeps_seeds_out default_text plain_str flat_rate (xboot empty_db)
           "oid-0"
           (create_tax_rate default_text plain_str flat_rate (xboot empty_db)).2
           (boot (w_db (x_world (create_tax_rate default_text plain_str flat_rate
                                   (xboot empty_db)).2)) no_faults)).
  - vm_compute. reflexivity.
  - reflexivity.
Defined.

(** ** Only the declared writes *)

Lemma only_for_each_in (Q : event -> Prop) {A} (l : list A) (body : A -> M unit) :
  (forall x, x ∈ l -> traces (body x) (only Q)) -> traces (for_each l body) (only Q).
Proof.
  induction l as [|x l IH]; intros Hb; cbn [for_each].
  - apply only_ret.
  - apply only_bind.
    + apply Hb. by left.
    + intros ?. apply IH. intros y Hy. apply Hb. by right.
Qed.

Lemma expected_reconcile_collection trans collections entry :
  entry ∈ collection_schemas ->
  traces (reconcile_collection collections entry) (only (expected_event trans)).
Proof.
  intros Hentry. unfold reconcile_collection.
  apply only_bind.
  - case_bool_decide; [|apply only_ret].
    unfold create_collection. repeat only_step; cbn; try done.
    all: intros _; left; exists entry; split; [done|]; by left.
  - intros ?. apply only_bind.
    + unfold index_information. repeat only_step; by cbn.
    + intros existing. apply only_for_each_in. intros index Hindex.
      unfold reconcile_index. apply only_bind.
      * apply only_search_existing. by intros.
      * intros []; cbn; [apply only_ret|].
        unfold create_index. repeat only_step; cbn; try done.
        all: intros _; left; exists entry; split; [done|]; right.
        all: apply list_elem_of_fmap; by exists index.
Qed.

Lemma expected_reconcile_and_seed trans :
  traces (reconcile_and_seed trans) (only (expected_event trans)).
Proof.
  unfold reconcile_and_seed.
  apply only_bind.
  { unfold get_db, db_ping. repeat only_step; by cbn. }
  intros ?. apply only_bind; [apply only_log; by cbn|]. intros ?.
  apply only_bind.
  { unfold list_collection_names. repeat only_step; by cbn. }
  intros collections. apply only_bind.
  { apply only_for_each_in. intros entry Hentry.
    by apply expected_reconcile_collection. }
  intros ?. apply only_bind.
  { unfold seed_courses, count_documents, find_all_without_id.
    apply only_bind; [repeat only_step; by cbn|]. intros n.
    apply only_bind.
    - destruct (Nat.eqb n 0); [|apply only_ret].
      apply only_bind; [|intros ?; apply only_log; by cbn].
      apply only_for_each_in. intros course Hcourse.
      unfold insert_one. repeat only_step; cbn.
      all: intros _; right; left; by exists course.
    - intros ?. repeat only_step; by cbn. }
  intros ?. apply only_bind.
  { unfold seed_tax_rates, count_documents, insert_many.
    repeat only_step; cbn; try done.
    all: intros _; right; right; by left. }
  intros ?. unfold seed_payment_locations, count_documents, insert_many.
  repeat only_step; cbn; try done.
  all: intros _; right; right; by right.
Qed.

(** X22.  [initialize_database] writes only what is declared: in every
    run, each create or insert call it issues, failed or not, is the
    creation of a declared collection with its declared validator, the
    creation of a declared index with its declared key tuple and options on
    its own collection, or the insertion of canonical seed documents into
    their reference collection. *)
Theorem only_declared_writes trans w :
  exists d,
    w_trace (initialize_database trans w).2 = w_trace w ++ d
    /\ forall c o, EvCall c o ∈ d -> is_write c = true -> expected_write trans c.
Proof.
  assert (traces (initialize_database trans) (only (expected_event trans))) as H.
  { unfold initialize_database. apply only_bind.
    - induction (seq 0 max_retries) as [|attempt rest IH]; cbn [retry_loop].
      + apply only_ret.
      + unfold try_except_on, admin_ping. repeat only_step; by cbn.
    - intros ?. apply only_try; [apply expected_reconcile_and_seed|].
      intros e. repeat only_step; by cbn. }
  destruct (H w) as (d & E & Hd). exists d. split; [done|].
  intros c o Hin. unfold only in Hd. rewrite Forall_forall in Hd. apply (Hd _ Hin).
Qed.

(** ** The stored password *)

Section Password.
Context (lower : string -> string) (trans : translator)
        (generate_password_hash : string -> string).

(** X23.  The password is stored hashed: when the data has a ['password'],
    the ['password'] field of the document that [create_user] stores is
    its hash, whatever ['password_hash'] the data carried besides; only
    data without ['password'] has its ['password_hash'] stored as given. *)
Theorem password_is_stored_hashed user_data w u w1 :
  create_user lower trans generate_password_hash user_data w = (Ok u, w1) ->
  exists user_doc,
    last (docs_of (w_db w1) "users") = Some user_doc
    /\ jget "password" user_doc =
         match jget "password" user_data with
         | Some (JStr password) => Some (JStr (generate_password_hash password))
         | _ => jget "password_hash" user_data
         end.
Proof.
  intros Hcreate.
  destruct (create_user_stored _ _ _ _ _ _ _ Hcreate)
    as (e & uname & doc0 & Hemail & _ & _ & _ & _ & _ & Hdocs & _).
  revert Hcreate. unfold create_user, try_except.
  lazymatch goal with
  | |- (let (_, _) := ?x in _) = _ -> _ => destruct x as [[u0|err] w0] eqn:E
  | |- match ?x with _ => _ end = _ -> _ => destruct x as [[u0|err] w0] eqn:E
  end.
  2: { destruct err; cbn; intros [=]. }
  intros [= -> ->].
  apply bind_Ok in E as (email0 & w2 & E0 & E).
  apply subscript_Ok in E0 as [_ ->].
  apply bind_Ok in E as (prefix & w2 & E0 & E).
  apply str_before_at_world in E0 as ->.
  apply bind_Ok in E as (user_id & w2 & E0 & E).
  apply str_lower_world in E0 as ->.
  apply bind_Ok in E as (user_data' & w2 & E0 & E).
  assert (w2 = w
          /\ jget "password_hash" user_data' =
               match jget "password" user_data with
               | Some (JStr password) => Some (JStr (generate_password_hash password))
               | _ => jget "password_hash" user_data
               end) as [-> Hhash].
  { destruct (jget "password" user_data) as [[]|]; cbn in E0; try done.
    - destruct user_data; cbn in E0; try done. injection E0 as <- <-.
      split; [done|]. cbn [jget]. apply assoc_get_set_eq.
    - by injection E0 as <- <-. }
  clear E0.
  apply bind_Ok in E as (email1 & w2 & E0 & E).
  apply subscript_Ok in E0 as [_ ->].
  apply bind_Ok in E as (email_lower & w2 & E0 & E).
  apply str_lower_world in E0 as ->.
  apply bind_Ok in E as (password & w2 & E0 & E).
  apply subscript_Ok in E0 as [Hpw ->].
  apply bind_Ok in E as (now & w2 & E0 & E). cbn in E0. injection E0 as <- <-.
  apply bind_Ok in E as ([] & w2 & E0 & E).
  apply bind_Ok in E as ([] & w3 & Elog & E). cbn in Elog. injection Elog as <-.
  pose proof (User_init_world _ _ _ _ _ _ _ _ _ _ _ _ _ E) as ->. clear E.
  match type of E0 with insert_one _ ?d _ = _ => set (user_doc := d) in * end.
  exists user_doc.
  unfold insert_one, driver in E0.
  destruct (w_faults w (w_calls w) _); [done|].
  destruct (db_insert_one _ _ _) as [[[] db1]|] eqn:Eins; [|done].
  injection E0 as <-. cbn [w_db push] in *.
  apply insert_one_docs in Eins as [Hd _].
  change (with_id (db_next_oid (w_db w)) user_doc) with user_doc in Hd.
  split; [by rewrite Hd, last_snoc|].
  subst user_doc. cbn [jget assoc_get String.eqb Ascii.eqb Bool.eqb].
  by rewrite <- Hhash, Hpw.
Qed.
End Password.

Lemma password_is_stored_hashed_witness :
  let hash := fun password => "hash:" +:+ password in
  let data := JObj [("email", JStr "eve@example.com"); ("password", JStr "secret");
                    ("password_hash", JStr "chosen by the caller")] in
  exists user_doc,
    last (docs_of (w_db (create_user ascii_lower default_text hash data
                           (boot crowded_db no_faults)).2) "users") = Some user_doc
    /\ jget "password" user_doc =
         match jget "password" data with
         | Some (JStr password) => Some (JStr (hash password))
         | _ => jget "password_hash" data
         end.
Proof.
  cbv zeta.
  eapply (password_is_stored_hashed ascii_lower default_text (fun password => "hash:" +:+ password)
            (JObj [("email", JStr "eve@example.com"); ("password", JStr "secret");
                   ("password_hash", JStr "chosen by the caller")])
            (boot crowded_db no_faults)).
  vm_compute. reflexivity.
Defined.

(** ** The declared indexes after start-up *)



